(** * cleanmymac-cli: size aggregation, threshold scanning, cache scanning,
      selection and deletion (index.js)

    The program talks to the operating system through [fs.promises.stat],
    [fs.promises.readdir], [fs.existsSync], [fs.promises.unlink] and
    [fs.promises.rm].  The disk is modelled as a finite tree of nodes, the
    system calls as functions that resolve a path in that tree, and the
    JavaScript functions are transcribed on top of those calls: exceptions
    are a constructor of [outcome], the arrays the closures push to are
    explicit state, and recursion that follows the disk is bounded by a
    fuel argument.

    Modelling conventions.
    - A path is the list of its segments below the file-system root;
      [path.join(dir, file)] with [file] a directory entry name is
      [dir ++ [file]].
    - [stats.size] and every sum of sizes is a JavaScript number, a double
      that holds an integer: it is modelled by that integer ([Z]), and
      every operation rounds its result to the nearest double.
    - The expanded cache directory is a string in the program; the star
      is looked for among the characters of the segments, and [render]
      gives the string back.
    - A recursive removal that throws may have removed part of the
      directory by then.  What it has removed is a parameter (an
      [interruption]) of everything that deletes, and what is proved of a
      deletion is proved for every interruption.
    - Spinner, table and colour output do not influence control flow and
      are left out, except for the messages of [deleteFiles]. *)

From Stdlib Require Import Ascii String.
From Stdlib Require Import List ZArith Lia Bool Arith Permutation Sorted.
Import ListNotations.

Local Open Scope string_scope.
Local Open Scope list_scope.
Local Open Scope Z_scope.

Set Warnings "-register-all".

(* ------------------------------------------------------------------ *)
(** ** Outcomes of a call *)

(** A call returns a value, throws (a rejected promise), or exhausts the
    recursion budget of the model. *)
Inductive outcome (A : Type) : Type :=
| Val (a : A)
| Exn
| OutOfFuel.

Arguments Val {A} a.
Arguments Exn {A}.
Arguments OutOfFuel {A}.

Definition obind {A B : Type} (m : outcome A) (f : A -> outcome B) : outcome B :=
  match m with
  | Val a => f a
  | Exn => Exn
  | OutOfFuel => OutOfFuel
  end.

(** [try { body } catch (err) { handler }] for code without state. *)
Definition try_catch {A : Type} (body handler : outcome A) : outcome A :=
  match body with
  | Exn => handler
  | r => r
  end.

Declare Scope outcome_scope.
Delimit Scope outcome_scope with outcome.
Notation "x <- m ;; k" := (obind m (fun x => k))
  (at level 61, m at next level, right associativity) : outcome_scope.

(** [await Promise.all(xs.map(f))]: the results in the order of [xs]; it
    rejects as soon as one of the promises does. *)
Fixpoint promiseAllMap {A B : Type} (f : A -> outcome B) (xs : list A)
  : outcome (list B) :=
  match xs with
  | [] => Val []
  | x :: rest =>
      obind (f x) (fun y =>
      obind (promiseAllMap f rest) (fun ys => Val (y :: ys)))
  end.

(* ------------------------------------------------------------------ *)
(** ** JavaScript numbers *)

(** The double nearest to an integer (IEEE 754 binary64, round to nearest,
    ties to even).  Every integer up to 2^53 in magnitude is a double;
    above, the doubles between 2^k and 2^(k+1) are the multiples of
    2^(k-52), and an integer half-way between two of them goes to the one
    with the even mantissa.  Magnitudes from 2^1024 on, where the program
    would hold [Infinity], are beyond any sum of file sizes and are not
    told apart. *)
Definition roundToDouble (z : Z) : Z :=
  let a := Z.abs z in
  if a <=? 2 ^ 53 then z
  else
    let ulp := 2 ^ (Z.log2 a - 52) in
    let low := a / ulp in
    let rest := a mod ulp in
    let mantissa :=
      if 2 * rest <? ulp then low
      else if ulp <? 2 * rest then low + 1
      else if Z.even low then low else low + 1 in
    Z.sgn z * (mantissa * ulp).

(** [a + b] and [a - b] on numbers. *)
Definition jsAdd (a b : Z) : Z := roundToDouble (a + b).

Definition jsSub (a b : Z) : Z := roundToDouble (a - b).

(* ------------------------------------------------------------------ *)
(** ** The disk *)

Abbreviation pathname := (list string).

Definition join (dir : pathname) (file : string) : pathname := dir ++ [file].

(** A node of the disk.  A file has the size in bytes that the file
    system records, an integer.  [Broken] is a name that the enclosing
    directory lists but that cannot be statted (dangling symbolic link,
    permission denied).  A directory records whether it can be enumerated
    and whether entries can be removed from it. *)
Inductive node : Type :=
| File (size : Z)
| Dir (readable writable : bool) (entries : list (string * node))
| Broken.

Fixpoint assoc {V : Type} (x : string) (es : list (string * V)) : option V :=
  match es with
  | [] => None
  | (y, v) :: rest => if String.eqb x y then Some v else assoc x rest
  end.

Fixpoint lookup (n : node) (p : pathname) : option node :=
  match p with
  | [] => Some n
  | x :: q =>
      match n with
      | Dir _ _ es =>
          match assoc x es with
          | Some c => lookup c q
          | None => None
          end
      | _ => None
      end
  end.

Fixpoint height (n : node) : nat :=
  match n with
  | Dir _ _ es => list_max (map (fun xc => S (height (snd xc))) es)
  | _ => 0%nat
  end.

(** What [fs.Stats] exposes to the program.  [stats.size] is a number: the
    double nearest to the size on the disk.  The program never reads the
    size of a directory's own inode. *)
Record stats : Type := mkStats { st_isDirectory : bool; st_size : Z }.

Definition stat (disk : node) (p : pathname) : outcome stats :=
  match lookup disk p with
  | Some (File s) => Val (mkStats false (roundToDouble s))
  | Some (Dir _ _ _) => Val (mkStats true 0)
  | Some Broken => Exn
  | None => Exn
  end.

Definition readdir (disk : node) (p : pathname) : outcome (list string) :=
  match lookup disk p with
  | Some (Dir true _ es) => Val (map fst es)
  | _ => Exn
  end.

Definition existsSync (disk : node) (p : pathname) : bool :=
  match stat disk p with
  | Val _ => true
  | _ => false
  end.

(* ------------------------------------------------------------------ *)
(** ** getFileSizeRecursive (index.js 28-49) *)

Fixpoint getFileSizeRecursive (fuel : nat) (disk : node) (filePath : pathname)
  : outcome Z :=
  match fuel with
  | O => OutOfFuel
  | S fuel' =>
      try_catch
        (stats <- stat disk filePath ;;
         if st_isDirectory stats then
           files <- readdir disk filePath ;;
           sizes <- promiseAllMap
                      (fun file =>
                         try_catch
                           (getFileSizeRecursive fuel' disk (join filePath file))
                           (Val 0))
                      files ;;
           Val (fold_left (fun acc size => jsAdd acc size) sizes 0)
         else Val (st_size stats))%outcome
        (Val 0)
  end.

(* ------------------------------------------------------------------ *)
(** ** Code with mutable state *)

(** A computation over a mutable state [S].  The state survives an
    exception: what was pushed before a [throw] is still there in the
    [catch] block. *)
Definition M (S A : Type) : Type := S -> outcome A * S.

Section StateMonad.
Context {S : Type}.

Definition ret {A : Type} (a : A) : M S A := fun s => (Val a, s).

Definition bind {A B : Type} (m : M S A) (f : A -> M S B) : M S B :=
  fun s =>
    match m s with
    | (Val a, s') => f a s'
    | (Exn, s') => (Exn, s')
    | (OutOfFuel, s') => (OutOfFuel, s')
    end.

(** A call that only reads: its outcome, state untouched. *)
Definition lift {A : Type} (o : outcome A) : M S A := fun s => (o, s).

Definition catch {A : Type} (body handler : M S A) : M S A :=
  fun s =>
    match body s with
    | (Exn, s') => handler s'
    | r => r
    end.

Definition gets {A : Type} (f : S -> A) : M S A := fun s => (Val (f s), s).

Definition modify (f : S -> S) : M S unit := fun s => (Val tt, f s).
End StateMonad.

Declare Scope m_scope.
Delimit Scope m_scope with M.
Notation "x <- m ;; k" := (bind m (fun x => k))
  (at level 61, m at next level, right associativity) : m_scope.
Notation "m ;; k" := (bind m (fun _ => k))
  (at level 61, right associativity) : m_scope.

(** How the body of a [for ... of] loop is left: it falls through to the
    next element ([continue] included) or executes [return]. *)
Inductive control : Type := Next | Return.

Fixpoint forOf {S A : Type} (xs : list A) (body : A -> M S control)
  : M S control :=
  match xs with
  | [] => ret Next
  | x :: rest =>
      bind (body x) (fun c =>
        match c with
        | Next => forOf rest body
        | Return => ret Return
        end)
  end.

(* ------------------------------------------------------------------ *)
(** ** findLargeFiles and its closure scanDir (index.js 52-111) *)

Record entry : Type :=
  mkEntry { path : pathname; size : Z; isDirectory : bool }.

(** What scanDir does, in order.  The program keeps only [results]; the
    trace is there to state what the scanner visits and when. *)
Inductive event : Type :=
| Enter (dir : pathname)        (* scanDir(dir) calls readdir(dir) *)
| Visit (filePath : pathname)   (* scanDir calls stat(filePath) *)
| Measure (filePath : pathname) (* scanDir calls getFileSizeRecursive(filePath) *)
| Emit (e : entry).             (* results.push(e) *)

Record scan_state : Type :=
  mkScan { results : list entry; trace : list event }.

Definition log (ev : event) : M scan_state unit :=
  modify (fun st => mkScan (results st) (trace st ++ [ev])).

Definition push (e : entry) : M scan_state unit :=
  modify (fun st => mkScan (results st ++ [e]) (trace st ++ [Emit e])).

Definition GB : Z := 1024 * 1024 * 1024.

Section ScanDir.
(** The variables the closure captures. *)
Variable disk : node.
Variable listLimit : Z.
Variable sizeThreshold : Z.
(** Recursion budget of each call to getFileSizeRecursive. *)
Variable budget : nat.

(** Lines 69-77 and 83-91: push, then leave scanDir when the cap is
    reached. *)
Definition report (e : entry) : M scan_state control :=
  (push e ;;
   n <- gets (fun st => Z.of_nat (length (results st))) ;;
   if listLimit <=? n then ret Return else ret Next)%M.

(** The body of the [for] loop, lines 61-95.  [scanDirRec] is the
    recursive call of line 80, whose return value is dropped. *)
Definition scanEntry (scanDirRec : pathname -> M scan_state unit)
    (dir : pathname) (file : string) : M scan_state control :=
  catch
    (let filePath := join dir file in
     log (Visit filePath) ;;
     stats <- lift (stat disk filePath) ;;
     if st_isDirectory stats then
       log (Measure filePath) ;;
       size <- lift (getFileSizeRecursive budget disk filePath) ;;
       if sizeThreshold <=? size then
         report (mkEntry filePath size true)
       else
         scanDirRec filePath ;;
         ret Next
     else if sizeThreshold <=? st_size stats then
       report (mkEntry filePath (st_size stats) false)
     else ret Next)%M
    (ret Next).

Fixpoint scanDir (fuel : nat) (dir : pathname) : M scan_state unit :=
  match fuel with
  | O => lift OutOfFuel
  | S fuel' =>
      catch
        (log (Enter dir) ;;
         files <- lift (readdir disk dir) ;;
         forOf files (scanEntry (scanDir fuel') dir) ;;
         ret tt)%M
        (ret tt)
  end.
End ScanDir.

(** A directory as the operator or the cache list writes it: with a leading
    [~] or without. *)
Inductive dirspec : Type :=
| HomeRel (segments : pathname)
| Absolute (segments : pathname).

(** [dir.replace(/^~/, process.env.HOME)] *)
Definition expandHome (home : pathname) (d : dirspec) : pathname :=
  match d with
  | HomeRel segments => home ++ segments
  | Absolute segments => segments
  end.

Definition initial_scan : scan_state := mkScan [] [].

(** findLargeFiles, with the final state of the closure next to the value
    it returns. *)
Definition findLargeFiles_run (fuel : nat) (disk : node) (home : pathname)
    (directory : dirspec) (listLimit sizeThreshold : Z)
  : outcome (list entry) * scan_state :=
  catch
    (let expandedDir := expandHome home directory in
     scanDir disk listLimit sizeThreshold fuel fuel expandedDir ;;
     gets results)%M
    (ret [])
    initial_scan.

Definition findLargeFiles (fuel : nat) (disk : node) (home : pathname)
    (directory : dirspec) (listLimit sizeThreshold : Z) : outcome (list entry) :=
  fst (findLargeFiles_run fuel disk home directory listLimit sizeThreshold).

(* ------------------------------------------------------------------ *)
(** ** scanCacheFiles (index.js 114-179) *)

(** The cache roots of lines 20-25, split at [/]. *)
Definition cacheDirs : list dirspec :=
  [ HomeRel ["Library"; "Caches"];
    HomeRel ["Library"; "Logs"];
    HomeRel ["Library"; "Application Support"; "*"; "Caches"];
    Absolute ["Library"; "Caches"] ].

(** The expanded directory is a string, and the star is looked for among
    its characters: it may stand inside a name (a [HOME] with a star in
    it), and only the first one counts. *)
Fixpoint hasStar (s : string) : bool :=
  match s with
  | EmptyString => false
  | String c rest => if Ascii.eqb c "*" then true else hasStar rest
  end.

(** The characters in front of the first star, and those behind it. *)
Fixpoint uptoStar (s : string) : string :=
  match s with
  | EmptyString => EmptyString
  | String c rest =>
      if Ascii.eqb c "*" then EmptyString else String c (uptoStar rest)
  end.

Fixpoint pastStar (s : string) : string :=
  match s with
  | EmptyString => EmptyString
  | String c rest => if Ascii.eqb c "*" then rest else pastStar rest
  end.

(** A piece of a name as a path: [path.join] and the system calls skip an
    empty piece between two slashes. *)
Definition piece (s : string) : pathname :=
  match s with
  | EmptyString => []
  | _ => [s]
  end.

(** [expandedDir.includes('*')] *)
Definition includesStar (p : pathname) : bool := existsb hasStar p.

(** [expandedDir.substring(0, expandedDir.indexOf('*'))], as a path: the
    segments in front of the one with the star, and what that segment has
    in front of the star. *)
Fixpoint beforeStar (p : pathname) : pathname :=
  match p with
  | [] => []
  | x :: q => if hasStar x then piece (uptoStar x) else x :: beforeStar q
  end.

(** Whether that substring ends in a slash: the star starts its segment. *)
Fixpoint slashBeforeStar (p : pathname) : bool :=
  match p with
  | [] => false
  | x :: q =>
      if hasStar x
      then match uptoStar x with EmptyString => true | _ => false end
      else slashBeforeStar q
  end.

(** [expandedDir.substring(expandedDir.indexOf('*') + 1)], as the path that
    [path.join(baseDir, item, pattern)] puts behind [item]. *)
Fixpoint afterStar (p : pathname) : pathname :=
  match p with
  | [] => []
  | x :: q => if hasStar x then piece (pastStar x) ++ q else afterStar q
  end.

(** [fs.existsSync] of a path written with a slash at its end, which only
    a directory answers to. *)
Definition existsSyncSlash (disk : node) (p : pathname) : bool :=
  match stat disk p with
  | Val stats => st_isDirectory stats
  | _ => false
  end.

(** The expanded directory as the string that the program holds: each
    segment behind a slash. *)
Fixpoint render (p : pathname) : string :=
  match p with
  | [] => EmptyString
  | x :: q => String "/" (x ++ render q)%string
  end.

Section ScanCache.
Variable disk : node.
Variable home : pathname.
Variable sizeThreshold : Z.
Variable budget : nat.

(** Lines 137-146 and 156-165: one child of a cache directory. *)
Definition checkCacheChild (dir : pathname) (file : string)
  : M (list entry) control :=
  (let filePath := join dir file in
   stats <- lift (stat disk filePath) ;;
   size <- (if st_isDirectory stats
            then lift (getFileSizeRecursive budget disk filePath)
            else ret (st_size stats)) ;;
   if sizeThreshold <=? size then
     modify (fun cacheFiles =>
               cacheFiles ++ [mkEntry filePath size (st_isDirectory stats)]) ;;
     ret Next
   else ret Next)%M.

(** Lines 120-170: one cache root, inside its own try/catch. *)
Definition scanCacheRoot (dir : dirspec) : M (list entry) control :=
  catch
    (let expandedDir := expandHome home dir in
     if includesStar expandedDir then
       let baseDir := beforeStar expandedDir in
       let pattern := afterStar expandedDir in
       let baseDirExists :=
         if slashBeforeStar expandedDir then existsSyncSlash disk baseDir
         else existsSync disk baseDir in
       if negb baseDirExists then ret Next
       else
         items <- lift (readdir disk baseDir) ;;
         forOf items (fun item =>
           let fullPath := baseDir ++ [item] ++ pattern in
           if existsSync disk fullPath then
             files <- lift (readdir disk fullPath) ;;
             forOf files (checkCacheChild fullPath)
           else ret Next)
     else
       if negb (existsSync disk expandedDir) then ret Next
       else
         files <- lift (readdir disk expandedDir) ;;
         forOf files (checkCacheChild expandedDir))%M
    (ret Next).

Definition scanCacheFilesIn (roots : list dirspec) : outcome (list entry) :=
  fst (catch
         (forOf roots scanCacheRoot ;;
          gets (fun cacheFiles => cacheFiles))%M
         (ret [])
         []).
End ScanCache.

Definition scanCacheFiles (fuel : nat) (disk : node) (home : pathname)
    (sizeThreshold : Z) : outcome (list entry) :=
  scanCacheFilesIn disk home sizeThreshold fuel cacheDirs.

(* ------------------------------------------------------------------ *)
(** ** selectFilesToDelete (index.js 182-221) *)

(** [Array.prototype.sort(compare)]: a stable sort; an element goes in
    front of the first later element it does not compare greater than. *)
Fixpoint insertSorted {A : Type} (compare : A -> A -> Z) (x : A) (l : list A)
  : list A :=
  match l with
  | [] => [x]
  | y :: rest =>
      if compare x y <=? 0 then x :: y :: rest
      else y :: insertSorted compare x rest
  end.

Definition arraySort {A : Type} (compare : A -> A -> Z) (l : list A) : list A :=
  fold_right (insertSorted compare) [] l.

(** One line of the checkbox prompt.  [name] stands for the label, which
    is printed from the path, the size and the directory mark. *)
Record choice : Type :=
  mkChoice { name : entry; value : pathname; checked : bool }.

(** What the operator is shown: the checkbox choices, the table of the
    five largest items and the total size. *)
Record presentation : Type :=
  mkPresentation { choices : list choice; table : list entry; total : Z }.

Definition present (files : list entry) : presentation :=
  let sorted := arraySort (fun a b => jsSub (size b) (size a)) files in
  mkPresentation
    (map (fun file => mkChoice file (path file) false) sorted)
    (firstn 5 sorted)
    (fold_left (fun acc file => jsAdd acc (size file)) sorted 0).

(** The operator is the function that answers the checkbox prompt. *)
Definition selectFilesToDelete (operator : presentation -> list pathname)
    (files : list entry) : list pathname :=
  operator (present files).

(* ------------------------------------------------------------------ *)
(** ** Removing from the disk *)

Fixpoint removeEntry (x : string) (es : list (string * node))
  : list (string * node) :=
  match es with
  | [] => []
  | (y, c) :: rest =>
      if String.eqb x y then removeEntry x rest else (y, c) :: removeEntry x rest
  end.

Fixpoint replaceEntry (x : string) (c' : node) (es : list (string * node))
  : list (string * node) :=
  match es with
  | [] => []
  | (y, c) :: rest =>
      if String.eqb x y then (y, c') :: rest else (y, c) :: replaceEntry x c' rest
  end.

(** Take the entry at [p] out of its directory; the directory has to be
    writable. *)
Fixpoint detach (n : node) (p : pathname) : option node :=
  match p with
  | [] => None
  | x :: q =>
      match n with
      | Dir r w es =>
          match assoc x es with
          | None => None
          | Some c =>
              match q with
              | [] => if w then Some (Dir r w (removeEntry x es)) else None
              | _ :: _ =>
                  match detach c q with
                  | Some c' => Some (Dir r w (replaceEntry x c' es))
                  | None => None
                  end
              end
          end
      | _ => None
      end
  end.

(** Whether a subtree can be emptied: every directory in it that has
    entries can be enumerated and written. *)
Fixpoint removable (n : node) : bool :=
  match n with
  | Dir r w es =>
      (match es with [] => true | _ :: _ => r && w end)
      && forallb (fun xc => removable (snd xc)) es
  | _ => true
  end.

(** A call that changes the disk: its outcome and the disk it leaves. *)
Definition attempt (disk : node) (o : option node) : outcome unit * node :=
  match o with
  | Some d => (Val tt, d)
  | None => (Exn, disk)
  end.

(** [fs.promises.unlink(p)]; when it fails nothing has changed. *)
Definition unlink (disk : node) (p : pathname) : outcome unit * node :=
  match lookup disk p with
  | Some (Dir _ _ _) => (Exn, disk)
  | Some _ => attempt disk (detach disk p)
  | None => (Exn, disk)
  end.

(** Take out, one after the other, those of the paths that can be taken
    out. *)
Fixpoint prune (disk : node) (paths : list pathname) : node :=
  match paths with
  | [] => disk
  | q :: rest =>
      match detach disk q with
      | Some d => prune d rest
      | None => prune disk rest
      end
  end.

(** A recursive removal works its way through what is inside the
    directory, and when it throws, what it has removed by then stays
    removed.  Which entries these are depends on the order and the timing
    of the removals, not on the program: an [interruption] tells, for a
    directory on a disk, the paths inside the directory that a removal of
    it has taken out when it throws, in that order. *)
Definition interruption : Type := node -> pathname -> list pathname.

(** The paths [p/r], for the [r] that are not empty. *)
Definition within (p : pathname) (rs : list pathname) : list pathname :=
  map (fun r => p ++ r)
    (filter (fun r => match r with [] => false | _ :: _ => true end) rs).

(** [fs.promises.rm(p, { recursive: true, force: true })] *)
Definition rm (sofar : interruption) (disk : node) (p : pathname)
  : outcome unit * node :=
  match lookup disk p with
  | None => (Val tt, disk)
  | Some n =>
      match (if removable n then detach disk p else None) with
      | Some d => (Val tt, d)
      | None => (Exn, prune disk (within p (sofar disk p)))
      end
  end.

(* ------------------------------------------------------------------ *)
(** ** deleteFiles (index.js 224-264) *)

Inductive message : Type :=
| NoFilesSelected
| OperationCancelled
| ErrorDeleting (file : pathname)
| DeletedItems (deleted failed : nat).

Record world : Type :=
  mkWorld { fsys : node;
            deletedCount : nat;
            errorCount : nat;
            console : list message }.

Definition print (m : message) : M world unit :=
  modify (fun w => mkWorld (fsys w) (deletedCount w) (errorCount w) (console w ++ [m])).

(** A call that changes the disk. *)
Definition onDisk (call : node -> outcome unit * node) : M world unit :=
  fun w =>
    let (o, d) := call (fsys w) in
    (o, mkWorld d (deletedCount w) (errorCount w) (console w)).

Definition statM (file : pathname) : M world stats :=
  fun w => (stat (fsys w) file, w).

(** Lines 249-260: one selected path, inside its own try/catch. *)
Definition deleteOne (sofar : interruption) (file : pathname) : M world control :=
  catch
    (stats <- statM file ;;
     (if st_isDirectory stats then onDisk (fun d => rm sofar d file)
      else onDisk (fun d => unlink d file)) ;;
     modify (fun w => mkWorld (fsys w) (S (deletedCount w)) (errorCount w) (console w)) ;;
     ret Next)%M
    (modify (fun w => mkWorld (fsys w) (deletedCount w) (S (errorCount w)) (console w)) ;;
     print (ErrorDeleting file) ;;
     ret Next)%M.

(** [confirm] is the operator's answer to the confirmation prompt. *)
Definition deleteFiles (sofar : interruption) (confirm : bool)
    (files : list pathname) : M world unit :=
  if (length files =? 0)%nat then print NoFilesSelected
  else if negb confirm then print OperationCancelled
  else
    (modify (fun w => mkWorld (fsys w) 0 0 (console w)) ;;
     forOf files (deleteOne sofar) ;;
     w <- gets (fun w => w) ;;
     print (DeletedItems (deletedCount w) (errorCount w)))%M.

(** The world in which deleteFiles starts: nothing has been printed. *)
Definition startWorld (disk : node) : world := mkWorld disk 0 0 [].

(* ------------------------------------------------------------------ *)
(** ** main (index.js 267-310) *)

(** The three choices of the menu. *)
Inductive action : Type := SCAN_CACHE | SCAN_LARGE_FILES | EXIT.

(** What the operator answers during one turn of the loop: the menu
    choice, the directory to scan (asked after SCAN_LARGE_FILES only), the
    boxes ticked in the checkbox prompt and the answer to the confirmation
    (asked only when it comes to that). *)
Record answers : Type :=
  mkAnswers { chosen : action;
              directory : dirspec;
              ticked : presentation -> list pathname;
              confirmed : bool }.

(** What main and deleteFiles write to the console. *)
Inductive line : Type :=
| Banner
| NoFilesFound
| ThankYou
| Printed (m : message).

(** What happened at the checkbox prompt of one turn: what was shown, what
    the operator ticked, and the operator's answer to the confirmation
    prompt (which is asked only when something is ticked). *)
Record ticking : Type :=
  mkTicking { shown : presentation; picked : list pathname; agreed : bool }.

(** The disk and the console during a session.  The program keeps no
    record of the prompts; [tickings] is there to state what the operator
    was shown and ticked, turn after turn. *)
Record session : Type :=
  mkSession { onDiskNow : node; output : list line; tickings : list ticking }.

Definition say (l : line) : M session unit :=
  modify (fun s => mkSession (onDiskNow s) (output s ++ [l]) (tickings s)).

Definition note (t : ticking) : M session unit :=
  modify (fun s => mkSession (onDiskNow s) (output s) (tickings s ++ [t])).

(** A scan of the disk as it is now. *)
Definition scanNow {A : Type} (scan : node -> outcome A) : M session A :=
  fun s => (scan (onDiskNow s), s).

(** deleteFiles on the disk as it is now; what it prints goes to the
    console of the session. *)
Definition deleteNow (sofar : interruption) (confirm : bool)
    (files : list pathname) : M session unit :=
  fun s =>
    let (o, w) := deleteFiles sofar confirm files (startWorld (onDiskNow s)) in
    (o, mkSession (fsys w) (output s ++ map Printed (console w)) (tickings s)).

(** One turn of the [while (true)] loop, lines 271-308; [Return] stands
    for the [break] of line 282. *)
Definition turn (sofar : interruption) (fuel : nat) (home : pathname)
    (a : answers) : M session control :=
  match chosen a with
  | EXIT => (say ThankYou ;; ret Return)%M
  | act =>
      (filesToChooseFrom <-
         match act with
         | SCAN_CACHE =>
             scanNow (fun disk => scanCacheFiles fuel disk home (GB / 2))
         | _ =>
             scanNow (fun disk => findLargeFiles fuel disk home (directory a) 1000 GB)
         end ;;
       if (length filesToChooseFrom =? 0)%nat then
         say NoFilesFound ;; ret Next
       else
         let selectedFiles := selectFilesToDelete (ticked a) filesToChooseFrom in
         note (mkTicking (present filesToChooseFrom) selectedFiles (confirmed a)) ;;
         deleteNow sofar (confirmed a) selectedFiles ;;
         ret Next)%M
  end.

(** main, for an operator who gives the answers of [script] turn after
    turn; when the answers run out before EXIT the program waits at the
    menu for ever. *)
Definition main (sofar : interruption) (fuel : nat) (home : pathname)
    (script : list answers) : M session unit :=
  (say Banner ;;
   c <- forOf script (turn sofar fuel home) ;;
   match c with
   | Return => ret tt
   | Next => lift OutOfFuel
   end)%M.

(* ------------------------------------------------------------------ *)
(** ** What the specification says about sizes *)

(** The leaf files reachable from a node through directories that can be
    enumerated, each with its path below the node and its size. *)
Fixpoint leafFiles (n : node) : list (pathname * Z) :=
  match n with
  | File s => [([], s)]
  | Dir true _ es =>
      flat_map
        (fun xc => map (fun qs => (fst xc :: fst qs, snd qs)) (leafFiles (snd xc)))
        es
  | _ => []
  end.

Definition sumZ (l : list Z) : Z := fold_right Z.add 0 l.

Definition treeSize (n : node) : Z := sumZ (map snd (leafFiles n)).

(** The sum of the sizes of the leaf files reachable from [p]; nothing is
    reachable from a path that does not resolve. *)
Definition computeSize_spec (disk : node) (p : pathname) : Z :=
  match lookup disk p with
  | Some n => treeSize n
  | None => 0
  end.

(** The largest integer up to which every integer is a double. *)
Definition exactUpTo : Z := 2 ^ 53.

(** What getFileSizeRecursive arrives at for a node, without the recursion
    budget: the sizes are added up directory by directory, in the order
    of the listing, each sum rounded to a double. *)
Fixpoint measured (n : node) : Z :=
  match n with
  | File s => roundToDouble s
  | Dir true _ es =>
      fold_left (fun acc size => jsAdd acc size)
        (map (fun xc => measured (snd xc)) es) 0
  | _ => 0
  end.

Definition measuredAt (disk : node) (p : pathname) : Z :=
  match lookup disk p with
  | Some n => measured n
  | None => 0
  end.

(** A number that a double holds. *)
Definition isDouble (z : Z) : Prop := roundToDouble z = z.

(** The entries of every directory have distinct names. *)
Fixpoint distinct (xs : list string) : bool :=
  match xs with
  | [] => true
  | x :: rest => negb (existsb (String.eqb x) rest) && distinct rest
  end.

Fixpoint names_distinct (n : node) : bool :=
  match n with
  | Dir _ _ es =>
      distinct (map fst es) && forallb (fun xc => names_distinct (snd xc)) es
  | _ => true
  end.

(** No file has a negative size. *)
Fixpoint sizes_nonneg (n : node) : bool :=
  match n with
  | File s => 0 <=? s
  | Dir _ _ es => forallb (fun xc => sizes_nonneg (snd xc)) es
  | Broken => true
  end.

Definition well_formed (n : node) : bool := names_distinct n && sizes_nonneg n.

(** A path is strictly below another. *)
Definition strictly_below (p q : pathname) : Prop :=
  exists r, r <> [] /\ q = p ++ r.

Definition below (p q : pathname) : Prop := exists r, q = p ++ r.

(** The entries pushed in a trace, in order. *)
Fixpoint emitted (tr : list event) : list entry :=
  match tr with
  | [] => []
  | Emit e :: rest => e :: emitted rest
  | _ :: rest => emitted rest
  end.

(** The state after some more events. *)
Definition extend (st : scan_state) (tr : list event) : scan_state :=
  mkScan (results st ++ emitted tr) (trace st ++ tr).

(* ------------------------------------------------------------------ *)
(** ** What holds of a scan *)

Section ScanDirSpec.
Variable disk : node.
Variable listLimit : Z.
Variable sizeThreshold : Z.
Variable budget : nat.

(** What a trace of scanDir looks like.  For the events that a call
    [scanDir(dir)] adds to the trace:
    - a directory is entered only if it is [dir] or was measured below
      the threshold;
    - an entry is pushed only for a child of an entered directory, with a
      size at or above the threshold;
    - a measured directory is pushed or entered, according to its size;
    - the directories between [dir] and an entered directory are entered. *)
Definition shape (dir : pathname) (tr : list event) : Prop :=
  (forall d, In (Enter d) tr ->
     d = dir \/
     (strictly_below dir d /\ In (Measure d) tr /\
      exists s, getFileSizeRecursive budget disk d = Val s /\ s < sizeThreshold))
  /\ (forall e, In (Emit e) tr ->
        exists d file, path e = join d file /\ below dir d /\ In (Enter d) tr /\
          sizeThreshold <= size e /\
          (isDirectory e = true ->
           getFileSizeRecursive budget disk (path e) = Val (size e)))
  /\ (forall p, In (Measure p) tr ->
        strictly_below dir p /\
        exists s, getFileSizeRecursive budget disk p = Val s /\
          (s < sizeThreshold -> In (Enter p) tr) /\
          (sizeThreshold <= s -> In (Emit (mkEntry p s true)) tr))
  /\ (forall d r, In (Enter d) tr -> below dir r -> below r d -> In (Enter r) tr).

(** What is assumed of the recursive call while the loop is examined. *)
Definition shaped (scanDirRec : pathname -> M scan_state unit) : Prop :=
  forall p s,
    match scanDirRec p s with
    | (Val _, s') => exists tr, s' = extend s tr /\ shape p tr /\ In (Enter p) tr
    | (Exn, _) => False
    | (OutOfFuel, _) => True
    end.

(** Nothing follows the push that brings the count to [listLimit]. *)
Definition stops_at_cap (tr : list event) : Prop :=
  forall pre e post,
    tr = pre ++ Emit e :: post ->
    listLimit <= Z.of_nat (length (emitted pre)) + 1 ->
    post = [].

(** No push has brought the count to [listLimit] yet. *)
Definition under_cap (tr : list event) : Prop :=
  forall pre e post,
    tr = pre ++ Emit e :: post ->
    Z.of_nat (length (emitted pre)) + 1 < listLimit.

(** The loop over the children of [root] may go on. *)
Definition open (root : pathname) (s : scan_state) : Prop :=
  results s = emitted (trace s)
  /\ under_cap (trace s)
  /\ Z.of_nat (length (results s)) < Z.max 1 listLimit
  /\ (forall e, In e (results s) -> exists file, path e = join root file).

(** The scan is over, or may be. *)
Definition done (root : pathname) (s : scan_state) : Prop :=
  results s = emitted (trace s)
  /\ stops_at_cap (trace s)
  /\ Z.of_nat (length (results s)) <= Z.max 1 listLimit
  /\ (forall e, In e (results s) -> exists file, path e = join root file).
End ScanDirSpec.

(* ------------------------------------------------------------------ *)
(** ** What a computation keeps true, and whether it comes back *)

(** [I] holds afterwards if it held before, whatever the outcome. *)
Definition preserves {S A : Type} (I : S -> Prop) (m : M S A) : Prop :=
  forall s, I s -> I (snd (m s)).

(** The recursion budget is not exhausted. *)
Definition finishes {S A : Type} (m : M S A) : Prop :=
  forall s, fst (m s) <> OutOfFuel.

(* ------------------------------------------------------------------ *)
(** ** What holds of a deletion and of a presentation *)

(** What lines 250-255 do for one selected path: the outcome and the disk
    they leave. *)
Definition removeOne (sofar : interruption) (disk : node) (file : pathname)
  : outcome unit * node :=
  match stat disk file with
  | Val stats =>
      if st_isDirectory stats then rm sofar disk file else unlink disk file
  | Exn => (Exn, disk)
  | OutOfFuel => (OutOfFuel, disk)
  end.

(** A removal that is never caught half-way. *)
Definition atOnce : interruption := fun _ _ => [].

(** The disk that these lines leave when they do not throw; whether they
    throw does not depend on the interruption. *)
Definition removePath (disk : node) (file : pathname) : outcome node :=
  match removeOne atOnce disk file with
  | (Val _, d) => Val d
  | (Exn, _) => Exn
  | (OutOfFuel, _) => OutOfFuel
  end.

(** The disk that they leave when they throw. *)
Definition afterFailure (sofar : interruption) (disk : node) (file : pathname)
  : node :=
  snd (removeOne sofar disk file).

(** Whether these lines throw for a path on a disk. *)
Definition throws (disk : node) (file : pathname) : bool :=
  match removePath disk file with
  | Val _ => false
  | _ => true
  end.

(** The selected paths for which they throw, in the order of the
    selection, each path tried on the disk that the paths in front of it
    have left. *)
Fixpoint failures (sofar : interruption) (disk : node) (files : list pathname)
  : list pathname :=
  match files with
  | [] => []
  | file :: rest =>
      match removePath disk file with
      | Val d => failures sofar d rest
      | _ => file :: failures sofar (afterFailure sofar disk file) rest
      end
  end.

(** The disk after the deletions that come of some tickings, one after the
    other. *)
Definition afterTickings (sofar : interruption) (disk : node)
    (turns : list ticking) : node :=
  fold_left
    (fun d t =>
       fsys (snd (deleteFiles sofar (agreed t) (picked t) (startWorld d))))
    turns disk.

(** Neither path is the other or an ancestor of it. *)
Definition unrelated (p q : pathname) : Prop := ~ below p q /\ ~ below q p.

Fixpoint belowb (p q : pathname) : bool :=
  match p, q with
  | [], _ => true
  | x :: p', y :: q' => String.eqb x y && belowb p' q'
  | _ :: _, [] => false
  end.

Definition absent (disk : node) (p : pathname) : bool :=
  match lookup disk p with
  | None => true
  | Some _ => false
  end.

(** The order the comparator of line 184 asks for. *)
Definition larger_first (a b : entry) : Prop := size b <= size a.

(* ------------------------------------------------------------------ *)
(** ** Example disks *)

Definition MiB : Z := 1024 * 1024.

(** [~/Documents]: the files of the scenarios of the specification, a
    dangling link and a directory that cannot be enumerated. *)
Definition documents : node :=
  Dir true true
    [ ("bigfile", File (2 * GB));
      ("cache", Dir true true [ ("a", File (GB / 2)); ("b", File GB) ]);
      ("dangling", Broken);
      ("locked", Dir false true [ ("secret", File (3 * GB)) ]);
      ("sub", Dir true true [ ("small1", File (10 * MiB));
                              ("small2", File (20 * MiB)) ]) ].

(** [~/Library/Caches] lists a dangling link before a large file. *)
Definition library : node :=
  Dir true true
    [ ("Caches", Dir true true [ ("abandoned", Broken); ("blob", File GB) ]);
      ("Logs", Dir true true [ ("old.log", File (GB / 2)) ]) ].

Definition example_disk : node :=
  Dir true true
    [ ("Library", Dir true true
                    [ ("Caches", Dir true true [ ("shared", File GB) ]) ]);
      ("Users", Dir true true
                  [ ("me", Dir true true
                             [ ("Documents", documents);
                               ("Library", library) ]) ]) ].

Definition example_home : pathname := ["Users"; "me"].

(** A directory that holds more bytes than the integers that doubles hold
    one by one. *)
Definition huge_disk : node :=
  Dir true true [ ("a", File (2 ^ 53)); ("b", File 1) ].

(** The selection of the deletion example: a file that is gone, a file
    and a directory. *)
Definition example_selection : list pathname :=
  [ ["Users"; "me"; "Documents"; "vanished"];
    ["Users"; "me"; "Documents"; "bigfile"];
    ["Users"; "me"; "Documents"; "cache"] ].

Definition example_entries : list entry :=
  [ mkEntry ["a"] (GB / 2) false; mkEntry ["b"] (2 * GB) true;
    mkEntry ["c"] GB false ].

(* ------------------------------------------------------------------ *)
(** ** What a scan is expected to return *)

(** What [readdir] lists, nothing when it throws. *)
Definition listing (disk : node) (dir : pathname) : list string :=
  match readdir disk dir with
  | Val files => files
  | _ => []
  end.

(** The entry that stands for one child of [dir]: the child can be
    statted and its own size (a file) or the size of what it holds (a
    directory) reaches the threshold. *)
Definition candidate (disk : node) (sizeThreshold : Z) (dir : pathname)
    (file : string) : option entry :=
  match stat disk (join dir file) with
  | Val stats =>
      let size := if st_isDirectory stats
                  then measuredAt disk (join dir file)
                  else st_size stats in
      if sizeThreshold <=? size
      then Some (mkEntry (join dir file) size (st_isDirectory stats))
      else None
  | _ => None
  end.

Definition candidates (disk : node) (sizeThreshold : Z) (dir : pathname)
    (files : list string) : list entry :=
  flat_map (fun file =>
              match candidate disk sizeThreshold dir file with
              | Some e => [e]
              | None => []
              end) files.

(** The names in front of the first one that cannot be statted. *)
Fixpoint untilFailure (disk : node) (dir : pathname) (files : list string)
  : list string :=
  match files with
  | [] => []
  | file :: rest =>
      match stat disk (join dir file) with
      | Val _ => file :: untilFailure disk dir rest
      | _ => []
      end
  end.

(** The computation only appends to the list it works on, and what it
    appends and returns does not depend on what the list holds. *)
Definition appends {A : Type} (m : M (list entry) A) : Prop :=
  forall s, m s = (fst (m []), s ++ snd (m [])).

(** The loop body never executes [return]. *)
Definition falls_through {S : Type} (m : M S control) : Prop :=
  forall s, fst (m s) <> Val Return.

(** The directories whose children scanCacheFiles examines: a root without
    star, or a root with the star replaced by a name that its base
    directory lists. *)
Definition cacheDirectory (disk : node) (home : pathname) (roots : list dirspec)
    (d : pathname) : Prop :=
  exists r, In r roots /\
    ((includesStar (expandHome home r) = false /\ d = expandHome home r)
     \/ (includesStar (expandHome home r) = true /\
         exists item,
           In item (listing disk (beforeStar (expandHome home r)))
           /\ d = beforeStar (expandHome home r) ++ [item]
                   ++ afterStar (expandHome home r))).

(** An entry says what the disk says about its path. *)
Definition faithful (disk : node) (budget : nat) (e : entry) : Prop :=
  exists stats,
    stat disk (path e) = Val stats
    /\ isDirectory e = st_isDirectory stats
    /\ (if isDirectory e
        then getFileSizeRecursive budget disk (path e) = Val (size e)
        else size e = st_size stats).

(** The cache directories of one root, in the order in which they are
    scanned: the root itself, or the root with its star replaced by each
    name that its base directory lists. *)
Definition cacheDirectoriesOf (disk : node) (home : pathname) (root : dirspec)
  : list pathname :=
  let expandedDir := expandHome home root in
  if includesStar expandedDir then
    map (fun item => beforeStar expandedDir ++ [item] ++ afterStar expandedDir)
      (listing disk (beforeStar expandedDir))
  else [expandedDir].

(** Every child of the cache directories of a root that reaches the
    threshold. *)
Definition allCandidates (disk : node) (home : pathname) (sizeThreshold : Z)
    (root : dirspec) : list entry :=
  flat_map (fun d => candidates disk sizeThreshold d (listing disk d))
    (cacheDirectoriesOf disk home root).

(** A cache directory that exists can be listed, and what it lists can be
    statted. *)
Definition scans_cleanly (disk : node) (d : pathname) : Prop :=
  (existsSync disk d = true -> readdir disk d <> Exn)
  /\ Forall (fun file => stat disk (join d file) <> Exn) (listing disk d).

Definition trouble_free (disk : node) (home : pathname) (root : dirspec) : Prop :=
  Forall (scans_cleanly disk) (cacheDirectoriesOf disk home root).

(** A disk with application caches: one application is a plain file, one
    has a cache that lists a dangling link between two files. *)
Definition example_apps_disk : node :=
  Dir true true
    [ ("Users", Dir true true
         [ ("me", Dir true true
              [ ("Library", Dir true true
                   [ ("Application Support", Dir true true
                        [ ("Alpha", Dir true true
                             [ ("Caches", Dir true true [ ("big", File GB) ]) ]);
                          ("Beta", File 7);
                          ("Delta", Dir true true
                             [ ("Caches", Dir true true
                                            [ ("early", File (2 * GB));
                                              ("gone", Broken);
                                              ("late", File GB) ]) ]);
                          ("Gamma", Dir true true
                             [ ("Caches", Dir true true [ ("never", File GB) ]) ])
                        ]) ]) ]) ]) ].

(** An operator who scans [~/Documents], ticks every box and confirms (or
    not), and then leaves. *)
Definition tick_all (shown : presentation) : list pathname :=
  map value (choices shown).

(** An operator who ticks one path, if it is shown. *)
Definition tick_only (wanted : pathname) (shown : presentation) : list pathname :=
  filter (fun p => if list_eq_dec string_dec wanted p then true else false)
    (map value (choices shown)).

Definition example_script (confirm : bool) : list answers :=
  [ mkAnswers SCAN_LARGE_FILES (HomeRel ["Documents"]) tick_all confirm;
    mkAnswers EXIT (HomeRel []) tick_all confirm ].

(* ------------------------------------------------------------------ *)
(** * Properties *)

(** ** The disk *)

Lemma node_induction (P : node -> Prop) :
  (forall s, P (File s)) ->
  P Broken ->
  (forall r w es, Forall (fun xc => P (snd xc)) es -> P (Dir r w es)) ->
  forall n, P n.
Proof.
  intros HF HB HD.
  fix IH 1.
  intros [s | r w es | ].
  - apply HF.
  - apply HD.
    induction es as [| [x c] es IHes]; constructor.
    + simpl. apply IH.
    + exact IHes.
  - apply HB.
Qed.

Lemma assoc_In (V : Type) (x : string) (es : list (string * V)) (v : V) :
  assoc x es = Some v -> In (x, v) es.
Proof.
  induction es as [| [y c] es IH]; simpl; [discriminate |].
  destruct (String.eqb_spec x y) as [-> | Hne].
  - intros [= ->]. now left.
  - intros H. right. auto.
Qed.

Lemma assoc_listed (V : Type) (x : string) (es : list (string * V)) :
  In x (map fst es) -> exists v, assoc x es = Some v.
Proof.
  induction es as [| [y c] es IH]; simpl; [tauto |].
  intros [-> | Hin].
  - rewrite String.eqb_refl. eauto.
  - destruct (String.eqb x y); eauto.
Qed.

Lemma assoc_not_listed (V : Type) (x : string) (es : list (string * V)) :
  ~ In x (map fst es) -> assoc x es = None.
Proof.
  induction es as [| [y c] es IH]; simpl; [reflexivity |].
  intros Hn. destruct (String.eqb_spec x y) as [-> | Hne]; [tauto |].
  apply IH. tauto.
Qed.

Lemma distinct_NoDup (xs : list string) : distinct xs = true -> NoDup xs.
Proof.
  induction xs as [| x xs IH]; simpl; [constructor |].
  rewrite andb_true_iff, negb_true_iff. intros [Hx Hd].
  constructor; [| auto].
  intros Hin.
  assert (existsb (String.eqb x) xs = true) as E.
  { apply existsb_exists. exists x. split; [assumption | apply String.eqb_refl]. }
  congruence.
Qed.

Lemma assoc_distinct (V : Type) (x : string) (v : V) (es : list (string * V)) :
  NoDup (map fst es) -> In (x, v) es -> assoc x es = Some v.
Proof.
  induction es as [| [y c] es IH]; simpl; [tauto |].
  intros Hnd [[= -> ->] | Hin].
  - now rewrite String.eqb_refl.
  - inversion Hnd as [| ? ? Hy Hnd']; subst.
    destruct (String.eqb_spec x y) as [-> | Hne].
    + exfalso. apply Hy. change y with (fst (y, v)). now apply in_map.
    + auto.
Qed.

Lemma lookup_app (n : node) (p q : pathname) :
  lookup n (p ++ q) =
  match lookup n p with
  | Some m => lookup m q
  | None => None
  end.
Proof.
  revert n. induction p as [| x p IH]; intros n; simpl; [reflexivity |].
  destruct n as [s | r w es |]; try reflexivity.
  destruct (assoc x es); [apply IH | reflexivity].
Qed.

Lemma lookup_join (n : node) (p : pathname) (x : string) :
  lookup n (join p x) =
  match lookup n p with
  | Some (Dir _ _ es) => assoc x es
  | _ => None
  end.
Proof.
  unfold join. rewrite lookup_app.
  destruct (lookup n p) as [[s | r w es |] |]; simpl; try reflexivity.
  destruct (assoc x es); reflexivity.
Qed.

Lemma height_entry (r w : bool) (es : list (string * node)) (x : string) (c : node) :
  In (x, c) es -> (height c < height (Dir r w es))%nat.
Proof.
  intros Hin.
  assert (list_max (map (fun xc => S (height (snd xc))) es) <= height (Dir r w es))%nat
    as Hle by (simpl; lia).
  rewrite list_max_le, Forall_forall in Hle.
  apply (Hle (S (height c))).
  change (S (height c)) with ((fun xc : string * node => S (height (snd xc))) (x, c)).
  now apply in_map.
Qed.

Lemma height_lookup (n m : node) (p : pathname) :
  lookup n p = Some m -> (height m <= height n)%nat.
Proof.
  revert n. induction p as [| x p IH]; intros n; simpl.
  - intros [= ->]. lia.
  - destruct n as [s | r w es |]; try discriminate.
    destruct (assoc x es) as [c |] eqn:E; [| discriminate].
    intros H. apply IH in H. apply assoc_In in E.
    apply (height_entry r w) in E. lia.
Qed.

Lemma names_distinct_entry (r w : bool) (es : list (string * node)) (x : string) (c : node) :
  names_distinct (Dir r w es) = true -> In (x, c) es -> names_distinct c = true.
Proof.
  simpl. rewrite andb_true_iff. intros [_ H] Hin.
  rewrite forallb_forall in H. apply (H (x, c) Hin).
Qed.

Lemma sizes_nonneg_entry (r w : bool) (es : list (string * node)) (x : string) (c : node) :
  sizes_nonneg (Dir r w es) = true -> In (x, c) es -> sizes_nonneg c = true.
Proof.
  simpl. intros H Hin.
  rewrite forallb_forall in H. apply (H (x, c) Hin).
Qed.

Lemma names_distinct_lookup (n m : node) (p : pathname) :
  names_distinct n = true -> lookup n p = Some m -> names_distinct m = true.
Proof.
  revert n. induction p as [| x p IH]; intros n Hn; simpl.
  - now intros [= <-].
  - destruct n as [s | r w es |]; try discriminate.
    destruct (assoc x es) as [c |] eqn:E; [| discriminate].
    apply IH. eapply names_distinct_entry; eauto using assoc_In.
Qed.

Lemma sizes_nonneg_lookup (n m : node) (p : pathname) :
  sizes_nonneg n = true -> lookup n p = Some m -> sizes_nonneg m = true.
Proof.
  revert n. induction p as [| x p IH]; intros n Hn; simpl.
  - now intros [= <-].
  - destruct n as [s | r w es |]; try discriminate.
    destruct (assoc x es) as [c |] eqn:E; [| discriminate].
    apply IH. eapply sizes_nonneg_entry; eauto using assoc_In.
Qed.

(** ** Numbers *)

(** The parts of a number above 2^53. *)
Lemma binade (a : Z) :
  2 ^ 53 < a ->
  let u := 2 ^ (Z.log2 a - 52) in
  2 <= u /\ 2 ^ 52 * u <= a < 2 ^ 53 * u /\ 2 ^ 52 * u = 2 ^ Z.log2 a.
Proof.
  intros Ha u.
  assert (53 <= Z.log2 a) as Hlog.
  { apply Z.log2_le_pow2; lia. }
  destruct (Z.log2_spec a) as [Hlo Hhi]; [lia |].
  assert (2 ^ 52 * u = 2 ^ Z.log2 a) as E1.
  { unfold u. rewrite <- Z.pow_add_r by lia. f_equal. lia. }
  assert (2 ^ 53 * u = 2 ^ Z.succ (Z.log2 a)) as E2.
  { unfold u. rewrite <- Z.pow_add_r by lia. f_equal. lia. }
  split; [| split; [lia | exact E1]].
  unfold u. change 2 with (2 ^ 1) at 1. apply Z.pow_le_mono_r; lia.
Qed.

Lemma roundToDouble_exact (z : Z) : Z.abs z <= 2 ^ 53 -> roundToDouble z = z.
Proof. intros H. unfold roundToDouble. apply Z.leb_le in H. now rewrite H. Qed.

(** Above 2^53: a multiple [m * u] of the unit of its binade within half a unit. *)
Lemma roundToDouble_above (a : Z) :
  2 ^ 53 < a ->
  let u := 2 ^ (Z.log2 a - 52) in
  exists m,
    roundToDouble a = m * u
    /\ (m = a / u \/ m = a / u + 1)
    /\ 2 ^ 52 <= m <= 2 ^ 53
    /\ 2 * Z.abs (roundToDouble a - a) <= u.
Proof.
  intros Ha u. destruct (binade a Ha) as (Hu & [Hlo Hhi] & _). fold u in Hu, Hlo, Hhi.
  unfold roundToDouble. rewrite Z.abs_eq by lia.
  destruct (Z.leb_spec a (2 ^ 53)); [lia |]. fold u. cbv zeta.
  rewrite Z.sgn_pos by lia.
  pose proof (Z.div_mod a u ltac:(lia)) as Hdm.
  pose proof (Z.mod_pos_bound a u ltac:(lia)) as Hm.
  assert (2 ^ 52 <= a / u) by (apply Z.div_le_lower_bound; lia).
  assert (a / u < 2 ^ 53) by (apply Z.div_lt_upper_bound; lia).
  set (q := a / u) in *. set (r := a mod u) in *.
  destruct (Z.ltb_spec (2 * r) u).
  - exists q. split; [lia |]. split; [now left |]. split; [lia |]. nia.
  - destruct (Z.ltb_spec u (2 * r)).
    + exists (q + 1). split; [lia |]. split; [now right |]. split; [lia |]. nia.
    + destruct (Z.even q).
      * exists q. split; [lia |]. split; [now left |]. split; [lia |]. nia.
      * exists (q + 1). split; [lia |]. split; [now right |]. split; [lia |]. nia.
Qed.

Lemma roundToDouble_nonneg (z : Z) : 0 <= z -> 0 <= roundToDouble z.
Proof.
  intros Hz. destruct (Z.le_gt_cases z (2 ^ 53)) as [H | H].
  - rewrite roundToDouble_exact; [assumption | rewrite Z.abs_eq; lia].
  - destruct (roundToDouble_above z ltac:(lia)) as (m & -> & _ & Hm & _).
    destruct (binade z ltac:(lia)) as (Hu & _). nia.
Qed.

(** A number with a mantissa of 53 bits is a double. *)
Lemma roundToDouble_representable (m e : Z) :
  2 ^ 52 <= m < 2 ^ 53 -> 1 <= e -> roundToDouble (m * 2 ^ e) = m * 2 ^ e.
Proof.
  intros Hm He.
  assert (2 <= 2 ^ e) as Hu.
  { change 2 with (2 ^ 1) at 1. apply Z.pow_le_mono_r; lia. }
  assert (Z.log2 (m * 2 ^ e) = 52 + e) as Hlog.
  { apply Z.log2_unique; [lia |].
    replace (Z.succ (52 + e)) with (53 + e) by lia.
    rewrite !Z.pow_add_r by lia. nia. }
  unfold roundToDouble. rewrite Z.abs_eq by nia.
  destruct (Z.leb_spec (m * 2 ^ e) (2 ^ 53)); [reflexivity |].
  cbv zeta. rewrite Hlog. replace (52 + e - 52) with e by lia.
  rewrite Z.div_mul, Z.mod_mul by lia.
  destruct (Z.ltb_spec (2 * 0) (2 ^ e)); [| lia].
  rewrite Z.sgn_pos by nia. lia.
Qed.

Lemma roundToDouble_idempotent (z : Z) :
  0 <= z -> roundToDouble (roundToDouble z) = roundToDouble z.
Proof.
  intros Hz. destruct (Z.le_gt_cases z (2 ^ 53)) as [H | H].
  - rewrite !(roundToDouble_exact z) by (rewrite Z.abs_eq; lia). reflexivity.
  - destruct (roundToDouble_above z ltac:(lia)) as (m & -> & _ & Hm & _).
    assert (53 <= Z.log2 z) as Hlog by (apply Z.log2_le_pow2; lia).
    destruct (Z.eq_dec m (2 ^ 53)) as [-> | Hne].
    + replace (2 ^ 53 * 2 ^ (Z.log2 z - 52)) with (2 ^ 52 * 2 ^ (Z.log2 z - 51)).
      * apply roundToDouble_representable; lia.
      * replace (Z.log2 z - 51) with (1 + (Z.log2 z - 52)) by lia.
        rewrite Z.pow_add_r by lia. lia.
    + apply roundToDouble_representable; lia.
Qed.

Lemma roundToDouble_monotone (x y : Z) :
  0 <= x <= y -> roundToDouble x <= roundToDouble y.
Proof.
  intros [Hx Hxy].
  destruct (Z.le_gt_cases y (2 ^ 53)) as [Hy | Hy].
  - rewrite !roundToDouble_exact; rewrite ?Z.abs_eq; lia.
  - destruct (roundToDouble_above y ltac:(lia)) as (my & Ey & Hqy & Hmy & _).
    destruct (binade y ltac:(lia)) as (Huy & [Hloy Hhiy] & Epy).
    destruct (Z.le_gt_cases x (2 ^ 53)) as [Hx53 | Hx53].
    + rewrite (roundToDouble_exact x) by (rewrite Z.abs_eq; lia).
      rewrite Ey. nia.
    + destruct (roundToDouble_above x ltac:(lia)) as (mx & Ex & Hqx & Hmx & _).
      destruct (binade x ltac:(lia)) as (Hux & [Hlox Hhix] & Epx).
      pose proof (Z.log2_le_mono x y Hxy) as Hlog.
      destruct (Z.eq_dec (Z.log2 x) (Z.log2 y)) as [El | Nl].
      * (* same binade *)
        rewrite El in *. set (u := 2 ^ (Z.log2 y - 52)) in *.
        assert (x / u <= y / u) as Hq by (apply Z.div_le_mono; lia).
        destruct (Z.eq_dec (x / u) (y / u)) as [Eq | Nq].
        -- clear Ex Ey Hqx Hqy Hmx Hmy mx my.
           unfold roundToDouble. rewrite !Z.abs_eq by lia.
           destruct (Z.leb_spec x (2 ^ 53)); [lia |].
           destruct (Z.leb_spec y (2 ^ 53)); [lia |].
           cbv zeta. rewrite El. fold u. rewrite Eq.
           rewrite !Z.sgn_pos by lia.
           pose proof (Z.div_mod x u ltac:(lia)) as Hdx.
           pose proof (Z.div_mod y u ltac:(lia)) as Hdy.
           rewrite Eq in Hdx.
           assert (x mod u <= y mod u) as Hr by lia.
           set (q := y / u) in *. set (rx := x mod u) in *. set (ry := y mod u) in *.
           destruct (Z.ltb_spec (2 * rx) u); destruct (Z.ltb_spec (2 * ry) u);
             destruct (Z.ltb_spec u (2 * rx)); destruct (Z.ltb_spec u (2 * ry));
             destruct (Z.even q); try lia; nia.
        -- rewrite Ex, Ey.
           assert (mx <= x / u + 1) by lia. assert (y / u <= my) by lia. nia.
      * (* a lower binade *)
        assert (Z.log2 x + 1 <= Z.log2 y) as Hlt by lia.
        assert (2 ^ 53 * 2 ^ (Z.log2 x - 52) <= 2 ^ 52 * 2 ^ (Z.log2 y - 52)) as Hb.
        { rewrite Epy.
          replace (2 ^ 53 * 2 ^ (Z.log2 x - 52)) with (2 ^ (Z.log2 x + 1)).
          - apply Z.pow_le_mono_r; lia.
          - replace (Z.log2 x + 1) with (53 + (Z.log2 x - 52)) by lia.
            assert (53 <= Z.log2 x) by (apply Z.log2_le_pow2; lia).
            rewrite Z.pow_add_r by lia. reflexivity. }
        rewrite Ex, Ey. nia.
Qed.

Lemma roundToDouble_opp (z : Z) : roundToDouble (- z) = - roundToDouble z.
Proof.
  unfold roundToDouble. rewrite Z.abs_opp, Z.sgn_opp.
  destruct (Z.abs z <=? 2 ^ 53); [reflexivity |].
  cbv zeta. apply Z.mul_opp_l.
Qed.

(** Rounding keeps the sign, which is all that the comparator of a sort
    is asked for. *)
Lemma roundToDouble_sign (z : Z) : (roundToDouble z <=? 0) = (z <=? 0).
Proof.
  destruct (Z.le_gt_cases (Z.abs z) (2 ^ 53)) as [H | H].
  - now rewrite roundToDouble_exact.
  - destruct (Z.le_gt_cases 0 z) as [Hz | Hz].
    + rewrite Z.abs_eq in H by assumption.
      destruct (roundToDouble_above z H) as (m & -> & _ & Hm & _).
      destruct (binade z H) as (Hu & _).
      destruct (Z.leb_spec (m * 2 ^ (Z.log2 z - 52)) 0);
        destruct (Z.leb_spec z 0); try reflexivity; nia.
    + rewrite Z.abs_neq in H by lia.
      rewrite <- (Z.opp_involutive z) at 1. rewrite roundToDouble_opp.
      destruct (roundToDouble_above (- z) H) as (m & -> & _ & Hm & _).
      destruct (binade (- z) H) as (Hu & _).
      destruct (Z.leb_spec (- (m * 2 ^ (Z.log2 (- z) - 52))) 0);
        destruct (Z.leb_spec z 0); try reflexivity; nia.
Qed.

Lemma isDouble_round (z : Z) : 0 <= z -> isDouble (roundToDouble z).
Proof. apply roundToDouble_idempotent. Qed.

(** Adding a number that is not negative to one that is not negative
    either gives a number that is at least as large as both. *)
Lemma jsAdd_grows (a b : Z) :
  0 <= a -> 0 <= b -> isDouble a -> isDouble b ->
  a <= jsAdd a b /\ b <= jsAdd a b /\ isDouble (jsAdd a b).
Proof.
  intros Ha Hb Da Db. unfold jsAdd, isDouble in *.
  split; [| split].
  - rewrite <- Da at 1. apply roundToDouble_monotone. lia.
  - rewrite <- Db at 1. apply roundToDouble_monotone. lia.
  - apply roundToDouble_idempotent. lia.
Qed.

Lemma jsAdd_exact (a b : Z) :
  0 <= a -> 0 <= b -> a + b <= exactUpTo -> jsAdd a b = a + b.
Proof.
  intros Ha Hb Hsum. apply roundToDouble_exact. rewrite Z.abs_eq; [exact Hsum | lia].
Qed.

(** [sizes.reduce((acc, size) => acc + size, acc)] over numbers that are
    not negative. *)
Lemma reduce_grows (sizes : list Z) (acc : Z) :
  0 <= acc -> isDouble acc ->
  Forall (fun size => 0 <= size /\ isDouble size) sizes ->
  acc <= fold_left (fun acc size => jsAdd acc size) sizes acc
  /\ isDouble (fold_left (fun acc size => jsAdd acc size) sizes acc)
  /\ Forall (fun size => size <= fold_left (fun acc size => jsAdd acc size) sizes acc)
       sizes.
Proof.
  intros Hacc Dacc Hall. revert acc Hacc Dacc.
  induction Hall as [| s sizes [Hs Ds] Hall IH]; intros acc Hacc Dacc; simpl.
  - split; [lia |]. split; [assumption | constructor].
  - destruct (jsAdd_grows acc s Hacc Hs Dacc Ds) as (H1 & H2 & H3).
    destruct (IH (jsAdd acc s)) as (I1 & I2 & I3); [lia | assumption |].
    split; [lia |]. split; [assumption |].
    constructor; [lia | assumption].
Qed.

(** ** Sizes *)

Lemma sumZ_app (l1 l2 : list Z) : sumZ (l1 ++ l2) = sumZ l1 + sumZ l2.
Proof. unfold sumZ. induction l1; simpl; lia. Qed.

Lemma treeSize_Dir (w : bool) (es : list (string * node)) :
  treeSize (Dir true w es) = sumZ (map (fun xc => treeSize (snd xc)) es).
Proof.
  unfold treeSize. simpl.
  induction es as [| [x c] es IH]; simpl; [reflexivity |].
  rewrite map_app, sumZ_app, IH, map_map. simpl.
  unfold sumZ at 3. simpl. reflexivity.
Qed.

Lemma treeSize_nonneg (n : node) : sizes_nonneg n = true -> 0 <= treeSize n.
Proof.
  induction n as [s | | r w es IH] using node_induction; intros Hn.
  - unfold treeSize, sumZ. simpl in *. lia.
  - unfold treeSize, sumZ. simpl. lia.
  - destruct r; [| unfold treeSize, sumZ; simpl; lia].
    rewrite treeSize_Dir. simpl in Hn. rewrite forallb_forall in Hn.
    induction es as [| [x c] es IHes]; [unfold sumZ; simpl; lia |].
    inversion IH as [| ? ? Hc Hes]; subst. simpl in *.
    assert (0 <= treeSize c) by (apply Hc, (Hn (x, c)); now left).
    assert (0 <= sumZ (map (fun xc => treeSize (snd xc)) es)).
    { apply IHes; [assumption |]. intros y Hy. apply Hn. now right. }
    unfold sumZ in *. simpl. lia.
Qed.

Lemma treeSize_entry_le (w : bool) (es : list (string * node)) (x : string) (c : node) :
  sizes_nonneg (Dir true w es) = true -> In (x, c) es ->
  treeSize c <= treeSize (Dir true w es).
Proof.
  intros Hn Hin. rewrite treeSize_Dir.
  simpl in Hn. rewrite forallb_forall in Hn.
  induction es as [| [y d] es IH]; [contradiction |].
  simpl. unfold sumZ. simpl. fold (sumZ (map (fun xc => treeSize (snd xc)) es)).
  assert (0 <= sumZ (map (fun xc => treeSize (snd xc)) es)).
  { rewrite <- (treeSize_Dir w). apply treeSize_nonneg. simpl.
    apply forallb_forall. intros z Hz. apply Hn. now right. }
  assert (0 <= treeSize d) by (apply treeSize_nonneg, (Hn (y, d)); now left).
  destruct Hin as [[= -> ->] | Hin]; [lia |].
  assert (treeSize c <= sumZ (map (fun xc => treeSize (snd xc)) es)).
  { apply IH; [| assumption]. intros z Hz. apply Hn. now right. }
  lia.
Qed.

(** Within the integers that doubles hold, the program's sum is the sum. *)
Lemma reduce_exact (sizes : list Z) (acc : Z) :
  0 <= acc ->
  Forall (fun size => 0 <= size) sizes ->
  acc + sumZ sizes <= exactUpTo ->
  fold_left (fun acc size => jsAdd acc size) sizes acc = acc + sumZ sizes.
Proof.
  intros Hacc Hall. revert acc Hacc.
  induction Hall as [| s sizes Hs Hall IH]; intros acc Hacc; simpl.
  - unfold sumZ. simpl. lia.
  - unfold sumZ. simpl. fold (sumZ sizes). intros Hsum.
    assert (0 <= sumZ sizes) as Hrest.
    { clear - Hall. induction Hall; unfold sumZ in *; simpl; lia. }
    rewrite jsAdd_exact by lia.
    rewrite IH by lia. lia.
Qed.

Lemma measured_Dir (w : bool) (es : list (string * node)) :
  measured (Dir true w es)
  = fold_left (fun acc size => jsAdd acc size)
      (map (fun xc => measured (snd xc)) es) 0.
Proof. reflexivity. Qed.

(** What is measured is a number that is not negative. *)
Lemma measured_number (n : node) :
  sizes_nonneg n = true -> 0 <= measured n /\ isDouble (measured n).
Proof.
  induction n as [s | | r w es IH] using node_induction; intros Hn.
  - simpl in *. apply Z.leb_le in Hn.
    split; [now apply roundToDouble_nonneg | now apply isDouble_round].
  - simpl. split; [lia | reflexivity].
  - destruct r; [| simpl; split; [lia | reflexivity]].
    rewrite measured_Dir.
    assert (Forall (fun size => 0 <= size /\ isDouble size)
              (map (fun xc => measured (snd xc)) es)) as Hall.
    { apply Forall_map. simpl in Hn. rewrite forallb_forall in Hn.
      rewrite Forall_forall in IH |- *. intros xc Hin. apply IH; auto. }
    destruct (reduce_grows _ 0 (Z.le_refl 0) eq_refl Hall) as (H1 & H2 & _).
    split; assumption.
Qed.

Lemma measured_nonneg (n : node) : sizes_nonneg n = true -> 0 <= measured n.
Proof. intros Hn. now apply measured_number. Qed.

(** No entry of a directory measures more than the directory. *)
Lemma measured_entry_le (w : bool) (es : list (string * node)) (x : string) (c : node) :
  sizes_nonneg (Dir true w es) = true -> In (x, c) es ->
  measured c <= measured (Dir true w es).
Proof.
  intros Hn Hin. rewrite measured_Dir.
  assert (Forall (fun size => 0 <= size /\ isDouble size)
            (map (fun xc => measured (snd xc)) es)) as Hall.
  { apply Forall_map. simpl in Hn. rewrite forallb_forall in Hn.
    apply Forall_forall. intros xc Hxc. apply measured_number. auto. }
  destruct (reduce_grows _ 0 (Z.le_refl 0) eq_refl Hall) as (_ & _ & H).
  rewrite Forall_forall in H. apply H.
  change (measured c) with ((fun xc : string * node => measured (snd xc)) (x, c)).
  now apply in_map.
Qed.

(** Up to 2^53 bytes, what is measured is the sum of the sizes. *)
Lemma measured_exact (n : node) :
  sizes_nonneg n = true -> treeSize n <= exactUpTo -> measured n = treeSize n.
Proof.
  induction n as [s | | r w es IH] using node_induction; intros Hn Hb.
  - simpl in Hn. apply Z.leb_le in Hn.
    unfold treeSize, sumZ in *. simpl in *.
    rewrite roundToDouble_exact; [lia | rewrite Z.abs_eq; unfold exactUpTo in Hb; lia].
  - reflexivity.
  - destruct r; [| reflexivity].
    rewrite measured_Dir, treeSize_Dir. rewrite treeSize_Dir in Hb.
    assert (forall xc, In xc es -> 0 <= treeSize (snd xc)) as Hpos.
    { intros [x c] Hin. apply treeSize_nonneg.
      now apply (sizes_nonneg_entry true w es x). }
    assert (map (fun xc => measured (snd xc)) es
            = map (fun xc => treeSize (snd xc)) es) as ->.
    { apply map_ext_in. intros [x c] Hin. simpl.
      rewrite Forall_forall in IH. apply (IH (x, c) Hin).
      - now apply (sizes_nonneg_entry true w es x).
      - pose proof (treeSize_entry_le w es x c Hn Hin) as Hle.
        rewrite treeSize_Dir in Hle. simpl. lia. }
    rewrite reduce_exact; [lia | lia | | lia].
    apply Forall_map, Forall_forall. exact Hpos.
Qed.

(** ** getFileSizeRecursive *)

Lemma promiseAllMap_map (A B C : Type) (f : A -> outcome B) (g : C -> B)
    (k : C -> A) (xs : list C) :
  (forall x, In x xs -> f (k x) = Val (g x)) ->
  promiseAllMap f (map k xs) = Val (map g xs).
Proof.
  induction xs as [| x xs IH]; intros H; simpl; [reflexivity |].
  rewrite (H x) by now left. simpl.
  rewrite IH by (intros y Hy; apply H; now right).
  reflexivity.
Qed.

Lemma getFileSizeRecursive_unfold (fuel : nat) (disk : node) (p : pathname) :
  getFileSizeRecursive (S fuel) disk p =
  match lookup disk p with
  | Some (File s) => Val (roundToDouble s)
  | Some (Dir true _ es) =>
      try_catch
        (obind
           (promiseAllMap
              (fun file =>
                 try_catch (getFileSizeRecursive fuel disk (join p file)) (Val 0))
              (map fst es))
           (fun sizes => Val (fold_left (fun acc size => jsAdd acc size) sizes 0)))
        (Val 0)
  | _ => Val 0
  end.
Proof.
  simpl. unfold stat, readdir.
  destruct (lookup disk p) as [[s | [|] w es |] |]; reflexivity.
Qed.

Lemma getFileSizeRecursive_no_exception (fuel : nat) (disk : node) (p : pathname) :
  getFileSizeRecursive fuel disk p <> Exn.
Proof.
  destruct fuel as [| fuel]; [discriminate |].
  rewrite getFileSizeRecursive_unfold.
  destruct (lookup disk p) as [[s | [|] w es |] |]; try discriminate.
  destruct (promiseAllMap _ _); discriminate.
Qed.

(** With a budget above the height of the node at [p], the call returns
    the size of that node. *)
Lemma getFileSizeRecursive_at (fuel : nat) (disk : node) (p : pathname) (n : node) :
  names_distinct n = true ->
  lookup disk p = Some n ->
  (height n < fuel)%nat ->
  getFileSizeRecursive fuel disk p = Val (measured n).
Proof.
  revert p n. induction fuel as [| fuel IH]; intros p n Hd Hl Hh; [lia |].
  rewrite getFileSizeRecursive_unfold, Hl.
  destruct n as [s | [|] w es |]; try reflexivity.
  rewrite promiseAllMap_map with (g := fun xc => measured (snd xc)).
    + reflexivity.
    + intros [x c] Hin. simpl.
      assert (assoc x es = Some c) as Ha.
      { apply assoc_distinct; [| assumption].
        simpl in Hd. apply andb_true_iff in Hd. now apply distinct_NoDup. }
      rewrite (IH (join p x) c); [reflexivity | | |].
      * eapply names_distinct_entry; eauto.
      * rewrite lookup_join, Hl. exact Ha.
      * apply (height_entry true w) in Hin. lia.
Qed.

Lemma getFileSizeRecursive_unresolved (fuel : nat) (disk : node) (p : pathname) :
  lookup disk p = None -> getFileSizeRecursive (S fuel) disk p = Val 0.
Proof. intros H. now rewrite getFileSizeRecursive_unfold, H. Qed.

Lemma getFileSizeRecursive_spec (fuel : nat) (disk : node) (p : pathname) :
  names_distinct disk = true ->
  (height disk < fuel)%nat ->
  getFileSizeRecursive fuel disk p = Val (measuredAt disk p).
Proof.
  intros Hd Hh. unfold measuredAt.
  destruct (lookup disk p) as [n |] eqn:Hl.
  - apply getFileSizeRecursive_at; [| assumption |].
    + eapply names_distinct_lookup; eauto.
    + apply height_lookup in Hl. lia.
  - destruct fuel; [lia |]. now apply getFileSizeRecursive_unresolved.
Qed.

Lemma measuredAt_nonneg (disk : node) (p : pathname) :
  sizes_nonneg disk = true -> 0 <= measuredAt disk p.
Proof.
  intros Hn. unfold measuredAt.
  destruct (lookup disk p) as [n |] eqn:Hl; [| lia].
  apply measured_nonneg. eapply sizes_nonneg_lookup; eauto.
Qed.

(** What is measured for a directory that can be enumerated is the sum,
    in the program's arithmetic, of what is measured for each name it
    lists. *)
Lemma measuredAt_children (disk : node) (p : pathname) (w : bool)
    (es : list (string * node)) :
  names_distinct disk = true ->
  lookup disk p = Some (Dir true w es) ->
  measuredAt disk p =
  fold_left (fun acc size => jsAdd acc size)
    (map (fun file => measuredAt disk (join p file)) (map fst es)) 0.
Proof.
  intros Hd Hl. unfold measuredAt at 1. rewrite Hl, measured_Dir, map_map.
  f_equal. apply map_ext_in. intros [x c] Hin. simpl.
  unfold measuredAt. rewrite lookup_join, Hl.
  apply (names_distinct_lookup _ _ _ Hd) in Hl.
  simpl in Hl. apply andb_true_iff in Hl. destruct Hl as [Hl _].
  now rewrite (assoc_distinct _ _ _ _ (distinct_NoDup _ Hl) Hin).
Qed.

Lemma promiseAllMap_total (A B : Type) (f : A -> outcome B) (xs : list A) :
  (forall x, In x xs -> exists y, f x = Val y) ->
  exists ys, promiseAllMap f xs = Val ys.
Proof.
  induction xs as [| x xs IH]; intros H; simpl; [eauto |].
  destruct (H x) as [y Hy]; [now left |].
  destruct IH as [ys Hys]; [intros z Hz; apply H; now right |].
  rewrite Hy, Hys. simpl. eauto.
Qed.

Lemma promiseAllMap_inv (A B : Type) (f : A -> outcome B) (xs : list A) (ys : list B) :
  promiseAllMap f xs = Val ys -> Forall2 (fun x y => f x = Val y) xs ys.
Proof.
  revert ys. induction xs as [| x xs IH]; intros ys; simpl.
  - intros [= <-]. constructor.
  - destruct (f x) as [y | |] eqn:Hx; simpl; try discriminate.
    destruct (promiseAllMap f xs) as [ys' | |]; simpl; try discriminate.
    intros [= <-]. constructor; auto.
Qed.

Lemma promiseAllMap_no_exception (A B : Type) (f : A -> outcome B) (xs : list A) :
  (forall x, f x <> Exn) -> promiseAllMap f xs <> Exn.
Proof.
  intros Hf. induction xs as [| x xs IH]; simpl; [discriminate |].
  specialize (Hf x). destruct (f x); simpl; try congruence.
  destruct (promiseAllMap f xs); simpl; congruence.
Qed.

Lemma children_no_exception (fuel : nat) (disk : node) (p : pathname) (xs : list string) :
  promiseAllMap
    (fun file => try_catch (getFileSizeRecursive fuel disk (join p file)) (Val 0)) xs
  <> Exn.
Proof.
  apply promiseAllMap_no_exception. intros x.
  destruct (getFileSizeRecursive fuel disk (join p x)); discriminate.
Qed.

(** Any disk, names distinct or not: a budget above the height suffices. *)
Lemma getFileSizeRecursive_terminates_at (fuel : nat) (disk : node) (p : pathname) :
  match lookup disk p with
  | Some n => (height n < fuel)%nat
  | None => (0 < fuel)%nat
  end ->
  exists s, getFileSizeRecursive fuel disk p = Val s.
Proof.
  revert p. induction fuel as [| fuel IH]; intros p Hh.
  - destruct (lookup disk p); lia.
  - rewrite getFileSizeRecursive_unfold.
    destruct (lookup disk p) as [[s | [|] w es |] |] eqn:Hl; eauto.
    destruct (promiseAllMap_total _ _
                (fun file =>
                   try_catch (getFileSizeRecursive fuel disk (join p file)) (Val 0))
                (map fst es)) as [sizes Hsizes].
    + intros x Hx.
      destruct (assoc_listed _ x es Hx) as [c Hc].
      destruct (IH (join p x)) as [s Hs].
      * rewrite lookup_join, Hl, Hc.
        apply assoc_In, (height_entry true w) in Hc. lia.
      * rewrite Hs. simpl. eauto.
    + rewrite Hsizes. simpl. eauto.
Qed.

Lemma getFileSizeRecursive_terminates (fuel : nat) (disk : node) (p : pathname) :
  (height disk < fuel)%nat -> exists s, getFileSizeRecursive fuel disk p = Val s.
Proof.
  intros Hh. apply getFileSizeRecursive_terminates_at.
  destruct (lookup disk p) as [n |] eqn:Hl; [| lia].
  apply height_lookup in Hl. lia.
Qed.

(** Whatever the budget, a value that is returned is the specified one. *)
Lemma getFileSizeRecursive_sound (fuel : nat) (disk : node) (p : pathname) (s : Z) :
  names_distinct disk = true ->
  getFileSizeRecursive fuel disk p = Val s ->
  s = measuredAt disk p.
Proof.
  intros Hd. revert p s. induction fuel as [| fuel IH]; intros p s; [discriminate |].
  rewrite getFileSizeRecursive_unfold. unfold measuredAt at 1.
  destruct (lookup disk p) as [[z | [|] w es |] |] eqn:Hl.
  - intros [= <-]. reflexivity.
  - destruct (promiseAllMap _ _) as [sizes | |] eqn:Hall; simpl; try discriminate;
      [| now apply children_no_exception in Hall].
    intros [= <-]. f_equal.
    apply promiseAllMap_inv in Hall.
    pose proof (names_distinct_lookup _ _ _ Hd Hl) as Hdn.
    simpl in Hdn. apply andb_true_iff in Hdn. destruct Hdn as [Hdn _].
    apply distinct_NoDup in Hdn.
    assert (forall x c, In (x, c) es -> assoc x es = Some c) as Hassoc
      by (intros; now apply assoc_distinct).
    clear Hdn.
    assert (forall es' sizes',
               (forall x c, In (x, c) es' -> In (x, c) es) ->
               Forall2 (fun x y =>
                          try_catch (getFileSizeRecursive fuel disk (join p x)) (Val 0)
                          = Val y) (map fst es') sizes' ->
               sizes' = map (fun xc => measured (snd xc)) es') as Hsum.
    { induction es' as [| [x c] es' IHes]; intros sizes' Hsub Hall'; simpl in *.
      - inversion Hall'. reflexivity.
      - inversion Hall' as [| ? y ? ys Hy Hys]; subst.
        f_equal.
        + destruct (getFileSizeRecursive fuel disk (join p x)) as [v | |] eqn:Hv;
            simpl in Hy; try discriminate.
          * injection Hy as <-. apply IH in Hv. rewrite Hv.
            unfold measuredAt. rewrite lookup_join, Hl, (Hassoc x c); auto.
          * now apply getFileSizeRecursive_no_exception in Hv.
        + apply IHes; auto. }
    apply Hsum; auto.
  - intros [= <-]. reflexivity.
  - intros [= <-]. reflexivity.
  - intros [= <-]. reflexivity.
Qed.

(** ** Paths and traces *)

Lemma below_refl (p : pathname) : below p p.
Proof. exists []. now rewrite app_nil_r. Qed.

Lemma below_trans (p q r : pathname) : below p q -> below q r -> below p r.
Proof. intros [a ->] [b ->]. exists (a ++ b). now rewrite app_assoc. Qed.

Lemma strictly_below_below (p q : pathname) : strictly_below p q -> below p q.
Proof. intros [r [_ ->]]. now exists r. Qed.

Lemma strictly_below_join (p : pathname) (x : string) : strictly_below p (join p x).
Proof. exists [x]. split; [discriminate | reflexivity]. Qed.

Lemma strictly_below_trans_l (p q r : pathname) :
  strictly_below p q -> below q r -> strictly_below p r.
Proof.
  intros [a [Ha ->]] [b ->]. exists (a ++ b). split.
  - destruct a; [contradiction | discriminate].
  - now rewrite app_assoc.
Qed.

Lemma strictly_below_trans_r (p q r : pathname) :
  below p q -> strictly_below q r -> strictly_below p r.
Proof.
  intros [a ->] [b [Hb ->]]. exists (a ++ b). split.
  - destruct a; [assumption | discriminate].
  - now rewrite app_assoc.
Qed.

Lemma strictly_below_irrefl (p : pathname) : ~ strictly_below p p.
Proof.
  intros [r [Hr H]]. apply Hr.
  rewrite <- (app_nil_r p) in H at 1. now apply app_inv_head in H.
Qed.

Lemma below_antisym (p q : pathname) : below p q -> below q p -> p = q.
Proof.
  intros [a ->] [b H].
  rewrite <- app_assoc in H. rewrite <- (app_nil_r p) in H at 1.
  apply app_inv_head in H. symmetry in H. apply app_eq_nil in H.
  destruct H as [-> _]. now rewrite app_nil_r.
Qed.

(** Two prefixes of one path: a directory between [dir] and a path below
    [dir/x] is [dir] itself or is below [dir/x]. *)
Lemma below_between (dir r d : pathname) (x : string) :
  below dir r -> below r d -> below (join dir x) d ->
  r = dir \/ below (join dir x) r.
Proof.
  intros [a ->] [b ->] [c H]. unfold join in *.
  rewrite <- !app_assoc in H. apply app_inv_head in H.
  destruct a as [| y a].
  - left. now rewrite app_nil_r.
  - right. simpl in H. injection H as -> _. exists a. now rewrite <- app_assoc.
Qed.

(** A path strictly above [d/x] is above [d] or is [d]. *)
Lemma strictly_below_join_inv (p d : pathname) (x : string) :
  strictly_below p (join d x) -> below p d.
Proof.
  intros [r [Hr H]]. unfold join in H.
  destruct (exists_last Hr) as [r' [y ->]].
  rewrite app_assoc in H. apply app_inj_tail in H. destruct H as [-> _].
  now exists r'.
Qed.

Lemma emitted_app (t1 t2 : list event) : emitted (t1 ++ t2) = emitted t1 ++ emitted t2.
Proof.
  induction t1 as [| ev t1 IH]; simpl; [reflexivity |].
  destruct ev; simpl; now rewrite ?IH.
Qed.

Lemma In_emitted (e : entry) (tr : list event) : In e (emitted tr) <-> In (Emit e) tr.
Proof.
  induction tr as [| ev tr IH]; simpl; [tauto |].
  destruct ev; simpl; rewrite IH; intuition (try discriminate; try congruence).
Qed.

Lemma extend_nil (st : scan_state) : extend st [] = st.
Proof. destruct st. unfold extend. simpl. now rewrite !app_nil_r. Qed.

Lemma extend_extend (st : scan_state) (t1 t2 : list event) :
  extend (extend st t1) t2 = extend st (t1 ++ t2).
Proof. unfold extend. simpl. now rewrite emitted_app, !app_assoc. Qed.

Lemma forOf_cons (S A : Type) (x : A) (xs : list A) (body : A -> M S control) (s : S) :
  forOf (x :: xs) body s =
  match body x s with
  | (Val Next, s') => forOf xs body s'
  | (Val Return, s') => (Val Return, s')
  | (Exn, s') => (Exn, s')
  | (OutOfFuel, s') => (OutOfFuel, s')
  end.
Proof.
  simpl. unfold bind. destruct (body x s) as [[[|] | |] s']; reflexivity.
Qed.

(** ** scanDir, step by step *)

Section ScanDirFacts.
Variable disk : node.
Variable listLimit : Z.
Variable sizeThreshold : Z.
Variable budget : nat.

Let measure (p : pathname) : outcome Z := getFileSizeRecursive budget disk p.
Let scanEntry' := scanEntry disk listLimit sizeThreshold budget.
Let scanDir' := scanDir disk listLimit sizeThreshold budget.

Local Abbreviation shape := (shape disk sizeThreshold budget).
Local Abbreviation shaped := (shaped disk sizeThreshold budget).
Local Abbreviation stops_at_cap := (stops_at_cap listLimit).
Local Abbreviation under_cap := (under_cap listLimit).
Local Abbreviation open := (open listLimit).
Local Abbreviation done := (done listLimit).

Lemma report_unfold (e : entry) (st : scan_state) :
  report listLimit e st =
  (Val (if listLimit <=? Z.of_nat (length (results st ++ [e]))
        then Return else Next),
   extend st [Emit e]).
Proof.
  unfold report, bind, push, modify, gets, ret, extend. simpl.
  destruct (listLimit <=? _); reflexivity.
Qed.

Lemma scanEntry_unfold (scanDirRec : pathname -> M scan_state unit)
    (dir : pathname) (file : string) (st : scan_state) :
  scanEntry' scanDirRec dir file st =
  let filePath := join dir file in
  match stat disk filePath with
  | Val stats =>
      if st_isDirectory stats then
        match measure filePath with
        | Val size =>
            if sizeThreshold <=? size then
              report listLimit (mkEntry filePath size true)
                (extend st [Visit filePath; Measure filePath])
            else
              match scanDirRec filePath
                      (extend st [Visit filePath; Measure filePath]) with
              | (Val _, s) => (Val Next, s)
              | (Exn, s) => (Val Next, s)
              | (OutOfFuel, s) => (OutOfFuel, s)
              end
        | Exn => (Val Next, extend st [Visit filePath; Measure filePath])
        | OutOfFuel => (OutOfFuel, extend st [Visit filePath; Measure filePath])
        end
      else if sizeThreshold <=? st_size stats then
        report listLimit (mkEntry filePath (st_size stats) false)
          (extend st [Visit filePath])
      else (Val Next, extend st [Visit filePath])
  | Exn => (Val Next, extend st [Visit filePath])
  | OutOfFuel => (OutOfFuel, extend st [Visit filePath])
  end.
Proof.
  unfold scanEntry', scanEntry, measure, catch, bind, log, modify, lift, ret, extend.
  simpl.
  destruct (stat disk (join dir file)) as [stats | |];
    simpl; rewrite ?app_nil_r, <- ?app_assoc; try reflexivity.
  destruct (st_isDirectory stats).
  - destruct (getFileSizeRecursive budget disk (join dir file)) as [sz | |];
      simpl; rewrite ?app_nil_r, <- ?app_assoc; try reflexivity.
    destruct (sizeThreshold <=? sz).
    + rewrite !report_unfold. unfold extend. simpl.
      rewrite ?app_nil_r, <- ?app_assoc. reflexivity.
    + simpl. destruct (scanDirRec _ _) as [[[] | |] s]; reflexivity.
  - destruct (sizeThreshold <=? st_size stats); [| reflexivity].
    rewrite !report_unfold. unfold extend. simpl.
    rewrite ?app_nil_r, <- ?app_assoc. reflexivity.
Qed.

Lemma scanDir_unfold (fuel : nat) (dir : pathname) (st : scan_state) :
  scanDir' (S fuel) dir st =
  match readdir disk dir with
  | Val files =>
      match forOf files (scanEntry' (scanDir' fuel) dir) (extend st [Enter dir]) with
      | (Val _, s) => (Val tt, s)
      | (Exn, s) => (Val tt, s)
      | (OutOfFuel, s) => (OutOfFuel, s)
      end
  | Exn => (Val tt, extend st [Enter dir])
  | OutOfFuel => (OutOfFuel, extend st [Enter dir])
  end.
Proof.
  unfold scanDir', scanEntry'. simpl.
  unfold catch, bind, log, modify, lift, ret, extend. simpl.
  rewrite !app_nil_r.
  destruct (readdir disk dir) as [files | |]; try reflexivity.
  destruct (forOf files _ _) as [[c | |] s]; reflexivity.
Qed.

Lemma shape_ext (dir : pathname) (t t' : list event) :
  (forall ev, In ev t <-> In ev t') -> shape dir t -> shape dir t'.
Proof.
  intros Heq (HE & HM & HS & HA). split; [| split; [| split]].
  - intros d Hd. apply Heq in Hd. destruct (HE d Hd) as [-> | (Hb & Hm & Hs)]; auto.
    right. repeat split; auto. now apply Heq.
  - intros e He. apply Heq in He.
    destruct (HM e He) as (d & file & H1 & H2 & H3 & H4).
    exists d, file. repeat split; auto; try tauto. now apply Heq.
  - intros p Hp. apply Heq in Hp. destruct (HS p Hp) as (Hb & s & H1 & H2 & H3).
    split; [assumption |].
    exists s. repeat split; auto; intros; apply Heq; auto.
  - intros d r Hd H1 H2. apply Heq. apply Heq in Hd. eauto.
Qed.

Lemma shape_app (dir : pathname) (t1 t2 : list event) :
  shape dir t1 -> shape dir t2 -> shape dir (t1 ++ t2).
Proof.
  intros (HE1 & HM1 & HS1 & HA1) (HE2 & HM2 & HS2 & HA2). split; [| split; [| split]].
  - intros d Hd. apply in_app_or in Hd. destruct Hd as [Hd | Hd].
    + destruct (HE1 d Hd) as [-> | (Hb & Hm & Hs)]; auto.
      right. repeat split; auto. apply in_or_app; auto.
    + destruct (HE2 d Hd) as [-> | (Hb & Hm & Hs)]; auto.
      right. repeat split; auto. apply in_or_app; auto.
  - intros e He. apply in_app_or in He. destruct He as [He | He].
    + destruct (HM1 e He) as (d & file & H1 & H2 & H3 & H4).
      exists d, file. repeat split; auto; try tauto. apply in_or_app; auto.
    + destruct (HM2 e He) as (d & file & H1 & H2 & H3 & H4).
      exists d, file. repeat split; auto; try tauto. apply in_or_app; auto.
  - intros p Hp. apply in_app_or in Hp. destruct Hp as [Hp | Hp].
    + destruct (HS1 p Hp) as (Hb & s & H1 & H2 & H3).
      split; [assumption |].
      exists s. repeat split; auto; intros; apply in_or_app; auto.
    + destruct (HS2 p Hp) as (Hb & s & H1 & H2 & H3).
      split; [assumption |].
      exists s. repeat split; auto; intros; apply in_or_app; auto.
  - intros d r Hd H1 H2. apply in_or_app. apply in_app_or in Hd.
    destruct Hd as [Hd | Hd]; eauto.
Qed.

Lemma shape_merge (dir : pathname) (t1 t2 : list event) :
  shape dir (Enter dir :: t1) -> shape dir (Enter dir :: t2) ->
  shape dir (Enter dir :: t1 ++ t2).
Proof.
  intros H1 H2. apply shape_ext with (t := (Enter dir :: t1) ++ (Enter dir :: t2)).
  - intros ev. simpl. rewrite !in_app_iff. simpl. tauto.
  - now apply shape_app.
Qed.

Ltac in_cases :=
  repeat match goal with
    | H : In _ (_ :: _) |- _ =>
        destruct H as [H | H]; [try discriminate H; try (injection H as H) |]
    | H : In _ [] |- _ => destruct H
    end.

Lemma shape_skip (dir visited : pathname) : shape dir [Enter dir; Visit visited].
Proof.
  split; [| split; [| split]]; intros; in_cases; subst; auto.
  left. f_equal. now apply below_antisym.
Qed.

Lemma shape_start (dir : pathname) : shape dir [Enter dir].
Proof.
  split; [| split; [| split]]; intros; in_cases; subst; auto.
  left. f_equal. now apply below_antisym.
Qed.

Lemma shape_file (dir : pathname) (file : string) (s : Z) :
  sizeThreshold <= s ->
  shape dir [Enter dir; Visit (join dir file); Emit (mkEntry (join dir file) s false)].
Proof.
  intros Hs. split; [| split; [| split]]; intros; in_cases; subst; auto.
  - exists dir, file. simpl. repeat split; auto using below_refl.
    discriminate.
  - left. f_equal. now apply below_antisym.
Qed.

Lemma shape_directory (dir : pathname) (file : string) (s : Z) :
  measure (join dir file) = Val s ->
  sizeThreshold <= s ->
  shape dir [Enter dir; Visit (join dir file); Measure (join dir file);
             Emit (mkEntry (join dir file) s true)].
Proof.
  intros Hm Hs. split; [| split; [| split]]; intros; in_cases; subst; auto.
  - exists dir, file. simpl. repeat split; auto using below_refl.
  - split; [apply strictly_below_join |].
    exists s. repeat split; auto; [lia |]. intros _. simpl. auto.
  - left. f_equal. now apply below_antisym.
Qed.

Ltac in_now :=
  simpl; solve [repeat (first [left; reflexivity | right]); eauto].

Lemma shape_nested (dir : pathname) (file : string) (s : Z) (tr : list event) :
  measure (join dir file) = Val s ->
  s < sizeThreshold ->
  shape (join dir file) tr ->
  In (Enter (join dir file)) tr ->
  shape dir (Enter dir :: Visit (join dir file) :: Measure (join dir file) :: tr).
Proof.
  intros Hm Hs (HE & HM & HS & HA) Hin.
  assert (forall d, In (Enter d) tr -> below (join dir file) d) as Hbelow.
  { intros d Hd. destruct (HE d Hd) as [-> | [Hb _]];
      auto using below_refl, strictly_below_below. }
  split; [| split; [| split]].
  - intros d Hd. in_cases; subst; auto. right.
    destruct (HE d Hd) as [-> | (Hb & Hmd & Hsd)].
    + repeat split; [apply strictly_below_join | in_now | eauto].
    + repeat split; [| in_now | auto].
      apply strictly_below_trans_l with (q := join dir file);
        [apply strictly_below_join | now apply strictly_below_below].
  - intros e He. in_cases.
    destruct (HM e He) as (d & f & H1 & H2 & H3 & H4 & H5).
    exists d, f. repeat split; auto; [| in_now].
    eapply below_trans; [| exact H2].
    apply strictly_below_below, strictly_below_join.
  - intros p Hp. in_cases; subst.
    + split; [apply strictly_below_join |].
      exists s. repeat split; auto; [| lia]. intros _. in_now.
    + destruct (HS p Hp) as (Hb & s' & H1 & H2 & H3). split.
      * apply strictly_below_trans_l with (q := join dir file);
          [apply strictly_below_join | now apply strictly_below_below].
      * exists s'. repeat split; auto; intros; in_now.
  - intros d r Hd H1 H2. in_cases; subst.
    + left. f_equal. now apply below_antisym.
    + destruct (below_between _ _ _ file H1 H2 (Hbelow d Hd)) as [-> | Hr];
        [now left |].
      assert (In (Enter r) tr) by eauto. in_now.
Qed.

Lemma scanEntry_shape (scanDirRec : pathname -> M scan_state unit)
    (dir : pathname) (file : string) (st st' : scan_state) (c : control) :
  shaped scanDirRec ->
  scanEntry' scanDirRec dir file st = (Val c, st') ->
  exists tr, st' = extend st tr /\ shape dir (Enter dir :: tr).
Proof.
  intros Hrec. rewrite scanEntry_unfold. cbv zeta.
  destruct (stat disk (join dir file)) as [stats | |]; try discriminate.
  - destruct (st_isDirectory stats).
    + destruct (measure (join dir file)) as [sz | |] eqn:Hm; try discriminate.
      * destruct (sizeThreshold <=? sz) eqn:Hle.
        -- rewrite report_unfold, extend_extend. intros [= _ <-].
           eexists. split; [reflexivity |].
           apply shape_directory; [assumption | lia].
        -- specialize (Hrec (join dir file)
                         (extend st [Visit (join dir file); Measure (join dir file)])).
           destruct (scanDirRec _ _) as [[[] | |] s]; try discriminate; [| tauto].
           destruct Hrec as (tr & -> & Hsh & Hin).
           rewrite extend_extend. intros [= _ <-].
           eexists. split; [reflexivity |].
           apply shape_nested with (s := sz); [assumption | lia | assumption | assumption].
      * now apply getFileSizeRecursive_no_exception in Hm.
    + destruct (sizeThreshold <=? st_size stats) eqn:Hle.
      * rewrite report_unfold, extend_extend. intros [= _ <-].
        eexists. split; [reflexivity |].
        apply shape_file. lia.
      * intros [= _ <-]. eexists. split; [reflexivity | apply shape_skip].
  - intros [= _ <-]. eexists. split; [reflexivity | apply shape_skip].
Qed.

Lemma forOf_shape (scanDirRec : pathname -> M scan_state unit)
    (dir : pathname) (files : list string) (st st' : scan_state) (c : control) :
  shaped scanDirRec ->
  forOf files (scanEntry' scanDirRec dir) st = (Val c, st') ->
  exists tr, st' = extend st tr /\ shape dir (Enter dir :: tr).
Proof.
  intros Hrec. revert st. induction files as [| file files IH]; intros st.
  - simpl. unfold ret. intros [= _ <-]. exists []. split.
    + now rewrite extend_nil.
    + apply shape_start.
  - rewrite forOf_cons.
    destruct (scanEntry' scanDirRec dir file st) as [[[|] | |] s] eqn:Hstep;
      try discriminate.
    + eapply scanEntry_shape in Hstep; [| exact Hrec].
      destruct Hstep as (t1 & -> & Hs1).
      intros Hrest. destruct (IH _ Hrest) as (t2 & -> & Hs2).
      exists (t1 ++ t2). split; [apply extend_extend |].
      now apply shape_merge.
    + intros [= _ <-]. eapply scanEntry_shape; eauto.
Qed.

Lemma scanEntry_no_exception (scanDirRec : pathname -> M scan_state unit)
    (dir : pathname) (file : string) (st : scan_state) :
  fst (scanEntry' scanDirRec dir file st) <> Exn.
Proof.
  rewrite scanEntry_unfold. cbv zeta.
  destruct (stat disk (join dir file)) as [stats | |]; try discriminate.
  destruct (st_isDirectory stats).
  - destruct (measure (join dir file)) as [sz | |]; try discriminate.
    destruct (sizeThreshold <=? sz).
    + rewrite report_unfold. discriminate.
    + destruct (scanDirRec _ _) as [[[] | |] s]; discriminate.
  - destruct (sizeThreshold <=? st_size stats); [| discriminate].
    rewrite report_unfold. discriminate.
Qed.

Lemma forOf_no_exception (S A : Type) (body : A -> M S control) (xs : list A) (s : S) :
  (forall x s, fst (body x s) <> Exn) -> fst (forOf xs body s) <> Exn.
Proof.
  intros Hb. revert s. induction xs as [| x xs IH]; intros s; [discriminate |].
  rewrite forOf_cons. specialize (Hb x s).
  destruct (body x s) as [[[|] | |] s']; simpl in *; try discriminate; auto.
Qed.

Lemma scanDir_shaped (fuel : nat) : shaped (scanDir' fuel).
Proof.
  induction fuel as [| fuel IH]; intros dir st; [exact I |].
  rewrite scanDir_unfold.
  destruct (readdir disk dir) as [files | |].
  - destruct (forOf files _ _) as [[c | |] s] eqn:Hloop; [| | exact I].
    + eapply forOf_shape in Hloop; [| exact IH].
      destruct Hloop as (tr & -> & Hsh).
      exists (Enter dir :: tr). split; [| split; [assumption | now left]].
      now rewrite extend_extend.
    + exfalso.
      apply (forOf_no_exception _ _ (scanEntry' (scanDir' fuel) dir) files
               (extend st [Enter dir])).
      * intros. apply scanEntry_no_exception.
      * now rewrite Hloop.
  - exists [Enter dir]. split; [reflexivity | split; [apply shape_start | now left]].
  - exact I.
Qed.

Lemma scanDir_shape (fuel : nat) (dir : pathname) (st st' : scan_state) :
  scanDir' fuel dir st = (Val tt, st') ->
  exists tr, st' = extend st tr /\ shape dir tr /\ In (Enter dir) tr.
Proof.
  intros H. pose proof (scanDir_shaped fuel dir st) as Hs.
  now rewrite H in Hs.
Qed.

(** *** Termination *)

Lemma forOf_total (S A : Type) (body : A -> M S control) (xs : list A) :
  (forall x s, In x xs -> exists c s', body x s = (Val c, s')) ->
  forall s, exists c s', forOf xs body s = (Val c, s').
Proof.
  induction xs as [| x xs IH]; intros Hb s.
  - simpl. unfold ret. eauto.
  - rewrite forOf_cons.
    destruct (Hb x s) as (c & s' & ->); [now left |].
    destruct c; [| eauto].
    apply IH. intros y s0 Hy. apply Hb. now right.
Qed.

Lemma scanDir_terminates_at (fuel : nat) (dir : pathname) (st : scan_state) :
  (height disk < budget)%nat ->
  match lookup disk dir with
  | Some n => (height n < fuel)%nat
  | None => (0 < fuel)%nat
  end ->
  exists st', scanDir' fuel dir st = (Val tt, st').
Proof.
  intros Hb. revert dir st. induction fuel as [| fuel IH]; intros dir st Hh.
  - destruct (lookup disk dir); lia.
  - rewrite scanDir_unfold. unfold readdir.
    destruct (lookup disk dir) as [[z | [|] w es |] |] eqn:Hl; eauto.
    destruct (forOf_total _ _ (scanEntry' (scanDir' fuel) dir) (map fst es))
      with (s := extend st [Enter dir]) as (c & s' & ->); [| eauto].
    intros x s Hx. rewrite scanEntry_unfold. cbv zeta.
    destruct (assoc_listed _ x es Hx) as [ch Hch].
    assert (lookup disk (join dir x) = Some ch) as Hlx
      by now rewrite lookup_join, Hl.
    unfold stat. rewrite Hlx.
    destruct ch as [z | r' w' es' |]; [| | eauto].
    + simpl. destruct (sizeThreshold <=? _); [rewrite report_unfold |]; eauto.
    + simpl.
      destruct (getFileSizeRecursive_terminates _ disk (join dir x) Hb) as [sz Hsz].
      unfold measure. rewrite Hsz.
      destruct (sizeThreshold <=? sz); [rewrite report_unfold; eauto |].
      destruct (IH (join dir x)
                  (extend s [Visit (join dir x); Measure (join dir x)]))
        as [s' ->]; [| eauto].
      rewrite Hlx. apply assoc_In, (height_entry true w) in Hch. lia.
Qed.

Lemma scanDir_terminates (fuel : nat) (dir : pathname) (st : scan_state) :
  (height disk < budget)%nat ->
  (height disk < fuel)%nat ->
  exists st', scanDir' fuel dir st = (Val tt, st').
Proof.
  intros Hb Hf. apply scanDir_terminates_at; [assumption |].
  destruct (lookup disk dir) as [n |] eqn:Hl; [| lia].
  apply height_lookup in Hl. lia.
Qed.

(** *** On a well-formed disk the recursive calls push nothing *)

Lemma forOf_invariant (S A : Type) (I : S -> Prop) (body : A -> M S control)
    (xs : list A) (s s' : S) (c : control) :
  (forall x t t' c', In x xs -> I t -> body x t = (Val c', t') -> I t') ->
  I s ->
  forOf xs body s = (Val c, s') ->
  I s'.
Proof.
  revert s. induction xs as [| x xs IH]; intros s Hb Hs.
  - simpl. unfold ret. now intros [= _ <-].
  - rewrite forOf_cons.
    destruct (body x s) as [[[|] | |] t] eqn:Hx; try discriminate.
    + apply IH.
      * intros y t0 t' c' Hy. apply Hb. now right.
      * eapply Hb; eauto. now left.
    + intros [= _ <-]. eapply Hb; eauto. now left.
Qed.

Lemma results_extend (st : scan_state) (tr : list event) :
  emitted tr = [] -> results (extend st tr) = results st.
Proof. intros H. unfold extend. simpl. now rewrite H, app_nil_r. Qed.

Hypothesis names_ok : names_distinct disk = true.
Hypothesis sizes_ok : sizes_nonneg disk = true.

Lemma child_size_le (dir : pathname) (w : bool) (es : list (string * node))
    (x : string) (ch : node) :
  lookup disk dir = Some (Dir true w es) ->
  assoc x es = Some ch ->
  measured ch <= measuredAt disk dir.
Proof.
  intros Hl Hch. unfold measuredAt. rewrite Hl.
  apply measured_entry_le with (x := x); [| now apply assoc_In].
  eapply sizes_nonneg_lookup; eauto.
Qed.

Lemma scanDir_silent (fuel : nat) (dir : pathname) (st st' : scan_state) :
  measuredAt disk dir < sizeThreshold ->
  scanDir' fuel dir st = (Val tt, st') ->
  results st' = results st.
Proof.
  revert dir st st'. induction fuel as [| fuel IH]; intros dir st st' Hsmall;
    [discriminate |].
  rewrite scanDir_unfold. unfold readdir.
  destruct (lookup disk dir) as [[z | [|] w es |] |] eqn:Hl;
    try (intros [= <-]; now apply results_extend).
  destruct (forOf _ _ _) as [[c | |] s] eqn:Hloop; try discriminate.
  - intros [= <-].
    apply forOf_invariant with (I := fun t => results t = results st) in Hloop;
      [assumption | | now apply results_extend].
    clear Hloop. intros x t t' c' Hx Ht. rewrite scanEntry_unfold. cbv zeta.
    destruct (assoc_listed _ x es Hx) as [ch Hch].
    assert (lookup disk (join dir x) = Some ch) as Hlx
      by now rewrite lookup_join, Hl.
    pose proof (child_size_le _ _ _ _ _ Hl Hch) as Hle.
    unfold stat. rewrite Hlx.
    destruct ch as [z | r' w' es' |]; simpl.
    + assert ((sizeThreshold <=? roundToDouble z) = false) as ->.
      { apply Z.leb_gt. simpl in Hle. lia. }
      intros [= _ <-]. now rewrite results_extend.
    + destruct (measure (join dir x)) as [sz | |] eqn:Hm; try discriminate.
      * unfold measure in Hm.
        apply getFileSizeRecursive_sound in Hm; [| assumption].
        assert (measuredAt disk (join dir x) = measured (Dir r' w' es')) as Hspec
          by (unfold measuredAt; now rewrite Hlx).
        assert ((sizeThreshold <=? sz) = false) as -> by (apply Z.leb_gt; lia).
        destruct (scanDir' fuel (join dir x) _) as [[[] | |] t0] eqn:Hrec;
          try discriminate.
        -- intros [= _ <-]. apply IH in Hrec; [| lia].
           rewrite Hrec. now rewrite results_extend.
        -- pose proof (scanDir_shaped fuel (join dir x)
                         (extend t [Visit (join dir x); Measure (join dir x)])) as Hs.
           fold scanDir' in Hs. now rewrite Hrec in Hs.
      * intros [= _ <-]. now rewrite results_extend.
    + intros [= _ <-]. now rewrite results_extend.
  - intros [= <-]. exfalso.
    apply (forOf_no_exception _ _ (scanEntry' (scanDir' fuel) dir) (map fst es)
             (extend st [Enter dir])).
    + intros. apply scanEntry_no_exception.
    + now rewrite Hloop.
Qed.

(** *** The cap *)

Lemma under_cap_stops (tr : list event) : under_cap tr -> stops_at_cap tr.
Proof. intros H pre e post Heq Hle. specialize (H pre e post Heq). lia. Qed.

Lemma under_cap_nil : under_cap [].
Proof. intros pre e post H. destruct pre; discriminate. Qed.

Lemma under_cap_app_silent (tr t2 : list event) :
  under_cap tr -> emitted t2 = [] -> under_cap (tr ++ t2).
Proof.
  intros Hu Hs pre e post Heq.
  assert (~ In (Emit e) t2) as Hnot.
  { rewrite <- In_emitted, Hs. simpl. tauto. }
  apply app_eq_app in Heq. destruct Heq as [l [[H1 H2] | [H1 H2]]].
  - destruct l as [| ev l].
    + simpl in H2. exfalso. apply Hnot. rewrite <- H2. now left.
    + injection H2 as <- H2. apply (Hu pre e l). now rewrite H1.
  - exfalso. apply Hnot. rewrite H2. apply in_or_app. right. now left.
Qed.

Lemma snoc_split (tr pre post : list event) (ev x : event) :
  tr ++ [ev] = pre ++ x :: post ->
  (post = [] /\ tr = pre /\ ev = x) \/
  (exists post', post = post' ++ [ev] /\ tr = pre ++ x :: post').
Proof.
  intros H. destruct post as [| z post0].
  - left. apply app_inj_tail in H. tauto.
  - right.
    destruct (@exists_last _ (z :: post0)) as (post' & y & Hlast); [discriminate |].
    rewrite Hlast in *. exists post'.
    change (pre ++ x :: post' ++ [y]) with (pre ++ (x :: post') ++ [y]) in H.
    rewrite app_assoc in H. apply app_inj_tail in H.
    destruct H as [-> ->]. auto.
Qed.

Lemma under_cap_emit (tr : list event) (e : entry) :
  under_cap tr ->
  Z.of_nat (length (emitted tr)) + 1 < listLimit ->
  under_cap (tr ++ [Emit e]).
Proof.
  intros Hu Hlt pre e' post Heq.
  apply snoc_split in Heq. destruct Heq as [(_ & -> & _) | (post' & _ & ->)].
  - assumption.
  - now apply (Hu pre e' post').
Qed.

Lemma stops_emit (tr : list event) (e : entry) :
  under_cap tr -> stops_at_cap (tr ++ [Emit e]).
Proof.
  intros Hu pre e' post Heq Hle.
  apply snoc_split in Heq. destruct Heq as [(-> & _) | (post' & _ & ->)].
  - reflexivity.
  - specialize (Hu pre e' post' eq_refl). lia.
Qed.

Lemma open_done (root : pathname) (s : scan_state) : open root s -> done root s.
Proof.
  intros (H1 & H2 & H3 & H4). repeat split; auto using under_cap_stops. lia.
Qed.

Lemma open_silent (root : pathname) (s : scan_state) (tr : list event) :
  open root s -> emitted tr = [] -> open root (extend s tr).
Proof.
  intros (H1 & H2 & H3 & H4) Hs. unfold open, extend. simpl.
  rewrite emitted_app, Hs, !app_nil_r. repeat split; auto.
  now apply under_cap_app_silent.
Qed.

Lemma report_capped (root : pathname) (file : string) (sz : Z) (isDir : bool)
    (s s' : scan_state) (c : control) :
  open root s ->
  report listLimit (mkEntry (join root file) sz isDir) s = (Val c, s') ->
  match c with
  | Next => open root s'
  | Return => done root s'
  end.
Proof.
  intros (H1 & H2 & H3 & H4). rewrite report_unfold.
  rewrite length_app. simpl length.
  assert (forall e, In e (results s ++ [mkEntry (join root file) sz isDir]) ->
                    exists f, path e = join root f) as Hdirect.
  { intros e He. apply in_app_or in He. destruct He as [He | [<- | []]]; eauto.
    now exists file. }
  destruct (listLimit <=? _) eqn:Hle; intros [= <- <-]; unfold open, done, extend; simpl.
  - apply Z.leb_le in Hle. repeat split; auto.
    + now rewrite emitted_app, H1.
    + now apply stops_emit.
    + rewrite length_app. simpl. lia.
  - apply Z.leb_gt in Hle. repeat split; auto.
    + now rewrite emitted_app, H1.
    + apply under_cap_emit; [assumption |]. rewrite <- H1. lia.
    + rewrite length_app. simpl. lia.
Qed.

Lemma scanEntry_capped (fuel : nat) (root : pathname) (file : string)
    (s s' : scan_state) (c : control) :
  open root s ->
  scanEntry' (scanDir' fuel) root file s = (Val c, s') ->
  match c with
  | Next => open root s'
  | Return => done root s'
  end.
Proof.
  intros Hopen. rewrite scanEntry_unfold. cbv zeta.
  destruct (stat disk (join root file)) as [stats | |]; try discriminate.
  - destruct (st_isDirectory stats).
    + destruct (measure (join root file)) as [sz | |] eqn:Hm; try discriminate.
      * destruct (sizeThreshold <=? sz) eqn:Hle.
        -- apply report_capped. now apply open_silent.
        -- destruct (scanDir' fuel (join root file) _) as [[[] | |] t] eqn:Hrec;
             try discriminate.
           ++ intros [= <- <-].
              pose proof Hrec as Hsil. apply scanDir_silent in Hsil.
              ** apply scanDir_shape in Hrec. destruct Hrec as (tr & -> & _).
                 rewrite extend_extend. apply open_silent; [assumption |].
                 rewrite emitted_app. simpl.
                 unfold extend in Hsil. simpl in Hsil.
                 rewrite app_nil_r in Hsil.
                 rewrite <- (app_nil_r (results s)) in Hsil at 2.
                 now apply app_inv_head in Hsil.
              ** unfold measure in Hm.
                 apply getFileSizeRecursive_sound in Hm; [| assumption].
                 apply Z.leb_gt in Hle. lia.
           ++ pose proof (scanDir_shaped fuel (join root file)
                            (extend s [Visit (join root file); Measure (join root file)]))
                as Hs.
              fold scanDir' in Hs. now rewrite Hrec in Hs.
      * intros [= <- <-]. now apply open_silent.
    + destruct (sizeThreshold <=? st_size stats).
      * apply report_capped. now apply open_silent.
      * intros [= <- <-]. now apply open_silent.
  - intros [= <- <-]. now apply open_silent.
Qed.

Lemma forOf_capped (fuel : nat) (root : pathname) (files : list string)
    (s s' : scan_state) (c : control) :
  open root s ->
  forOf files (scanEntry' (scanDir' fuel) root) s = (Val c, s') ->
  done root s'.
Proof.
  revert s. induction files as [| file files IH]; intros s Hopen.
  - simpl. unfold ret. intros [= _ <-]. now apply open_done.
  - rewrite forOf_cons.
    destruct (scanEntry' (scanDir' fuel) root file s) as [[[|] | |] t] eqn:Hstep;
      try discriminate.
    + apply IH. apply (scanEntry_capped _ _ _ _ _ _ Hopen Hstep).
    + intros [= _ <-]. apply (scanEntry_capped _ _ _ _ _ _ Hopen Hstep).
Qed.

Lemma scanDir_capped (fuel : nat) (root : pathname) (s' : scan_state) :
  scanDir' fuel root initial_scan = (Val tt, s') ->
  done root s'.
Proof.
  destruct fuel as [| fuel]; [discriminate |].
  rewrite scanDir_unfold.
  assert (open root (extend initial_scan [Enter root])) as Hopen.
  { apply open_silent; [| reflexivity].
    repeat split; simpl; auto using under_cap_nil; [lia | tauto]. }
  destruct (readdir disk root) as [files | |]; try discriminate.
  - destruct (forOf files _ _) as [[c | |] t] eqn:Hloop; try discriminate.
    + intros [= <-]. eapply forOf_capped; eauto.
    + intros _. exfalso.
      apply (forOf_no_exception _ _ (scanEntry' (scanDir' fuel) root) files
               (extend initial_scan [Enter root])).
      * intros. apply scanEntry_no_exception.
      * now rewrite Hloop.
  - intros [= <-]. now apply open_done.
Qed.

End ScanDirFacts.

(** ** The specified size, read on the disk *)

(** [leafFiles] lists exactly the files that are reached from the node
    through directories that can be enumerated. *)
Lemma leafFiles_reachable (n : node) (q : pathname) (s : Z) :
  names_distinct n = true ->
  In (q, s) (leafFiles n) <->
  (lookup n q = Some (File s) /\
   forall q1 q2, q = q1 ++ q2 -> q2 <> [] ->
     exists w es, lookup n q1 = Some (Dir true w es)).
Proof.
  revert q. induction n as [z | | r w es IH] using node_induction; intros q Hd.
  - simpl. split.
    + intros [[= <- <-] | []]. split; [reflexivity |].
      intros q1 q2 Hq Hq2. symmetry in Hq. apply app_eq_nil in Hq. tauto.
    + intros [Hl _]. destruct q; [| discriminate]. injection Hl as ->. now left.
  - simpl. split; [tauto |]. intros [Hl _]. destruct q; discriminate.
  - destruct r.
    + simpl leafFiles. rewrite in_flat_map. split.
      * intros ([x c] & Hin & Hq). simpl in Hq. apply in_map_iff in Hq.
        destruct Hq as ([q' s'] & [= <- <-] & Hq').
        rewrite Forall_forall in IH.
        apply (IH (x, c) Hin) in Hq';
          [| now apply (names_distinct_entry true w es x)].
        destruct Hq' as [Hl Hdirs].
        assert (assoc x es = Some c) as Ha.
        { apply assoc_distinct; [| assumption].
          simpl in Hd. apply andb_true_iff in Hd. now apply distinct_NoDup. }
        split; [simpl; now rewrite Ha |].
        intros q1 q2 Hq Hq2. destruct q1 as [| y q1]; [simpl; eauto |].
        injection Hq as <- Hq. simpl. rewrite Ha. eauto.
      * intros [Hl Hdirs]. destruct q as [| x q]; [discriminate |].
        simpl in Hl. destruct (assoc x es) as [c |] eqn:Ha; [| discriminate].
        exists (x, c). split; [now apply assoc_In |].
        simpl. apply in_map_iff. exists (q, s). split; [reflexivity |].
        rewrite Forall_forall in IH.
        apply (IH (x, c) (assoc_In _ _ _ _ Ha));
          [apply (names_distinct_entry true w es x); auto using assoc_In |].
        split; [assumption |].
        intros q1 q2 Hq Hq2.
        destruct (Hdirs (x :: q1) q2) as (w' & es' & Hl'); [now rewrite Hq | assumption |].
        simpl in Hl'. rewrite Ha in Hl'. eauto.
    + simpl. split; [tauto |]. intros [Hl Hdirs].
      destruct q as [| x q]; [discriminate |].
      destruct (Hdirs [] (x :: q)) as (w' & es' & Hl'); [reflexivity | discriminate |].
      discriminate.
Qed.

Lemma well_formed_parts (disk : node) :
  well_formed disk = true -> names_distinct disk = true /\ sizes_nonneg disk = true.
Proof. unfold well_formed. now rewrite andb_true_iff. Qed.

Lemma computeSize_spec_nonneg (disk : node) (p : pathname) :
  sizes_nonneg disk = true -> 0 <= computeSize_spec disk p.
Proof.
  intros Hn. unfold computeSize_spec.
  destruct (lookup disk p) as [n |] eqn:Hl; [| lia].
  apply treeSize_nonneg. eapply sizes_nonneg_lookup; eauto.
Qed.

(** The specified size of a directory that can be enumerated is the sum
    over its entries of what the specification gives for each entry. *)
Lemma computeSize_spec_children (disk : node) (p : pathname) (w : bool)
    (es : list (string * node)) :
  names_distinct disk = true ->
  lookup disk p = Some (Dir true w es) ->
  computeSize_spec disk p =
  sumZ (map (fun file => computeSize_spec disk (join p file)) (map fst es)).
Proof.
  intros Hd Hl. unfold computeSize_spec at 1. rewrite Hl, treeSize_Dir, map_map.
  f_equal. apply map_ext_in. intros [x c] Hin. simpl.
  unfold computeSize_spec. rewrite lookup_join, Hl.
  apply (names_distinct_lookup _ _ _ Hd) in Hl.
  simpl in Hl. apply andb_true_iff in Hl. destruct Hl as [Hl _].
  now rewrite (assoc_distinct _ _ _ _ (distinct_NoDup _ Hl) Hin).
Qed.

(** Up to 2^53 bytes, what is measured at a path is the specified size. *)
Lemma measuredAt_exact (disk : node) (p : pathname) :
  sizes_nonneg disk = true ->
  computeSize_spec disk p <= exactUpTo ->
  measuredAt disk p = computeSize_spec disk p.
Proof.
  intros Hn. unfold measuredAt, computeSize_spec.
  destruct (lookup disk p) as [n |] eqn:Hl; [| reflexivity].
  apply measured_exact. eapply sizes_nonneg_lookup; eauto.
Qed.

(** C1, as the code has it.  On every well-formed disk and for every
    path, with a recursion budget above the height of the disk,
    getFileSizeRecursive returns (it never throws, whatever the disk and
    the budget) a number that is not negative: the sizes of the leaf files
    reachable from the path, added up directory by directory in the
    arithmetic of JavaScript numbers.  As long as these sizes add up to
    2^53 bytes at most, that number is their sum.  The sum is not negative;
    a path that cannot be statted and a directory that cannot be
    enumerated count 0; and the size of a directory is the sum over its
    entries, each taken on its own, so that a failing entry adds 0 and the
    others still count. *)
Theorem getFileSizeRecursive_sums_reachable_files
    (disk : node) (p : pathname) (fuel : nat) :
  well_formed disk = true ->
  (height disk < fuel)%nat ->
  getFileSizeRecursive fuel disk p = Val (measuredAt disk p)
  /\ 0 <= measuredAt disk p
  /\ (computeSize_spec disk p <= exactUpTo ->
      getFileSizeRecursive fuel disk p = Val (computeSize_spec disk p))
  /\ (forall fuel' disk' p', getFileSizeRecursive fuel' disk' p' <> Exn)
  /\ 0 <= computeSize_spec disk p
  /\ (stat disk p = Exn -> computeSize_spec disk p = 0)
  /\ (forall stats, stat disk p = Val stats -> st_isDirectory stats = true ->
      readdir disk p = Exn -> computeSize_spec disk p = 0)
  /\ (forall files, readdir disk p = Val files ->
      computeSize_spec disk p =
      sumZ (map (fun file => computeSize_spec disk (join p file)) files)).
Proof.
  intros Hwf Hh. apply well_formed_parts in Hwf. destruct Hwf as [Hd Hn].
  split; [now apply getFileSizeRecursive_spec |].
  split; [now apply measuredAt_nonneg |].
  split.
  { intros Hb. rewrite <- (measuredAt_exact disk p Hn Hb).
    now apply getFileSizeRecursive_spec. }
  split; [intros; apply getFileSizeRecursive_no_exception |].
  split; [now apply computeSize_spec_nonneg |].
  unfold stat, readdir.
  destruct (lookup disk p) as [[z | [|] w es |] |] eqn:Hl;
    repeat split; try discriminate;
    try (intros; unfold computeSize_spec; rewrite Hl; reflexivity).
  - intros stats [= <-]. discriminate.
  - intros files [= <-]. now apply computeSize_spec_children with (w := w).
Qed.

(** C1 as stated fails on a tree that holds more than 2^53 bytes: for a
    directory with a file of 2^53 bytes and a file of one byte the call
    returns 2^53, one less than the sum of the two sizes, because the
    number 2^53 + 1 does not exist. *)
Lemma sum_beyond_exact_integers_is_rounded :
  well_formed huge_disk = true
  /\ (height huge_disk < 2)%nat
  /\ computeSize_spec huge_disk [] = 9007199254740993
  /\ getFileSizeRecursive 2 huge_disk [] = Val 9007199254740992
  /\ getFileSizeRecursive 2 huge_disk [] <> Val (computeSize_spec huge_disk []).
Proof.
  split; [reflexivity |]. split; [apply Nat.ltb_lt; reflexivity |].
  split; [reflexivity |]. split; [vm_compute; reflexivity |].
  vm_compute. discriminate.
Qed.

(** ** findLargeFiles *)

Lemma findLargeFiles_run_unfold (fuel : nat) (disk : node) (home : pathname)
    (directory : dirspec) (listLimit sizeThreshold : Z) :
  findLargeFiles_run fuel disk home directory listLimit sizeThreshold =
  match scanDir disk listLimit sizeThreshold fuel fuel
          (expandHome home directory) initial_scan with
  | (Val _, s) => (Val (results s), s)
  | (Exn, s) => (Val [], s)
  | (OutOfFuel, s) => (OutOfFuel, s)
  end.
Proof.
  unfold findLargeFiles_run, catch, bind, gets, ret. cbv zeta.
  destruct (scanDir _ _ _ _ _ _ _) as [[[] | |] s]; reflexivity.
Qed.

(** With a budget above the height of the disk the scan returns its
    [results]. *)
Lemma findLargeFiles_returns (fuel : nat) (disk : node) (home : pathname)
    (directory : dirspec) (listLimit sizeThreshold : Z) :
  (height disk < fuel)%nat ->
  exists st,
    scanDir disk listLimit sizeThreshold fuel fuel
      (expandHome home directory) initial_scan = (Val tt, st)
    /\ findLargeFiles_run fuel disk home directory listLimit sizeThreshold
       = (Val (results st), st)
    /\ findLargeFiles fuel disk home directory listLimit sizeThreshold
       = Val (results st).
Proof.
  intros Hh.
  destruct (scanDir_terminates disk listLimit sizeThreshold fuel fuel
              (expandHome home directory) initial_scan Hh Hh) as [st Hst].
  exists st. unfold findLargeFiles.
  rewrite findLargeFiles_run_unfold, Hst. auto.
Qed.

(** A run that returns a value went through scanDir. *)
Lemma findLargeFiles_run_inv (fuel : nat) (disk : node) (home : pathname)
    (directory : dirspec) (listLimit sizeThreshold : Z) (rs : list entry)
    (st : scan_state) :
  findLargeFiles_run fuel disk home directory listLimit sizeThreshold = (Val rs, st) ->
  scanDir disk listLimit sizeThreshold fuel fuel
    (expandHome home directory) initial_scan = (Val tt, st)
  /\ rs = results st.
Proof.
  rewrite findLargeFiles_run_unfold.
  pose proof (scanDir_shaped disk listLimit sizeThreshold fuel fuel
                (expandHome home directory) initial_scan) as Hs.
  destruct (scanDir _ _ _ _ _ _ _) as [[[] | |] s]; try discriminate; [| tauto].
  intros [= <- <-]. auto.
Qed.

Lemma initial_extend (tr : list event) : extend initial_scan tr = mkScan (emitted tr) tr.
Proof. reflexivity. Qed.

(** ** Rules for [preserves] and [finishes] *)

Section Preservation.
Context {S : Type}.

Variable I : S -> Prop.

Lemma preserves_ret (A : Type) (a : A) : preserves I (ret a).
Proof. intros s Hs. exact Hs. Qed.

Lemma preserves_lift (A : Type) (o : outcome A) : preserves I (lift o).
Proof. intros s Hs. exact Hs. Qed.

Lemma preserves_gets (A : Type) (f : S -> A) : preserves I (gets f).
Proof. intros s Hs. exact Hs. Qed.

Lemma preserves_modify (f : S -> S) :
  (forall s, I s -> I (f s)) -> preserves I (modify f).
Proof. intros Hf s Hs. simpl. auto. Qed.

Lemma preserves_bind (A B : Type) (m : M S A) (f : A -> M S B) :
  preserves I m -> (forall a, preserves I (f a)) -> preserves I (bind m f).
Proof.
  intros Hm Hf s Hs. unfold bind. specialize (Hm s Hs).
  destruct (m s) as [[a | |] s']; simpl in *; auto. now apply Hf.
Qed.

Lemma preserves_catch (A : Type) (body handler : M S A) :
  preserves I body -> preserves I handler -> preserves I (catch body handler).
Proof.
  intros Hb Hh s Hs. unfold catch. specialize (Hb s Hs).
  destruct (body s) as [[a | |] s']; simpl in *; auto.
Qed.

Lemma preserves_forOf (A : Type) (xs : list A) (body : A -> M S control) :
  (forall x, In x xs -> preserves I (body x)) -> preserves I (forOf xs body).
Proof.
  induction xs as [| x xs IH]; intros Hb; simpl.
  - apply preserves_ret.
  - apply preserves_bind; [apply Hb; now left |].
    intros c. destruct c; [| apply preserves_ret].
    apply IH. intros y Hy. apply Hb. now right.
Qed.

Lemma finishes_ret (A : Type) (a : A) : finishes (ret (S := S) a).
Proof. intros s. discriminate. Qed.

Lemma finishes_lift (A : Type) (o : outcome A) :
  o <> OutOfFuel -> finishes (lift (S := S) o).
Proof. intros Ho s. exact Ho. Qed.

Lemma finishes_modify (f : S -> S) : finishes (modify f).
Proof. intros s. discriminate. Qed.

Lemma finishes_bind (A B : Type) (m : M S A) (f : A -> M S B) :
  finishes m -> (forall a, finishes (f a)) -> finishes (bind m f).
Proof.
  intros Hm Hf s. unfold bind. specialize (Hm s).
  destruct (m s) as [[a | |] s']; simpl in *; try discriminate; auto; apply Hf.
Qed.

Lemma finishes_catch (A : Type) (body handler : M S A) :
  finishes body -> finishes handler -> finishes (catch body handler).
Proof.
  intros Hb Hh s. unfold catch. specialize (Hb s).
  destruct (body s) as [[a | |] s']; simpl in *; try discriminate; auto; apply Hh.
Qed.

Lemma finishes_forOf (A : Type) (xs : list A) (body : A -> M S control) :
  (forall x, finishes (body x)) -> finishes (forOf xs body).
Proof.
  intros Hb. induction xs as [| x xs IH]; simpl.
  - apply finishes_ret.
  - apply finishes_bind; [apply Hb |].
    intros c. destruct c; [apply IH | apply finishes_ret].
Qed.

End Preservation.

(** ** scanCacheFiles *)

Section ScanCacheFacts.
Variable disk : node.
Variable home : pathname.
Variable sizeThreshold : Z.
Variable budget : nat.

Let reaches (cacheFiles : list entry) : Prop :=
  Forall (fun e => sizeThreshold <= size e) cacheFiles.

Lemma checkCacheChild_reaches (dir : pathname) (file : string) :
  preserves reaches (checkCacheChild disk sizeThreshold budget dir file).
Proof.
  unfold checkCacheChild. cbv zeta.
  apply preserves_bind; [apply preserves_lift |]. intros stats.
  apply preserves_bind.
  - destruct (st_isDirectory stats); [apply preserves_lift | apply preserves_ret].
  - intros sz. destruct (sizeThreshold <=? sz) eqn:Hle; [| apply preserves_ret].
    apply preserves_bind; [| intros; apply preserves_ret].
    apply preserves_modify. intros cacheFiles Hc.
    apply Forall_app. split; [assumption |].
    constructor; [| constructor]. simpl. lia.
Qed.

Lemma scanCacheRoot_reaches (dir : dirspec) :
  preserves reaches (scanCacheRoot disk home sizeThreshold budget dir).
Proof.
  unfold scanCacheRoot. cbv zeta.
  apply preserves_catch; [| apply preserves_ret].
  destruct (includesStar _).
  - destruct (negb _); [apply preserves_ret |].
    apply preserves_bind; [apply preserves_lift |]. intros items.
    apply preserves_forOf. intros item _.
    destruct (existsSync _ _); [| apply preserves_ret].
    apply preserves_bind; [apply preserves_lift |]. intros files.
    apply preserves_forOf. intros file _. apply checkCacheChild_reaches.
  - destruct (negb _); [apply preserves_ret |].
    apply preserves_bind; [apply preserves_lift |]. intros files.
    apply preserves_forOf. intros file _. apply checkCacheChild_reaches.
Qed.

Hypothesis enough : (height disk < budget)%nat.

Lemma stat_finishes (p : pathname) : stat disk p <> OutOfFuel.
Proof. unfold stat. destruct (lookup disk p) as [[| |] |]; discriminate. Qed.

Lemma readdir_finishes (p : pathname) : readdir disk p <> OutOfFuel.
Proof. unfold readdir. destruct (lookup disk p) as [[| [|] |] |]; discriminate. Qed.

Lemma checkCacheChild_finishes (dir : pathname) (file : string) :
  finishes (checkCacheChild disk sizeThreshold budget dir file).
Proof.
  unfold checkCacheChild. cbv zeta.
  apply finishes_bind; [apply finishes_lift, stat_finishes |]. intros stats.
  apply finishes_bind.
  - destruct (st_isDirectory stats); [| apply finishes_ret].
    apply finishes_lift.
    destruct (getFileSizeRecursive_terminates budget disk (join dir file) enough)
      as [sz ->].
    discriminate.
  - intros sz. destruct (sizeThreshold <=? sz); [| apply finishes_ret].
    apply finishes_bind; [apply finishes_modify | intros; apply finishes_ret].
Qed.

Lemma scanCacheRoot_finishes (dir : dirspec) :
  finishes (scanCacheRoot disk home sizeThreshold budget dir).
Proof.
  unfold scanCacheRoot. cbv zeta.
  apply finishes_catch; [| apply finishes_ret].
  destruct (includesStar _).
  - destruct (negb _); [apply finishes_ret |].
    apply finishes_bind; [apply finishes_lift, readdir_finishes |]. intros items.
    apply finishes_forOf. intros item.
    destruct (existsSync _ _); [| apply finishes_ret].
    apply finishes_bind; [apply finishes_lift, readdir_finishes |]. intros files.
    apply finishes_forOf. intros file. apply checkCacheChild_finishes.
  - destruct (negb _); [apply finishes_ret |].
    apply finishes_bind; [apply finishes_lift, readdir_finishes |]. intros files.
    apply finishes_forOf. intros file. apply checkCacheChild_finishes.
Qed.

Lemma scanCacheFilesIn_reaches (roots : list dirspec) :
  exists cacheFiles,
    scanCacheFilesIn disk home sizeThreshold budget roots = Val cacheFiles
    /\ Forall (fun e => sizeThreshold <= size e) cacheFiles.
Proof.
  unfold scanCacheFilesIn, catch, bind, gets, ret.
  pose proof (preserves_forOf reaches _ roots
                (scanCacheRoot disk home sizeThreshold budget)
                (fun x _ => scanCacheRoot_reaches x) [] (Forall_nil _)) as Hp.
  pose proof (finishes_forOf _ roots
                (scanCacheRoot disk home sizeThreshold budget)
                scanCacheRoot_finishes []) as Hf.
  destruct (forOf roots _ []) as [[c | |] s]; simpl in *.
  - eauto.
  - exists []. split; [reflexivity | constructor].
  - congruence.
Qed.

End ScanCacheFacts.

(** ** What the two scanners return *)

Lemma shape_emitted_reach (disk : node) (sizeThreshold : Z) (budget : nat)
    (dir : pathname) (tr : list event) :
  shape disk sizeThreshold budget dir tr ->
  Forall (fun e => sizeThreshold <= size e) (emitted tr).
Proof.
  intros (_ & HM & _). apply Forall_forall. intros e He.
  apply In_emitted in He. destruct (HM e He) as (d & file & _ & _ & _ & Hle & _).
  exact Hle.
Qed.

(** C2.  With a recursion budget above the height of the disk, both
    scanners return, and every entry that findLargeFiles or scanCacheFiles
    returns has a size at or above the threshold given to it. *)
Theorem emitted_entries_reach_threshold
    (fuel : nat) (disk : node) (home : pathname) (directory : dirspec)
    (listLimit sizeThreshold : Z) :
  (height disk < fuel)%nat ->
  (exists rs,
      findLargeFiles fuel disk home directory listLimit sizeThreshold = Val rs
      /\ Forall (fun e => sizeThreshold <= size e) rs)
  /\ (exists rs,
         scanCacheFiles fuel disk home sizeThreshold = Val rs
         /\ Forall (fun e => sizeThreshold <= size e) rs).
Proof.
  intros Hh. split.
  - destruct (findLargeFiles_returns fuel disk home directory listLimit
                sizeThreshold Hh) as (st & Hscan & _ & Hret).
    exists (results st). split; [assumption |].
    apply scanDir_shape in Hscan. destruct Hscan as (tr & -> & Hsh & _).
    rewrite initial_extend. simpl. eapply shape_emitted_reach; eauto.
  - now apply scanCacheFilesIn_reaches.
Qed.

(** C10.  With a recursion budget above the height of the disk,
    findLargeFiles returns, and the path of every entry it returns lies
    strictly below the expanded root directory: the root itself is never
    among the entries, whatever its size. *)
Theorem root_is_never_emitted
    (fuel : nat) (disk : node) (home : pathname) (directory : dirspec)
    (listLimit sizeThreshold : Z) :
  (height disk < fuel)%nat ->
  exists rs,
    findLargeFiles fuel disk home directory listLimit sizeThreshold = Val rs
    /\ forall e, In e rs ->
         strictly_below (expandHome home directory) (path e)
         /\ path e <> expandHome home directory.
Proof.
  intros Hh.
  destruct (findLargeFiles_returns fuel disk home directory listLimit
              sizeThreshold Hh) as (st & Hscan & _ & Hret).
  exists (results st). split; [assumption |].
  apply scanDir_shape in Hscan. destruct Hscan as (tr & -> & Hsh & _).
  rewrite initial_extend. simpl. intros e He. apply In_emitted in He.
  destruct Hsh as (_ & HM & _).
  destruct (HM e He) as (d & file & Hpath & Hbelow & _).
  assert (strictly_below (expandHome home directory) (path e)) as Hsb.
  { rewrite Hpath. eapply strictly_below_trans_r; [exact Hbelow |].
    apply strictly_below_join. }
  split; [assumption |].
  intros Heq. rewrite Heq in Hsb. now apply strictly_below_irrefl in Hsb.
Qed.

(** C4.  With a recursion budget above the height of the disk,
    findLargeFiles returns, and for every directory among the entries: no
    other entry lies strictly below it, and scanDir was never called on it
    (it does not occur as [Enter] in the trace). *)
Theorem emitted_directory_is_not_descended
    (fuel : nat) (disk : node) (home : pathname) (directory : dirspec)
    (listLimit sizeThreshold : Z) :
  (height disk < fuel)%nat ->
  exists st,
    findLargeFiles_run fuel disk home directory listLimit sizeThreshold
    = (Val (results st), st)
    /\ findLargeFiles fuel disk home directory listLimit sizeThreshold
       = Val (results st)
    /\ forall e1, In e1 (results st) -> isDirectory e1 = true ->
         ~ In (Enter (path e1)) (trace st)
         /\ forall e2, In e2 (results st) -> ~ strictly_below (path e1) (path e2).
Proof.
  intros Hh.
  destruct (findLargeFiles_returns fuel disk home directory listLimit
              sizeThreshold Hh) as (st & Hscan & Hrun & Hret).
  exists st. split; [assumption |]. split; [assumption |].
  apply scanDir_shape in Hscan. destruct Hscan as (tr & -> & Hsh & _).
  rewrite initial_extend. simpl.
  destruct Hsh as (HE & HM & _ & HA).
  intros e1 He1 Hdir. apply In_emitted in He1.
  destruct (HM e1 He1) as (d1 & f1 & Hp1 & Hb1 & _ & Hle1 & Hm1).
  specialize (Hm1 Hdir).
  assert (~ In (Enter (path e1)) tr) as Hnot.
  { intros Hin. destruct (HE _ Hin) as [Heq | (_ & _ & s & Hs & Hlt)].
    - assert (strictly_below (expandHome home directory) (path e1)) as Hsb.
      { rewrite Hp1. eapply strictly_below_trans_r; [exact Hb1 |].
        apply strictly_below_join. }
      rewrite Heq in Hsb. now apply strictly_below_irrefl in Hsb.
    - rewrite Hm1 in Hs. injection Hs as <-. lia. }
  split; [assumption |].
  intros e2 He2 Hsb. apply In_emitted in He2.
  destruct (HM e2 He2) as (d2 & f2 & Hp2 & Hb2 & Hin2 & _).
  apply Hnot. apply (HA d2 (path e1) Hin2).
  - rewrite Hp1. eapply below_trans; [exact Hb1 |].
    apply strictly_below_below, strictly_below_join.
  - rewrite Hp2 in Hsb. now apply strictly_below_join_inv in Hsb.
Qed.

(** *** The cap *)

Lemma findLargeFiles_capped (fuel : nat) (disk : node) (home : pathname)
    (directory : dirspec) (listLimit sizeThreshold : Z) (rs : list entry)
    (st : scan_state) :
  well_formed disk = true ->
  findLargeFiles_run fuel disk home directory listLimit sizeThreshold = (Val rs, st) ->
  rs = results st /\
  done listLimit (expandHome home directory) st /\
  exists tr, st = mkScan (emitted tr) tr
             /\ shape disk sizeThreshold fuel (expandHome home directory) tr.
Proof.
  intros Hwf Hrun. apply well_formed_parts in Hwf. destruct Hwf as [Hd Hn].
  apply findLargeFiles_run_inv in Hrun. destruct Hrun as [Hscan ->].
  split; [reflexivity |]. split.
  - eapply scanDir_capped; eauto.
  - apply scanDir_shape in Hscan. destruct Hscan as (tr & -> & Hsh & _).
    exists tr. now rewrite initial_extend.
Qed.

(** C3, as the code has it.  On a well-formed disk, with a recursion budget
    above its height, findLargeFiles returns at most [listLimit] entries
    when [listLimit] is at least 1, and at most one entry otherwise (the
    cap is checked only after a push); and nothing is visited, measured,
    entered or pushed after the push that brings the count to
    [listLimit]. *)
Theorem result_count_is_capped
    (fuel : nat) (disk : node) (home : pathname) (directory : dirspec)
    (listLimit sizeThreshold : Z) :
  well_formed disk = true ->
  (height disk < fuel)%nat ->
  exists st,
    findLargeFiles_run fuel disk home directory listLimit sizeThreshold
    = (Val (results st), st)
    /\ findLargeFiles fuel disk home directory listLimit sizeThreshold
       = Val (results st)
    /\ Z.of_nat (length (results st)) <= Z.max 1 listLimit
    /\ results st = emitted (trace st)
    /\ stops_at_cap listLimit (trace st).
Proof.
  intros Hwf Hh.
  destruct (findLargeFiles_returns fuel disk home directory listLimit
              sizeThreshold Hh) as (st & _ & Hrun & Hret).
  exists st. split; [assumption |]. split; [assumption |].
  destruct (findLargeFiles_capped _ _ _ _ _ _ _ _ Hwf Hrun)
    as (_ & (H1 & H2 & H3 & _) & _).
  auto.
Qed.

(** C3 as stated fails for a cap of 0: the scan of [~/Documents] still
    returns one entry. *)
Lemma cap_of_zero_is_exceeded :
  exists rs,
    findLargeFiles 6 example_disk example_home (HomeRel ["Documents"]) 0 GB = Val rs
    /\ ~ Z.of_nat (length rs) <= 0.
Proof.
  eexists. split; [vm_compute; reflexivity |]. simpl. lia.
Qed.

(** *** Directories below the threshold *)




(** C6 at a failing input.  [~/Library/Caches] lists the dangling link
    [abandoned] before [blob], a file of 1 GiB that can be statted.  With
    a threshold of 0.5 GiB the scan returns the entries of the two later
    roots but not [blob]: the failure of [stat] on [abandoned] ends the
    loop over the whole directory.  With a dangling link that is listed
    after [blob] instead, [blob] is returned. *)
Theorem cache_root_is_abandoned_at_failing_child :
  scanCacheFiles 6 example_disk example_home (GB / 2)
  = Val [ mkEntry ["Users"; "me"; "Library"; "Logs"; "old.log"] (GB / 2) false;
          mkEntry ["Library"; "Caches"; "shared"] GB false ]
  /\ stat example_disk ["Users"; "me"; "Library"; "Caches"; "blob"]
     = Val (mkStats false GB)
  /\ GB / 2 <= GB
  /\ scanCacheFilesIn
       (Dir true true
          [ ("Users", Dir true true
               [ ("me", Dir true true
                    [ ("Library", Dir true true
                         [ ("Caches", Dir true true
                              [ ("blob", File GB); ("stale", Broken) ]) ]) ]) ]) ])
       example_home (GB / 2) 6 cacheDirs
     = Val [ mkEntry ["Users"; "me"; "Library"; "Caches"; "blob"] GB false ].
Proof.
  repeat split; try (vm_compute; reflexivity).
  vm_compute. discriminate.
Qed.

(** ** Removing paths *)

(** Whether a removal throws, and the disk it leaves when it does not. *)
Lemma removePath_unfold (disk : node) (file : pathname) :
  removePath disk file =
  match lookup disk file with
  | Some (File _) =>
      match detach disk file with
      | Some d => Val d
      | None => Exn
      end
  | Some (Dir r w es) =>
      if removable (Dir r w es) then
        match detach disk file with
        | Some d => Val d
        | None => Exn
        end
      else Exn
  | _ => Exn
  end.
Proof.
  unfold removePath, removeOne, stat, rm, unlink, attempt.
  destruct (lookup disk file) as [[z | r w es |] |]; cbn [st_isDirectory];
    try reflexivity.
  - destruct (detach disk file); reflexivity.
  - destruct (removable (Dir r w es)); [| reflexivity].
    destruct (detach disk file); reflexivity.
Qed.

Lemma removeOne_cases (sofar : interruption) (disk : node) (file : pathname) :
  removeOne sofar disk file =
  match removePath disk file with
  | Val d => (Val tt, d)
  | _ => (Exn, afterFailure sofar disk file)
  end.
Proof.
  rewrite removePath_unfold. unfold afterFailure, removeOne, stat, rm, unlink, attempt.
  destruct (lookup disk file) as [[z | r w es |] |]; cbn [st_isDirectory];
    try reflexivity.
  - destruct (detach disk file); reflexivity.
  - destruct (removable (Dir r w es)); [| reflexivity].
    destruct (detach disk file); reflexivity.
Qed.

(** What a removal that throws leaves: the disk as it was, or the disk
    without some of what was inside the directory. *)
Lemma afterFailure_cases (sofar : interruption) (disk : node) (file : pathname) :
  removePath disk file = Exn ->
  afterFailure sofar disk file = disk
  \/ afterFailure sofar disk file = prune disk (within file (sofar disk file)).
Proof.
  rewrite removePath_unfold. unfold afterFailure, removeOne, stat, rm, unlink, attempt.
  destruct (lookup disk file) as [[z | r w es |] |]; cbn [st_isDirectory snd];
    auto.
  - destruct (detach disk file); [discriminate | auto].
  - destruct (removable (Dir r w es)); [| auto].
    destruct (detach disk file); [discriminate | auto].
Qed.

Lemma deleteOne_unfold (sofar : interruption) (file : pathname) (w : world) :
  deleteOne sofar file w =
  match removePath (fsys w) file with
  | Val d => (Val Next, mkWorld d (S (deletedCount w)) (errorCount w) (console w))
  | _ =>
      (Val Next,
       mkWorld (afterFailure sofar (fsys w) file) (deletedCount w) (S (errorCount w))
         (console w ++ [ErrorDeleting file]))
  end.
Proof.
  unfold deleteOne, catch, bind, statM, onDisk, modify, print, ret.
  pose proof (removeOne_cases sofar (fsys w) file) as Hcases.
  unfold afterFailure in *. unfold removeOne in *.
  destruct (stat (fsys w) file) as [stats | |] eqn:Hs.
  - destruct (st_isDirectory stats).
    + rewrite Hcases. destruct (removePath (fsys w) file); reflexivity.
    + rewrite Hcases. destruct (removePath (fsys w) file); reflexivity.
  - destruct (removePath (fsys w) file); [discriminate | reflexivity | reflexivity].
  - exfalso. unfold stat in Hs.
    destruct (lookup (fsys w) file) as [[z | r w0 es |] |]; discriminate.
Qed.

Lemma removePath_finishes (disk : node) (file : pathname) :
  removePath disk file <> OutOfFuel.
Proof.
  rewrite removePath_unfold.
  destruct (lookup disk file) as [[z | r w es |] |]; try discriminate.
  - destruct (detach disk file); discriminate.
  - destruct (removable (Dir r w es)); [| discriminate].
    destruct (detach disk file); discriminate.
Qed.

Lemma assoc_removeEntry_same (x : string) (es : list (string * node)) :
  assoc x (removeEntry x es) = None.
Proof.
  induction es as [| [y c] es IH]; simpl; [reflexivity |].
  destruct (String.eqb x y) eqn:E; [assumption |]. simpl. now rewrite E.
Qed.

Lemma assoc_removeEntry_other (x y : string) (es : list (string * node)) :
  x <> y -> assoc y (removeEntry x es) = assoc y es.
Proof.
  intros Hne. induction es as [| [z c] es IH]; simpl; [reflexivity |].
  destruct (String.eqb_spec x z) as [<- | Hxz].
  - destruct (String.eqb_spec y x) as [-> | _]; [contradiction | assumption].
  - simpl. now rewrite IH.
Qed.

Lemma assoc_replaceEntry_same (x : string) (c c' : node) (es : list (string * node)) :
  assoc x es = Some c -> assoc x (replaceEntry x c' es) = Some c'.
Proof.
  induction es as [| [y d] es IH]; simpl; [discriminate |].
  destruct (String.eqb x y) eqn:E; simpl; rewrite E; auto.
Qed.

Lemma assoc_replaceEntry_other (x y : string) (c' : node) (es : list (string * node)) :
  x <> y -> assoc y (replaceEntry x c' es) = assoc y es.
Proof.
  intros Hne. induction es as [| [z c] es IH]; simpl; [reflexivity |].
  destruct (String.eqb_spec x z) as [<- | Hxz]; simpl.
  - destruct (String.eqb_spec y x) as [-> | _]; [contradiction | reflexivity].
  - now rewrite IH.
Qed.

Lemma below_cons (x y : string) (p q : pathname) :
  below (x :: p) (y :: q) <-> x = y /\ below p q.
Proof.
  split.
  - intros [r H]. injection H as -> ->. split; [reflexivity | now exists r].
  - intros [-> [r ->]]. now exists r.
Qed.

Lemma below_nil (p : pathname) : below [] p.
Proof. now exists p. Qed.

Lemma unrelated_cons (x : string) (p q : pathname) :
  unrelated (x :: p) (x :: q) -> unrelated p q.
Proof. unfold unrelated. rewrite !below_cons. tauto. Qed.

Lemma unrelated_sym (p q : pathname) : unrelated p q -> unrelated q p.
Proof. unfold unrelated. tauto. Qed.

(** What has been taken out is no longer there. *)
Lemma detach_absent (n n' : node) (p : pathname) :
  detach n p = Some n' -> lookup n' p = None.
Proof.
  revert n n'. induction p as [| x p IH]; intros n n'; simpl; [discriminate |].
  destruct n as [z | r w es |]; try discriminate.
  destruct (assoc x es) as [c |] eqn:Ha; [| discriminate].
  destruct p as [| y p].
  - destruct w; [| discriminate]. intros [= <-]. simpl.
    now rewrite assoc_removeEntry_same.
  - destruct (detach c (y :: p)) as [c' |] eqn:Hc; [| discriminate].
    intros [= <-]. cbn [lookup].
    rewrite (assoc_replaceEntry_same _ _ _ _ Ha). now apply IH in Hc.
Qed.

(** What was not there does not appear. *)
Lemma detach_keeps_absent (n n' : node) (p q : pathname) :
  detach n p = Some n' -> lookup n q = None -> lookup n' q = None.
Proof.
  revert n n' q. induction p as [| x p IH]; intros n n' q; simpl; [discriminate |].
  destruct n as [z | r w es |]; try discriminate.
  destruct (assoc x es) as [c |] eqn:Ha; [| discriminate].
  destruct q as [| y q]; [discriminate |].
  destruct p as [| x' p].
  - destruct w; [| discriminate]. intros [= <-]. simpl.
    destruct (String.eqb_spec x y) as [<- | Hne].
    + now rewrite assoc_removeEntry_same.
    + now rewrite assoc_removeEntry_other.
  - destruct (detach c (x' :: p)) as [c' |] eqn:Hc; [| discriminate].
    intros [= <-]. cbn [lookup].
    destruct (String.eqb_spec x y) as [<- | Hne].
    + rewrite (assoc_replaceEntry_same _ _ _ _ Ha), Ha. eauto.
    + now rewrite assoc_replaceEntry_other.
Qed.

(** An unrelated path resolves as before. *)
Lemma detach_lookup_unrelated (n n' : node) (p q : pathname) :
  detach n p = Some n' -> unrelated p q -> lookup n' q = lookup n q.
Proof.
  revert n n' q. induction p as [| x p IH]; intros n n' q; simpl; [discriminate |].
  destruct n as [z | r w es |]; try discriminate.
  destruct (assoc x es) as [c |] eqn:Ha; [| discriminate].
  destruct q as [| y q]; [intros _ [_ H]; exfalso; apply H, below_nil |].
  destruct p as [| x' p].
  - destruct w; [| discriminate]. intros [= <-] [Hpq _]. simpl.
    destruct (String.eqb_spec x y) as [<- | Hne].
    + exfalso. apply Hpq. apply below_cons. split; [reflexivity | apply below_nil].
    + now rewrite assoc_removeEntry_other.
  - destruct (detach c (x' :: p)) as [c' |] eqn:Hc; [| discriminate].
    intros [= <-] Hun. cbn [lookup].
    destruct (String.eqb_spec x y) as [<- | Hne].
    + rewrite (assoc_replaceEntry_same _ _ _ _ Ha), Ha.
      apply IH; [assumption | now apply unrelated_cons in Hun].
    + now rewrite assoc_replaceEntry_other.
Qed.

(** An unrelated path can still be taken out. *)
Lemma detach_unrelated_still (n n1 n2 : node) (p q : pathname) :
  detach n p = Some n1 -> unrelated p q -> detach n q = Some n2 ->
  exists n3, detach n1 q = Some n3.
Proof.
  revert n n1 n2 q. induction p as [| x p IH]; intros n n1 n2 q; simpl;
    [discriminate |].
  destruct n as [z | r w es |]; try discriminate.
  destruct (assoc x es) as [c |] eqn:Ha; [| discriminate].
  destruct q as [| y q]; [intros _ _; discriminate |].
  intros Hp Hun Hq.
  assert (exists es1, n1 = Dir r w es1 /\
            (x <> y -> assoc y es1 = assoc y es) /\
            (x = y -> exists x' p' c', p = x' :: p' /\ detach c p = Some c'
                                       /\ assoc y es1 = Some c')) as Hn1.
  { destruct p as [| x' p].
    - destruct w; [| discriminate]. injection Hp as <-.
      eexists. split; [reflexivity |]. split.
      + intros Hne. now apply assoc_removeEntry_other.
      + intros <-. exfalso. destruct Hun as [Hpq _]. apply Hpq.
        apply below_cons. split; [reflexivity | apply below_nil].
    - destruct (detach c (x' :: p)) as [c' |] eqn:Hc; [| discriminate].
      injection Hp as <-. eexists. split; [reflexivity |]. split.
      + intros Hne. now apply assoc_replaceEntry_other.
      + intros <-. exists x', p, c'. repeat split.
        now apply assoc_replaceEntry_same with (c := c). }
  destruct Hn1 as (es1 & -> & Hother & Hsame).
  cbn [detach] in Hq |- *.
  destruct (String.eqb_spec x y) as [<- | Hne].
  - destruct (Hsame eq_refl) as (x' & p' & c' & -> & Hc & Ha1).
    rewrite Ha in Hq. rewrite Ha1.
    destruct q as [| y' q].
    + exfalso. destruct Hun as [_ Hqp]. apply Hqp.
      apply below_cons. split; [reflexivity | apply below_nil].
    + destruct (detach c (y' :: q)) as [c2 |] eqn:Hc2; [| discriminate].
      apply unrelated_cons in Hun.
      destruct (IH _ _ _ _ Hc Hun Hc2) as [c3 ->]. eauto.
  - rewrite (Hother Hne).
    destruct (assoc y es) as [c2 |]; [| discriminate].
    destruct q as [| y' q].
    + destruct w; [eauto | discriminate].
    + destruct (detach c2 (y' :: q)); [eauto | discriminate].
Qed.

Lemma removePath_inv (disk d' : node) (p : pathname) :
  removePath disk p = Val d' ->
  detach disk p = Some d' /\ exists n, lookup disk p = Some n.
Proof.
  rewrite removePath_unfold.
  destruct (lookup disk p) as [[z | r w es |] |]; try discriminate.
  - destruct (detach disk p); simpl; [| discriminate]. intros [= <-]. eauto.
  - destruct (removable (Dir r w es)); [| discriminate].
    destruct (detach disk p); simpl; [| discriminate]. intros [= <-]. eauto.
Qed.

Lemma removePath_absent (disk : node) (p : pathname) :
  lookup disk p = None -> removePath disk p = Exn.
Proof. intros H. rewrite removePath_unfold. now rewrite H. Qed.

Lemma removePath_unrelated_still (disk d1 d2 : node) (p q : pathname) :
  removePath disk p = Val d1 -> unrelated p q -> removePath disk q = Val d2 ->
  exists d3, removePath d1 q = Val d3.
Proof.
  intros Hp Hun Hq. apply removePath_inv in Hp. destruct Hp as [Hp _].
  pose proof (detach_lookup_unrelated _ _ _ _ Hp Hun) as Hl.
  pose proof (fun n2 => detach_unrelated_still _ _ n2 _ _ Hp Hun) as Hd.
  revert Hq. rewrite !removePath_unfold. rewrite Hl.
  destruct (lookup disk q) as [[z | r w es |] |]; try discriminate.
  - destruct (detach disk q) as [n2 |]; simpl; [| discriminate].
    destruct (Hd n2 eq_refl) as [n3 ->]. simpl. eauto.
  - destruct (removable (Dir r w es)); [| discriminate].
    destruct (detach disk q) as [n2 |]; simpl; [| discriminate].
    destruct (Hd n2 eq_refl) as [n3 ->]. simpl. eauto.
Qed.

(** Of two paths above one path, one is above the other. *)
Lemma below_comparable (a b c : pathname) :
  below a c -> below b c -> below a b \/ below b a.
Proof.
  revert b c. induction a as [| x a IH]; intros b c Ha Hb.
  - left. apply below_nil.
  - destruct b as [| y b]; [right; apply below_nil |].
    destruct c as [| z c].
    + destruct Ha as [r Hr]. discriminate.
    + apply below_cons in Ha. apply below_cons in Hb.
      destruct Ha as [-> Ha]. destruct Hb as [-> Hb].
      destruct (IH b c Ha Hb) as [H | H]; [left | right];
        apply below_cons; auto.
Qed.

Lemma unrelated_inside (p q r : pathname) : unrelated p q -> unrelated (p ++ r) q.
Proof.
  intros [Hpq Hqp]. split.
  - intros H. apply Hpq. apply (below_trans p (p ++ r) q); [now exists r | assumption].
  - intros H.
    destruct (below_comparable p q (p ++ r)) as [H1 | H1]; auto.
    now exists r.
Qed.

Lemma In_within (p q : pathname) (rs : list pathname) :
  In q (within p rs) -> exists r, r <> [] /\ q = p ++ r.
Proof.
  unfold within. intros H. apply in_map_iff in H. destruct H as (r & <- & Hr).
  apply filter_In in Hr. destruct Hr as [_ Hr].
  exists r. split; [| reflexivity]. now destruct r.
Qed.

(** What every removal of an entry keeps true is true after pruning. *)
Lemma prune_invariant (I : node -> Prop) (paths : list pathname) (disk : node) :
  (forall d q d', I d -> In q paths -> detach d q = Some d' -> I d') ->
  I disk -> I (prune disk paths).
Proof.
  revert disk. induction paths as [| q paths IH]; intros disk Hstep Hd; simpl;
    [assumption |].
  destruct (detach disk q) as [d |] eqn:Hq.
  - apply IH; [| eapply Hstep; eauto; now left].
    intros d0 q0 d' H0 Hin. apply Hstep; [assumption | now right].
  - apply IH; [| assumption].
    intros d0 q0 d' H0 Hin. apply Hstep; [assumption | now right].
Qed.

Lemma afterFailure_absent (sofar : interruption) (disk : node) (file : pathname) :
  lookup disk file = None -> afterFailure sofar disk file = disk.
Proof.
  intros H. unfold afterFailure, removeOne, stat. now rewrite H.
Qed.

Lemma afterFailure_keeps_absent (sofar : interruption) (disk : node)
    (file q : pathname) :
  removePath disk file = Exn ->
  lookup disk q = None -> lookup (afterFailure sofar disk file) q = None.
Proof.
  intros Hf Hq.
  destruct (afterFailure_cases sofar disk file Hf) as [-> | ->]; [assumption |].
  apply (prune_invariant (fun d => lookup d q = None)); [| assumption].
  intros d p d' Hd _ Hp. eapply detach_keeps_absent; eauto.
Qed.

Lemma afterFailure_unrelated (sofar : interruption) (disk : node)
    (file q : pathname) :
  removePath disk file = Exn ->
  unrelated file q ->
  lookup (afterFailure sofar disk file) q = lookup disk q.
Proof.
  intros Hf Hun.
  destruct (afterFailure_cases sofar disk file Hf) as [-> | ->]; [reflexivity |].
  apply (prune_invariant (fun d => lookup d q = lookup disk q)); [| reflexivity].
  intros d p d' Hd Hin Hp. rewrite <- Hd.
  apply In_within in Hin. destruct Hin as (r & _ & ->).
  eapply detach_lookup_unrelated; eauto. now apply unrelated_inside.
Qed.

Section Removal.
Variable sofar : interruption.

Local Abbreviation deleteOne := (deleteOne sofar).
Local Abbreviation deleteFiles := (deleteFiles sofar).
Local Abbreviation afterFailure := (afterFailure sofar).

Lemma forOf_deleteOne_cons (file : pathname) (rest : list pathname) (w : world) :
  forOf (file :: rest) deleteOne w =
  match removePath (fsys w) file with
  | Val d =>
      forOf rest deleteOne
        (mkWorld d (S (deletedCount w)) (errorCount w) (console w))
  | _ =>
      forOf rest deleteOne
        (mkWorld (afterFailure (fsys w) file) (deletedCount w) (S (errorCount w))
           (console w ++ [ErrorDeleting file]))
  end.
Proof.
  rewrite forOf_cons, deleteOne_unfold.
  destruct (removePath (fsys w) file); reflexivity.
Qed.

(** The loop of lines 248-261 goes through the whole selection. *)
Lemma deleteLoop_counts (files : list pathname) (w : world) :
  exists w',
    forOf files deleteOne w = (Val Next, w')
    /\ (deletedCount w' + errorCount w'
        = deletedCount w + errorCount w + length files)%nat.
Proof.
  revert w. induction files as [| file files IH]; intros w.
  - exists w. split; [reflexivity | simpl; lia].
  - rewrite forOf_deleteOne_cons.
    destruct (removePath (fsys w) file) as [d | |] eqn:Hr.
    + destruct (IH (mkWorld d (S (deletedCount w)) (errorCount w) (console w)))
        as (w' & -> & Hc).
      exists w'. split; [reflexivity | simpl in *; lia].
    + destruct (IH (mkWorld (afterFailure (fsys w) file) (deletedCount w)
                      (S (errorCount w)) (console w ++ [ErrorDeleting file])))
        as (w' & -> & Hc).
      exists w'. split; [reflexivity | simpl in *; lia].
    + now apply removePath_finishes in Hr.
Qed.

Lemma deleteLoop_keeps_absent (files : list pathname) (w w' : world) (o : outcome control)
    (q : pathname) :
  forOf files deleteOne w = (o, w') ->
  lookup (fsys w) q = None -> lookup (fsys w') q = None.
Proof.
  revert w. induction files as [| file files IH]; intros w.
  - simpl. unfold ret. now intros [= _ <-].
  - rewrite forOf_deleteOne_cons.
    destruct (removePath (fsys w) file) as [d | |] eqn:Hr.
    + intros Hrest Hq. apply (IH _ Hrest). simpl.
      apply removePath_inv in Hr. destruct Hr as [Hr _].
      eapply detach_keeps_absent; eauto.
    + intros Hrest Hq. apply (IH _ Hrest). simpl.
      now apply afterFailure_keeps_absent.
    + now apply removePath_finishes in Hr.
Qed.

Lemma filter_length_ext (A : Type) (f g : A -> bool) (l : list A) :
  (forall x, In x l -> f x = g x) -> length (filter f l) = length (filter g l).
Proof.
  intros H. now rewrite (filter_ext_in f g l H).
Qed.

(** On a selection of unrelated paths, each of which is gone or can be
    removed: the paths that are gone fail, the others are removed. *)
Lemma deleteLoop_unrelated (files : list pathname) (w : world) :
  ForallOrdPairs unrelated files ->
  (forall p, In p files ->
     lookup (fsys w) p = None \/ exists d', removePath (fsys w) p = Val d') ->
  exists w',
    forOf files deleteOne w = (Val Next, w')
    /\ (forall p, In p files -> lookup (fsys w') p = None)
    /\ errorCount w'
       = (errorCount w + length (filter (absent (fsys w)) files))%nat
    /\ deletedCount w'
       = (deletedCount w + length (filter (fun p => negb (absent (fsys w) p)) files))%nat.
Proof.
  revert w. induction files as [| file files IH]; intros w Hun Hok.
  - exists w. repeat split; simpl; try lia; try tauto.
  - inversion Hun as [| ? ? Hfile Hrest]; subst.
    rewrite Forall_forall in Hfile.
    rewrite forOf_deleteOne_cons. cbn [filter].
    destruct (Hok file (or_introl eq_refl)) as [Hgone | [d Hd]].
    + rewrite (removePath_absent _ _ Hgone).
      rewrite (afterFailure_absent sofar _ _ Hgone).
      destruct (IH (mkWorld (fsys w) (deletedCount w) (S (errorCount w))
                      (console w ++ [ErrorDeleting file])) Hrest)
        as (w' & Hloop & Hall & He & Hdel).
      { intros p Hp. apply Hok. now right. }
      exists w'. split; [assumption |]. simpl in *.
      assert (absent (fsys w) file = true) as Hab
        by (unfold absent; now rewrite Hgone).
      rewrite Hab. simpl.
      repeat split; try lia.
      intros p [<- | Hp]; [| auto].
      eapply deleteLoop_keeps_absent; eauto.
    + rewrite Hd.
      assert (forall p, In p files ->
                lookup d p = lookup (fsys w) p) as Hsame.
      { intros p Hp. apply removePath_inv in Hd. destruct Hd as [Hd _].
        eapply detach_lookup_unrelated; eauto. }
      destruct (IH (mkWorld d (S (deletedCount w)) (errorCount w) (console w)) Hrest)
        as (w' & Hloop & Hall & He & Hdel).
      { intros p Hp. simpl. rewrite (Hsame p Hp).
        destruct (Hok p (or_intror Hp)) as [Hg | [d2 Hd2]]; [now left | right].
        eapply removePath_unrelated_still; eauto. }
      exists w'. split; [assumption |]. simpl in *.
      assert (absent (fsys w) file = false) as Hpresent.
      { unfold absent. apply removePath_inv in Hd.
        destruct Hd as [_ [n ->]]. reflexivity. }
      rewrite Hpresent. simpl.
      rewrite (filter_length_ext _ (absent d) (absent (fsys w))) in He
        by (intros p Hp; unfold absent; now rewrite Hsame).
      rewrite (filter_length_ext _ (fun p => negb (absent d p))
                 (fun p => negb (absent (fsys w) p))) in Hdel
        by (intros p Hp; unfold absent; now rewrite Hsame).
      repeat split; try lia.
      intros p [<- | Hp]; [| auto].
      eapply deleteLoop_keeps_absent; eauto. simpl.
      apply removePath_inv in Hd. destruct Hd as [Hd _].
      eapply detach_absent; eauto.
Qed.

Lemma unrelated_NoDup (files : list pathname) :
  ForallOrdPairs unrelated files -> NoDup files.
Proof.
  induction 1 as [| p files Hp _ IH]; constructor; [| assumption].
  intros Hin. rewrite Forall_forall in Hp.
  destruct (Hp p Hin) as [H _]. apply H, below_refl.
Qed.

Lemma filter_single (A : Type) (f : A -> bool) (l : list A) (g : A) :
  NoDup l -> In g l -> (forall x, In x l -> (f x = true <-> x = g)) ->
  length (filter f l) = 1%nat /\ length (filter (fun x => negb (f x)) l) = (length l - 1)%nat.
Proof.
  induction l as [| a l IH]; intros Hnd Hin Hf; [contradiction |].
  inversion Hnd as [| ? ? Ha Hnd']; subst. simpl.
  destruct Hin as [-> | Hin].
  - assert (f g = true) as -> by (apply Hf; [now left | reflexivity]).
    simpl.
    assert (forall x, In x l -> f x = false) as Hnone.
    { intros x Hx. destruct (f x) eqn:E; [| reflexivity].
      apply Hf in E; [| now right]. subst. contradiction. }
    rewrite (filter_ext_in f (fun _ => false) l Hnone).
    rewrite (filter_ext_in (fun x => negb (f x)) (fun _ => true) l)
      by (intros x Hx; now rewrite Hnone).
    clear. split.
    + induction l; simpl; auto.
    + rewrite Nat.sub_0_r. f_equal. induction l; simpl; congruence.
  - assert (f a = false) as ->.
    { destruct (f a) eqn:E; [| reflexivity].
      apply Hf in E; [| now left]. subst. contradiction. }
    simpl. destruct (IH Hnd' Hin) as [H1 H2].
    { intros x Hx. apply Hf. now right. }
    split; [assumption |]. rewrite H2.
    destruct l; [contradiction | simpl; lia].
Qed.

(** ** deleteFiles *)

Lemma deleteFiles_confirmed (files : list pathname) (w w1 : world) (c : control) :
  files <> [] ->
  forOf files deleteOne (mkWorld (fsys w) 0 0 (console w)) = (Val c, w1) ->
  deleteFiles true files w =
  (Val tt,
   mkWorld (fsys w1) (deletedCount w1) (errorCount w1)
     (console w1 ++ [DeletedItems (deletedCount w1) (errorCount w1)])).
Proof.
  intros Hne Hloop. unfold deleteFiles.
  destruct files as [| file files]; [contradiction |].
  cbn [length Nat.eqb negb]. unfold bind at 1, modify at 1.
  unfold bind at 1. rewrite Hloop. reflexivity.
Qed.
End Removal.

(** C7.  When the selection is empty or the operator answers no,
    deleteFiles returns with the disk it started with, and has printed that
    no file was selected, or that the operation was cancelled, and nothing
    else. *)
Theorem declined_deletion_leaves_disk_unchanged
    (sofar : interruption) (confirm : bool) (files : list pathname) (w : world) :
  files = [] \/ confirm = false ->
  exists w',
    deleteFiles sofar confirm files w = (Val tt, w')
    /\ fsys w' = fsys w
    /\ console w' =
       console w ++ [match files with
                     | [] => NoFilesSelected
                     | _ :: _ => OperationCancelled
                     end].
Proof.
  intros H. unfold deleteFiles.
  destruct files as [| file files].
  - eexists. split; [reflexivity |]. simpl. auto.
  - destruct H as [H | ->]; [discriminate |].
    eexists. split; [reflexivity |]. simpl. auto.
Qed.

(** C8, as the code has it.  A confirmed deletion over a selection that is
    not empty returns after every selected path has been counted as deleted
    or as failed, and prints the two counts.  A path whose removal throws
    adds one to the error count and the loop goes on with the rest of the
    selection, on the disk that the failed removal has left.  In
    particular, when the selected paths are unrelated (none is another or
    inside another), one of them is already gone from the disk and each of
    the others can be removed, one failure is counted, all the others are
    counted as deleted, and none of the selected paths is left on the
    disk.  All this holds whatever a removal that throws has taken out by
    then. *)
Theorem deletions_are_isolated
    (sofar : interruption) (disk : node) (files : list pathname) :
  files <> [] ->
  exists w',
    deleteFiles sofar true files (startWorld disk) = (Val tt, w')
    /\ (deletedCount w' + errorCount w' = length files)%nat
    /\ (exists printed,
           console w' = printed ++ [DeletedItems (deletedCount w') (errorCount w')])
    /\ (forall file rest w,
           removePath (fsys w) file = Exn ->
           forOf (file :: rest) (deleteOne sofar) w =
           forOf rest (deleteOne sofar)
             (mkWorld (afterFailure sofar (fsys w) file) (deletedCount w)
                (S (errorCount w)) (console w ++ [ErrorDeleting file])))
    /\ (forall gone,
           ForallOrdPairs unrelated files ->
           In gone files ->
           lookup disk gone = None ->
           (forall p, In p files -> p <> gone ->
                      exists d', removePath disk p = Val d') ->
           errorCount w' = 1%nat
           /\ deletedCount w' = (length files - 1)%nat
           /\ forall p, In p files -> lookup (fsys w') p = None).
Proof.
  intros Hne.
  destruct (deleteLoop_counts sofar files (mkWorld disk 0 0 []))
    as (w1 & Hloop & Hcount).
  eexists.
  split; [exact (deleteFiles_confirmed sofar files (startWorld disk) w1 Next Hne Hloop) |].
  cbn [fsys deletedCount errorCount console].
  split; [simpl in Hcount; lia |].
  split; [eauto |].
  split.
  - intros file rest w Hfail. now rewrite forOf_deleteOne_cons, Hfail.
  - intros gone Hun Hin Hgone Hothers.
    destruct (deleteLoop_unrelated sofar files (mkWorld disk 0 0 []) Hun)
      as (w2 & Hloop2 & Hall & He & Hd).
    { intros p Hp. simpl.
      destruct (list_eq_dec string_dec p gone) as [-> | Hneq]; [now left |].
      right. now apply Hothers. }
    rewrite Hloop in Hloop2. injection Hloop2 as <-.
    simpl in He, Hd.
    destruct (filter_single _ (absent disk) files gone
                (unrelated_NoDup _ Hun) Hin) as [H1 H2].
    { intros p Hp. unfold absent. split.
      - intros Habs.
        destruct (list_eq_dec string_dec p gone) as [-> | Hneq]; [reflexivity |].
        destruct (Hothers p Hp Hneq) as [d' Hd'].
        apply removePath_inv in Hd'. destruct Hd' as [_ [n Hn]].
        rewrite Hn in Habs. discriminate.
      - intros ->. now rewrite Hgone. }
    rewrite H1 in He. rewrite H2 in Hd. auto.
Qed.

(** C8 as stated fails when a selected path lies inside a selected
    directory: of [vanished], [cache] and [cache/a] only the first is gone
    before the deletion, yet two failures are counted, because removing
    [cache] takes [cache/a] with it. *)
Lemma nested_selection_counts_two_failures :
  absent example_disk ["Users"; "me"; "Documents"; "vanished"] = true
  /\ absent example_disk ["Users"; "me"; "Documents"; "cache"] = false
  /\ absent example_disk ["Users"; "me"; "Documents"; "cache"; "a"] = false
  /\ exists w',
       deleteFiles atOnce true
         [ ["Users"; "me"; "Documents"; "vanished"];
           ["Users"; "me"; "Documents"; "cache"];
           ["Users"; "me"; "Documents"; "cache"; "a"] ]
         (startWorld example_disk) = (Val tt, w')
       /\ errorCount w' = 2%nat
       /\ deletedCount w' = 1%nat
       /\ errorCount w' <> 1%nat.
Proof.
  repeat split; try reflexivity.
  eexists. split; [vm_compute; reflexivity |].
  repeat split; simpl; discriminate.
Qed.

(** ** selectFilesToDelete *)

Lemma insertSorted_perm (A : Type) (compare : A -> A -> Z) (x : A) (l : list A) :
  Permutation (x :: l) (insertSorted compare x l).
Proof.
  induction l as [| y l IH]; simpl; [reflexivity |].
  destruct (compare x y <=? 0); [reflexivity |].
  rewrite perm_swap. now constructor.
Qed.

Lemma arraySort_perm (A : Type) (compare : A -> A -> Z) (l : list A) :
  Permutation l (arraySort compare l).
Proof.
  induction l as [| x l IH]; simpl; [reflexivity |].
  rewrite <- insertSorted_perm. now constructor.
Qed.

Lemma insertSorted_descending (x : entry) (l : list entry) :
  Sorted larger_first l ->
  Sorted larger_first (insertSorted (fun a b => jsSub (size b) (size a)) x l).
Proof.
  induction 1 as [| y l Hs IH Hhd]; simpl; unfold jsSub.
  - repeat constructor.
  - rewrite roundToDouble_sign.
    destruct (size y - size x <=? 0) eqn:Hle.
    + apply Z.leb_le in Hle. constructor; [now constructor |].
      constructor. unfold larger_first. lia.
    + apply Z.leb_gt in Hle. constructor; [assumption |].
      destruct l as [| z l]; simpl.
      * constructor. unfold larger_first. lia.
      * unfold jsSub. rewrite roundToDouble_sign.
        destruct (size z - size x <=? 0); constructor.
        -- unfold larger_first. lia.
        -- now inversion Hhd.
Qed.

Lemma arraySort_descending (l : list entry) :
  Sorted larger_first (arraySort (fun a b => jsSub (size b) (size a)) l).
Proof.
  induction l as [| x l IH]; simpl; [constructor |].
  now apply insertSorted_descending.
Qed.

Lemma Sorted_adjacent (A : Type) (R : A -> A -> Prop) (l : list A) (i : nat) (a b : A) :
  Sorted R l -> nth_error l i = Some a -> nth_error l (S i) = Some b -> R a b.
Proof.
  intros Hs. revert i. induction Hs as [| x l Hs IH Hhd]; intros i.
  - destruct i; discriminate.
  - destruct i as [| i]; simpl.
    + intros [= ->]. destruct l as [| y l]; [discriminate |].
      simpl. intros [= ->]. now inversion Hhd.
    + apply IH.
Qed.

(** C9.  What selectFilesToDelete shows to the operator is the given
    entries, each once, largest first: of two choices that follow each
    other, the second is not larger than the first.  The table holds the
    first five of them. *)
Theorem presented_entries_are_sorted_by_size
    (operator : presentation -> list pathname) (files : list entry)
    (i : nat) (first second : choice) :
  nth_error (choices (present files)) i = Some first ->
  nth_error (choices (present files)) (S i) = Some second ->
  size (name second) <= size (name first)
  /\ selectFilesToDelete operator files = operator (present files)
  /\ Permutation files (map name (choices (present files)))
  /\ map value (choices (present files))
     = map path (map name (choices (present files)))
  /\ table (present files) = firstn 5 (map name (choices (present files))).
Proof.
  unfold present. cbn [choices table]. rewrite !map_map. cbn [name value].
  rewrite map_id. intros H1 H2.
  split; [| split; [reflexivity | split; [apply arraySort_perm | split; reflexivity]]].
  rewrite nth_error_map in H1, H2.
  destruct (nth_error _ i) as [a |] eqn:Ha; [| discriminate].
  destruct (nth_error _ (S i)) as [b |] eqn:Hb; [| discriminate].
  injection H1 as <-. injection H2 as <-. simpl.
  exact (Sorted_adjacent _ _ _ _ _ _ (arraySort_descending files) Ha Hb).
Qed.

(** ** The theorems at work on the example disk *)

Lemma example_disk_budget : (height example_disk < 6)%nat.
Proof. apply Nat.ltb_lt. reflexivity. Defined.

Lemma getFileSizeRecursive_sums_reachable_files_witness :
  well_formed example_disk = true
  /\ (height example_disk < 6)%nat
  /\ computeSize_spec example_disk ["Users"; "me"; "Documents"] <= exactUpTo
  /\ computeSize_spec example_disk ["Users"; "me"; "Documents"]
     = 2 * GB + (GB / 2 + GB) + 0 + 0 + (10 * MiB + 20 * MiB)
  /\ getFileSizeRecursive 6 example_disk ["Users"; "me"; "Documents"]
     = Val (computeSize_spec example_disk ["Users"; "me"; "Documents"]).
Proof.
  split; [reflexivity |]. split; [exact example_disk_budget |].
  assert (computeSize_spec example_disk ["Users"; "me"; "Documents"] <= exactUpTo)
    as Hsmall by (vm_compute; discriminate).
  split; [exact Hsmall |]. split; [reflexivity |].
  destruct (getFileSizeRecursive_sums_reachable_files example_disk
              ["Users"; "me"; "Documents"] 6 eq_refl example_disk_budget)
    as (_ & _ & H & _).
  exact (H Hsmall).
Defined.

Lemma emitted_entries_reach_threshold_witness :
  (height example_disk < 6)%nat
  /\ (exists rs,
         findLargeFiles 6 example_disk example_home (HomeRel ["Documents"]) 1000 GB
         = Val rs
         /\ Forall (fun e => GB <= size e) rs)
  /\ (exists rs,
         scanCacheFiles 6 example_disk example_home GB = Val rs
         /\ Forall (fun e => GB <= size e) rs).
Proof.
  split; [exact example_disk_budget |].
  exact (emitted_entries_reach_threshold 6 example_disk example_home
           (HomeRel ["Documents"]) 1000 GB example_disk_budget).
Defined.

Lemma result_count_is_capped_witness :
  well_formed example_disk = true
  /\ (height example_disk < 6)%nat
  /\ exists st,
       findLargeFiles_run 6 example_disk example_home (HomeRel ["Documents"]) 1 GB
       = (Val (results st), st)
       /\ findLargeFiles 6 example_disk example_home (HomeRel ["Documents"]) 1 GB
          = Val (results st)
       /\ Z.of_nat (length (results st)) <= Z.max 1 1
       /\ results st = emitted (trace st)
       /\ stops_at_cap 1 (trace st).
Proof.
  split; [reflexivity |]. split; [exact example_disk_budget |].
  exact (result_count_is_capped 6 example_disk example_home
           (HomeRel ["Documents"]) 1 GB eq_refl example_disk_budget).
Defined.

Lemma emitted_directory_is_not_descended_witness :
  (height example_disk < 6)%nat
  /\ exists st,
       findLargeFiles_run 6 example_disk example_home (HomeRel ["Documents"]) 1000 GB
       = (Val (results st), st)
       /\ findLargeFiles 6 example_disk example_home (HomeRel ["Documents"]) 1000 GB
          = Val (results st)
       /\ forall e1, In e1 (results st) -> isDirectory e1 = true ->
            ~ In (Enter (path e1)) (trace st)
            /\ forall e2, In e2 (results st) -> ~ strictly_below (path e1) (path e2).
Proof.
  split; [exact example_disk_budget |].
  exact (emitted_directory_is_not_descended 6 example_disk example_home
           (HomeRel ["Documents"]) 1000 GB example_disk_budget).
Defined.


Lemma root_is_never_emitted_witness :
  (height example_disk < 6)%nat
  /\ exists rs,
       findLargeFiles 6 example_disk example_home (HomeRel ["Documents"]) 1000 0
       = Val rs
       /\ forall e, In e rs ->
            strictly_below (expandHome example_home (HomeRel ["Documents"])) (path e)
            /\ path e <> expandHome example_home (HomeRel ["Documents"]).
Proof.
  split; [exact example_disk_budget |].
  exact (root_is_never_emitted 6 example_disk example_home
           (HomeRel ["Documents"]) 1000 0 example_disk_budget).
Defined.

Lemma declined_deletion_leaves_disk_unchanged_witness :
  ([["Users"; "me"; "Documents"; "bigfile"]] = [] \/ false = false)
  /\ exists w',
       deleteFiles atOnce false [["Users"; "me"; "Documents"; "bigfile"]]
         (startWorld example_disk) = (Val tt, w')
       /\ fsys w' = example_disk
       /\ console w' = [OperationCancelled].
Proof.
  split; [right; reflexivity |].
  exact (declined_deletion_leaves_disk_unchanged atOnce false
           [["Users"; "me"; "Documents"; "bigfile"]] (startWorld example_disk)
           (or_intror eq_refl)).
Defined.

Lemma example_selection_nonempty : example_selection <> [].
Proof. discriminate. Defined.

Lemma belowb_false (p q : pathname) : belowb p q = false -> ~ below p q.
Proof.
  revert q. induction p as [| x p IH]; intros q; simpl; [discriminate |].
  destruct q as [| y q]; [intros _ [r H]; discriminate |].
  rewrite below_cons. intros Hb [-> Hpq].
  rewrite String.eqb_refl in Hb. simpl in Hb. now apply IH in Hb.
Qed.

Lemma unrelatedb (p q : pathname) :
  belowb p q = false -> belowb q p = false -> unrelated p q.
Proof. intros H1 H2. split; now apply belowb_false. Qed.

Lemma example_selection_unrelated : ForallOrdPairs unrelated example_selection.
Proof.
  repeat (constructor; [repeat (constructor; [apply unrelatedb; reflexivity |]);
                        constructor |]).
  constructor.
Defined.

Lemma deletions_are_isolated_witness :
  example_selection <> []
  /\ ForallOrdPairs unrelated example_selection
  /\ lookup example_disk ["Users"; "me"; "Documents"; "vanished"] = None
  /\ exists w',
       deleteFiles atOnce true example_selection (startWorld example_disk) = (Val tt, w')
       /\ errorCount w' = 1%nat
       /\ deletedCount w' = 2%nat
       /\ forall p, In p example_selection -> lookup (fsys w') p = None.
Proof.
  split; [exact example_selection_nonempty |].
  split; [exact example_selection_unrelated |].
  split; [reflexivity |].
  destruct (deletions_are_isolated atOnce example_disk example_selection
              example_selection_nonempty) as (w' & Hrun & _ & _ & _ & Hone).
  exists w'. split; [exact Hrun |].
  apply (Hone ["Users"; "me"; "Documents"; "vanished"]).
  - exact example_selection_unrelated.
  - left. reflexivity.
  - reflexivity.
  - intros p [<- | [<- | [<- | []]]] Hne.
    + exfalso. apply Hne. reflexivity.
    + eexists. vm_compute. reflexivity.
    + eexists. vm_compute. reflexivity.
Defined.

Lemma presented_entries_are_sorted_by_size_witness :
  nth_error (choices (present example_entries)) 0
  = Some (mkChoice (mkEntry ["b"] (2 * GB) true) ["b"] false)
  /\ nth_error (choices (present example_entries)) 1
     = Some (mkChoice (mkEntry ["c"] GB false) ["c"] false)
  /\ GB <= 2 * GB.
Proof.
  split; [reflexivity |]. split; [reflexivity |].
  destruct (presented_entries_are_sorted_by_size (fun _ => []) example_entries 0
              (mkChoice (mkEntry ["b"] (2 * GB) true) ["b"] false)
              (mkChoice (mkEntry ["c"] GB false) ["c"] false)
              eq_refl eq_refl) as [H _].
  exact H.
Defined.


(* ------------------------------------------------------------------ *)
(** * Further properties *)

(** ** What findLargeFiles returns, entry by entry *)

Section ScanDirExact.
Variable disk : node.
Variable listLimit : Z.
Variable sizeThreshold : Z.
Variable budget : nat.

Hypothesis names_ok : names_distinct disk = true.
Hypothesis sizes_ok : sizes_nonneg disk = true.

Let cap : nat := Z.to_nat (Z.max 1 listLimit).
Let scanEntry' := scanEntry disk listLimit sizeThreshold budget.
Let scanDir' := scanDir disk listLimit sizeThreshold budget.

Lemma scanEntry_candidate (fuel : nat) (root : pathname) (file : string)
    (s s' : scan_state) (c : control) :
  scanEntry' (scanDir' fuel) root file s = (Val c, s') ->
  match candidate disk sizeThreshold root file with
  | Some e =>
      results s' = results s ++ [e]
      /\ c = (if listLimit <=? Z.of_nat (length (results s ++ [e]))
              then Return else Next)
  | None => results s' = results s /\ c = Next
  end.
Proof.
  unfold scanEntry'. rewrite scanEntry_unfold. cbv zeta. unfold candidate.
  destruct (stat disk (join root file)) as [stats | |]; try discriminate.
  - destruct (st_isDirectory stats).
    + destruct (getFileSizeRecursive budget disk (join root file)) as [sz | |] eqn:Hm;
        try discriminate.
      * pose proof (getFileSizeRecursive_sound _ _ _ _ names_ok Hm) as Hsz.
        rewrite <- Hsz.
        destruct (sizeThreshold <=? sz) eqn:Hle.
        -- rewrite report_unfold. intros [= <- <-]. simpl.
           now rewrite !app_nil_r.
        -- destruct (scanDir' fuel (join root file) _) as [[[] | |] t] eqn:Hrec;
             try discriminate.
           ++ intros [= <- <-]. split; [| reflexivity].
              apply scanDir_silent in Hrec; auto.
              ** rewrite Hrec. simpl. now rewrite app_nil_r.
              ** apply Z.leb_gt in Hle. rewrite <- Hsz. exact Hle.
           ++ pose proof (scanDir_shaped disk listLimit sizeThreshold budget fuel
                            (join root file)
                            (extend s [Visit (join root file); Measure (join root file)]))
                as Hs.
              unfold scanDir' in Hrec. now rewrite Hrec in Hs.
      * now apply getFileSizeRecursive_no_exception in Hm.
    + destruct (sizeThreshold <=? st_size stats).
      * rewrite report_unfold. intros [= <- <-]. simpl. now rewrite !app_nil_r.
      * intros [= <- <-]. simpl. now rewrite app_nil_r.
  - intros [= <- <-]. simpl. now rewrite app_nil_r.
Qed.

Lemma cap_spec : (Z.of_nat cap = Z.max 1 listLimit).
Proof. unfold cap. lia. Qed.

Lemma forOf_candidates (fuel : nat) (root : pathname) (files : list string)
    (s s' : scan_state) (c : control) :
  Z.of_nat (length (results s)) < Z.max 1 listLimit ->
  forOf files (scanEntry' (scanDir' fuel) root) s = (Val c, s') ->
  results s' = firstn cap (results s ++ candidates disk sizeThreshold root files).
Proof.
  revert s. induction files as [| file files IH]; intros s Hlt.
  - simpl. unfold ret. intros [= _ <-]. rewrite app_nil_r.
    symmetry. apply firstn_all2. pose proof cap_spec. lia.
  - rewrite forOf_cons.
    destruct (scanEntry' (scanDir' fuel) root file s) as [[[|] | |] t] eqn:Hstep;
      try discriminate.
    + apply scanEntry_candidate in Hstep. cbn [candidates flat_map].
      fold (candidates disk sizeThreshold root files).
      destruct (candidate disk sizeThreshold root file) as [e |].
      * destruct Hstep as [Ht Hc]. intros Hrest.
        destruct (listLimit <=? _) eqn:Hle; [discriminate |].
        apply Z.leb_gt in Hle. rewrite length_app in Hle. simpl in Hle.
        apply IH in Hrest; [| rewrite Ht, length_app; simpl; lia].
        rewrite Hrest, Ht, <- app_assoc. reflexivity.
      * destruct Hstep as [Ht _]. intros Hrest.
        apply IH in Hrest; [| now rewrite Ht].
        now rewrite Hrest, Ht.
    + apply scanEntry_candidate in Hstep. cbn [candidates flat_map].
      fold (candidates disk sizeThreshold root files).
      destruct (candidate disk sizeThreshold root file) as [e |].
      * destruct Hstep as [Ht Hc]. intros [= _ <-].
        destruct (listLimit <=? _) eqn:Hle; [| discriminate].
        apply Z.leb_le in Hle. rewrite length_app in Hle. simpl in Hle.
        assert (length (results s ++ [e]) = cap) as Hlen.
        { rewrite length_app. simpl. pose proof cap_spec. lia. }
        rewrite Ht. change (e :: candidates disk sizeThreshold root files)
          with ([e] ++ candidates disk sizeThreshold root files).
        rewrite app_assoc, firstn_app, <- Hlen, firstn_all, Nat.sub_diag.
        simpl. now rewrite app_nil_r.
      * destruct Hstep as [_ Hc]. discriminate.
Qed.

Lemma scanDir_candidates (fuel : nat) (root : pathname) (s' : scan_state) :
  scanDir' fuel root initial_scan = (Val tt, s') ->
  results s' = firstn cap (candidates disk sizeThreshold root (listing disk root)).
Proof.
  destruct fuel as [| fuel]; [discriminate |].
  unfold scanDir'. rewrite scanDir_unfold. unfold listing.
  destruct (readdir disk root) as [files | |]; try discriminate.
  - destruct (forOf files _ _) as [[c | |] t] eqn:Hloop; try discriminate.
    + intros [= <-]. apply forOf_candidates in Hloop; [exact Hloop |].
      simpl. lia.
    + intros _. exfalso.
      apply (forOf_no_exception _ _
               (scanEntry disk listLimit sizeThreshold budget
                  (scanDir disk listLimit sizeThreshold budget fuel) root) files
               (extend initial_scan [Enter root])).
      * intros. apply scanEntry_no_exception.
      * now rewrite Hloop.
  - intros [= <-]. simpl. now rewrite firstn_nil.
Qed.
End ScanDirExact.

(** X1.  With a recursion budget above the height of a well-formed disk,
    findLargeFiles returns, in the order of the listing of the root, the
    children of the root that can be statted and whose size reaches the
    threshold, cut after [listLimit] entries (after one entry when
    [listLimit] is below 1); nothing when the root cannot be listed. *)
Theorem findLargeFiles_returns_first_candidates
    (fuel : nat) (disk : node) (home : pathname) (directory : dirspec)
    (listLimit sizeThreshold : Z) :
  well_formed disk = true ->
  (height disk < fuel)%nat ->
  findLargeFiles fuel disk home directory listLimit sizeThreshold
  = Val (firstn (Z.to_nat (Z.max 1 listLimit))
           (candidates disk sizeThreshold (expandHome home directory)
              (listing disk (expandHome home directory)))).
Proof.
  intros Hwf Hh. apply well_formed_parts in Hwf. destruct Hwf as [Hd Hn].
  destruct (findLargeFiles_returns fuel disk home directory listLimit
              sizeThreshold Hh) as (st & Hscan & _ & ->).
  f_equal. eapply scanDir_candidates; eauto.
Qed.

Lemma findLargeFiles_returns_first_candidates_witness :
  well_formed example_disk = true
  /\ (height example_disk < 6)%nat
  /\ findLargeFiles 6 example_disk example_home (HomeRel ["Documents"]) 1000 GB
     = Val [ mkEntry ["Users"; "me"; "Documents"; "bigfile"] (2 * GB) false;
             mkEntry ["Users"; "me"; "Documents"; "cache"] (GB / 2 + GB) true ].
Proof.
  split; [reflexivity |]. split; [exact example_disk_budget |].
  rewrite (findLargeFiles_returns_first_candidates 6 example_disk example_home
             (HomeRel ["Documents"]) 1000 GB eq_refl example_disk_budget).
  reflexivity.
Defined.

(** ** scanCacheFiles: the star, in the string and in the path *)

Lemma append_empty (a : string) : (a ++ "")%string = a.
Proof. induction a as [| c a IH]; simpl; [reflexivity | now rewrite IH]. Qed.

Lemma append_assoc (a b c : string) : ((a ++ b) ++ c = a ++ (b ++ c))%string.
Proof. induction a as [| x a IH]; simpl; [reflexivity | now rewrite IH]. Qed.

Lemma hasStar_append (a b : string) :
  hasStar (a ++ b)%string = hasStar a || hasStar b.
Proof.
  induction a as [| c a IH]; simpl; [reflexivity |].
  destruct (Ascii.eqb c "*"); [reflexivity | exact IH].
Qed.

Lemma uptoStar_append (a b : string) :
  uptoStar (a ++ b)%string
  = if hasStar a then uptoStar a else (a ++ uptoStar b)%string.
Proof.
  induction a as [| c a IH]; simpl; [reflexivity |].
  destruct (Ascii.eqb c "*"); [reflexivity |].
  rewrite IH. now destruct (hasStar a).
Qed.

Lemma pastStar_append (a b : string) :
  pastStar (a ++ b)%string
  = if hasStar a then (pastStar a ++ b)%string else pastStar b.
Proof.
  induction a as [| c a IH]; simpl; [reflexivity |].
  destruct (Ascii.eqb c "*"); [reflexivity | exact IH].
Qed.

(** [expandedDir.includes('*')], asked of the string, is [includesStar]. *)
Lemma includesStar_render (p : pathname) : hasStar (render p) = includesStar p.
Proof.
  induction p as [| x q IH]; [reflexivity |].
  cbn [render includesStar existsb hasStar].
  change (Ascii.eqb "/" "*") with false. cbv iota.
  rewrite hasStar_append, IH. reflexivity.
Qed.

(** The substring in front of the first star is [beforeStar], with a slash
    at its end when the star starts its segment. *)
Lemma beforeStar_render (p : pathname) :
  includesStar p = true ->
  uptoStar (render p)
  = (render (beforeStar p) ++ (if slashBeforeStar p then "/" else ""))%string.
Proof.
  induction p as [| x q IH]; [discriminate |].
  cbn [includesStar existsb render uptoStar beforeStar slashBeforeStar].
  change (Ascii.eqb "/" "*") with false. cbv iota.
  rewrite uptoStar_append.
  destruct (hasStar x) eqn:Hx.
  - intros _. destruct (uptoStar x) as [| c u] eqn:Hu; [reflexivity |].
    cbn [piece render]. simpl. now rewrite !append_empty.
  - intros Hq. cbn [orb] in Hq. rewrite (IH Hq).
    cbn [render]. simpl. now rewrite append_assoc.
Qed.

(** The substring behind the first star is [afterStar], but for the slash
    that [path.join] puts between an item and a pattern that has none in
    front. *)
Lemma afterStar_render (p : pathname) :
  includesStar p = true ->
  render (afterStar p) = pastStar (render p)
  \/ render (afterStar p) = String "/" (pastStar (render p)).
Proof.
  induction p as [| x q IH]; [discriminate |].
  cbn [includesStar existsb render pastStar afterStar].
  change (Ascii.eqb "/" "*") with false. cbv iota.
  rewrite pastStar_append.
  destruct (hasStar x) eqn:Hx.
  - intros _. destruct (pastStar x) as [| c u] eqn:Hu; [left; reflexivity |].
    right. reflexivity.
  - intros Hq. exact (IH Hq).
Qed.

(** With the home directory of the examples only the third cache root has
    a star, and it is cut around its segment.  A home directory with a star
    in its name turns every root below it into a pattern that is cut inside
    that name. *)
Lemma star_of_the_cache_roots :
  map (fun r => includesStar (expandHome example_home r)) cacheDirs
  = [false; false; true; false]
  /\ beforeStar (expandHome example_home
                   (HomeRel ["Library"; "Application Support"; "*"; "Caches"]))
     = ["Users"; "me"; "Library"; "Application Support"]
  /\ slashBeforeStar (expandHome example_home
                        (HomeRel ["Library"; "Application Support"; "*"; "Caches"]))
     = true
  /\ afterStar (expandHome example_home
                  (HomeRel ["Library"; "Application Support"; "*"; "Caches"]))
     = ["Caches"]
  /\ map (fun r => includesStar (expandHome ["Users"; "m*e"] r)) cacheDirs
     = [true; true; true; false]
  /\ render (expandHome ["Users"; "m*e"] (HomeRel ["Library"; "Caches"]))
     = "/Users/m*e/Library/Caches"
  /\ beforeStar (expandHome ["Users"; "m*e"] (HomeRel ["Library"; "Caches"]))
     = ["Users"; "m"]
  /\ slashBeforeStar (expandHome ["Users"; "m*e"] (HomeRel ["Library"; "Caches"]))
     = false
  /\ afterStar (expandHome ["Users"; "m*e"] (HomeRel ["Library"; "Caches"]))
     = ["e"; "Library"; "Caches"].
Proof. repeat split. Qed.

(** With such a home directory the scan looks below [/Users/m], not below
    the home directory: it finds [junk] and misses [real]. *)
Lemma star_in_home_scans_elsewhere :
  scanCacheFilesIn
    (Dir true true
       [ ("Users", Dir true true
            [ ("m", Dir true true
                 [ ("x", Dir true true
                      [ ("e", Dir true true
                           [ ("Library", Dir true true
                                [ ("Caches", Dir true true
                                     [ ("junk", File GB) ]) ]) ]) ]) ]);
              ("m*e", Dir true true
                 [ ("Library", Dir true true
                      [ ("Caches", Dir true true [ ("real", File GB) ]) ]) ]) ]) ])
    ["Users"; "m*e"] (GB / 2) 9 [HomeRel ["Library"; "Caches"]]
  = Val [ mkEntry ["Users"; "m"; "x"; "e"; "Library"; "Caches"; "junk"] GB false ].
Proof. vm_compute. reflexivity. Qed.

(** ** scanCacheFiles, root by root *)

Section Appending.
Lemma appends_ret (A : Type) (a : A) : appends (ret a).
Proof. intros s. unfold ret. simpl. now rewrite app_nil_r. Qed.

Lemma appends_lift (A : Type) (o : outcome A) : appends (lift o).
Proof. intros s. unfold lift. simpl. now rewrite app_nil_r. Qed.

Lemma appends_push (e : entry) :
  appends (modify (fun cacheFiles => cacheFiles ++ [e])).
Proof. intros s. reflexivity. Qed.

Lemma appends_bind (A B : Type) (m : M (list entry) A) (f : A -> M (list entry) B) :
  appends m -> (forall a, appends (f a)) -> appends (bind m f).
Proof.
  intros Hm Hf s. unfold bind. rewrite (Hm s).
  destruct (m []) as [[a | |] new]; simpl; try reflexivity.
  rewrite (Hf a (s ++ new)), (Hf a new). simpl. now rewrite app_assoc.
Qed.

Lemma appends_catch (A : Type) (body handler : M (list entry) A) :
  appends body -> appends handler -> appends (catch body handler).
Proof.
  intros Hb Hh s. unfold catch. rewrite (Hb s).
  destruct (body []) as [[a | |] new]; simpl; try reflexivity.
  rewrite (Hh (s ++ new)), (Hh new). simpl. now rewrite app_assoc.
Qed.

Lemma appends_forOf (A : Type) (xs : list A) (body : A -> M (list entry) control) :
  (forall x, appends (body x)) -> appends (forOf xs body).
Proof.
  intros Hb. induction xs as [| x xs IH]; simpl.
  - apply appends_ret.
  - apply appends_bind; [apply Hb |].
    intros c. destruct c; [apply IH | apply appends_ret].
Qed.

Lemma falls_through_forOf (S A : Type) (xs : list A) (body : A -> M S control) :
  (forall x, falls_through (body x)) -> falls_through (forOf xs body).
Proof.
  intros Hb. induction xs as [| x xs IH]; intros s.
  - discriminate.
  - rewrite forOf_cons. specialize (Hb x s).
    destruct (body x s) as [[[|] | |] s']; simpl in *; try discriminate.
    + apply IH.
    + congruence.
Qed.
End Appending.

Lemma falls_through_ret (S : Type) : falls_through (ret (S := S) Next).
Proof. intros s. discriminate. Qed.

Lemma falls_through_bind (S A : Type) (m : M S A) (f : A -> M S control) :
  (forall a, falls_through (f a)) -> falls_through (bind m f).
Proof.
  intros Hf s. unfold bind.
  destruct (m s) as [[a | |] s']; simpl; try discriminate. apply Hf.
Qed.

Lemma falls_through_catch (S : Type) (body handler : M S control) :
  falls_through body -> falls_through handler -> falls_through (catch body handler).
Proof.
  intros Hb Hh s. unfold catch. specialize (Hb s).
  destruct (body s) as [[c | |] s']; simpl in *; try discriminate; auto.
Qed.

Section ScanCacheRoots.
Variable disk : node.
Variable home : pathname.
Variable sizeThreshold : Z.
Variable budget : nat.

Let checkCacheChild' := checkCacheChild disk sizeThreshold budget.
Let scanCacheRoot' := scanCacheRoot disk home sizeThreshold budget.

Lemma checkCacheChild_appends (dir : pathname) (file : string) :
  appends (checkCacheChild' dir file).
Proof.
  unfold checkCacheChild', checkCacheChild. cbv zeta.
  apply appends_bind; [apply appends_lift |]. intros stats.
  apply appends_bind.
  - destruct (st_isDirectory stats); [apply appends_lift | apply appends_ret].
  - intros sz. destruct (sizeThreshold <=? sz); [| apply appends_ret].
    apply appends_bind; [apply appends_push | intros; apply appends_ret].
Qed.

Lemma checkCacheChild_falls_through (dir : pathname) (file : string) :
  falls_through (checkCacheChild' dir file).
Proof.
  unfold checkCacheChild', checkCacheChild. cbv zeta.
  apply falls_through_bind. intros stats.
  apply falls_through_bind. intros sz.
  destruct (sizeThreshold <=? sz); [| apply falls_through_ret].
  apply falls_through_bind. intros _. apply falls_through_ret.
Qed.

Lemma scanCacheRoot_appends (dir : dirspec) : appends (scanCacheRoot' dir).
Proof.
  unfold scanCacheRoot', scanCacheRoot. cbv zeta.
  apply appends_catch; [| apply appends_ret].
  destruct (includesStar _).
  - destruct (negb _); [apply appends_ret |].
    apply appends_bind; [apply appends_lift |]. intros items.
    apply appends_forOf. intros item.
    destruct (existsSync _ _); [| apply appends_ret].
    apply appends_bind; [apply appends_lift |]. intros files.
    apply appends_forOf. intros file. apply checkCacheChild_appends.
  - destruct (negb _); [apply appends_ret |].
    apply appends_bind; [apply appends_lift |]. intros files.
    apply appends_forOf. intros file. apply checkCacheChild_appends.
Qed.

Lemma scanCacheRoot_falls_through (dir : dirspec) :
  falls_through (scanCacheRoot' dir).
Proof.
  unfold scanCacheRoot', scanCacheRoot. cbv zeta.
  apply falls_through_catch; [| apply falls_through_ret].
  destruct (includesStar _).
  - destruct (negb _); [apply falls_through_ret |].
    apply falls_through_bind. intros items.
    apply falls_through_forOf. intros item.
    destruct (existsSync _ _); [| apply falls_through_ret].
    apply falls_through_bind. intros files.
    apply falls_through_forOf. intros file. apply checkCacheChild_falls_through.
  - destruct (negb _); [apply falls_through_ret |].
    apply falls_through_bind. intros files.
    apply falls_through_forOf. intros file. apply checkCacheChild_falls_through.
Qed.

Lemma scanCacheRoot_no_exception (dir : dirspec) (s : list entry) :
  fst (scanCacheRoot' dir s) <> Exn.
Proof.
  unfold scanCacheRoot', scanCacheRoot, catch, ret.
  match goal with |- context [match ?m s with _ => _ end] => destruct (m s) as [[c | |] s'] end;
    discriminate.
Qed.

Hypothesis enough : (height disk < budget)%nat.

(** One root: it always ends in the normal way, and adds its entries. *)
Lemma scanCacheRoot_run (dir : dirspec) (s : list entry) :
  scanCacheRoot' dir s = (Val Next, s ++ snd (scanCacheRoot' dir [])).
Proof.
  rewrite (scanCacheRoot_appends dir s). f_equal.
  pose proof (scanCacheRoot_falls_through dir []) as H1.
  pose proof (scanCacheRoot_no_exception dir []) as H2.
  pose proof (scanCacheRoot_finishes disk home sizeThreshold budget enough dir []) as H3.
  fold scanCacheRoot' in H3.
  destruct (fst (scanCacheRoot' dir [])) as [[|] | |]; congruence.
Qed.

Lemma forOf_roots (roots : list dirspec) (s : list entry) :
  forOf roots scanCacheRoot' s
  = (Val Next, s ++ flat_map (fun r => snd (scanCacheRoot' r [])) roots).
Proof.
  revert s. induction roots as [| r roots IH]; intros s.
  - simpl. unfold ret. now rewrite app_nil_r.
  - rewrite forOf_cons, scanCacheRoot_run, IH. simpl. now rewrite app_assoc.
Qed.

Lemma scanCacheFilesIn_flat (roots : list dirspec) :
  scanCacheFilesIn disk home sizeThreshold budget roots
  = Val (flat_map (fun r => snd (scanCacheRoot' r [])) roots).
Proof.
  unfold scanCacheFilesIn, catch, bind, gets.
  fold scanCacheRoot'. rewrite forOf_roots. reflexivity.
Qed.
End ScanCacheRoots.



Lemma preserves_bind_lift (S A B : Type) (I : S -> Prop) (o : outcome A)
    (f : A -> M S B) :
  (forall a, o = Val a -> preserves I (f a)) -> preserves I (bind (lift o) f).
Proof.
  intros Hf s Hs. unfold bind, lift.
  destruct o as [a | |]; simpl; auto. now apply Hf.
Qed.

Lemma readdir_listing (disk : node) (dir : pathname) (files : list string) :
  readdir disk dir = Val files -> listing disk dir = files.
Proof. intros H. unfold listing. now rewrite H. Qed.

Section ScanCacheEntries.
Variable disk : node.
Variable home : pathname.
Variable sizeThreshold : Z.
Variable budget : nat.
Variable roots : list dirspec.

(** What is kept true of the entries found so far. *)
Let shallow (cacheFiles : list entry) : Prop :=
  Forall (fun e =>
            faithful disk budget e
            /\ exists d file,
                 cacheDirectory disk home roots d
                 /\ In file (listing disk d)
                 /\ path e = join d file) cacheFiles.

Lemma checkCacheChild_shallow (d : pathname) (file : string) :
  cacheDirectory disk home roots d ->
  In file (listing disk d) ->
  preserves shallow (checkCacheChild disk sizeThreshold budget d file).
Proof.
  intros Hd Hfile. unfold checkCacheChild. cbv zeta.
  apply preserves_bind_lift. intros stats Hstat.
  assert (forall sz,
             (if st_isDirectory stats
              then getFileSizeRecursive budget disk (join d file) = Val sz
              else sz = st_size stats) ->
             preserves shallow
               (if sizeThreshold <=? sz
                then bind (modify (fun cacheFiles =>
                                     cacheFiles
                                     ++ [mkEntry (join d file) sz (st_isDirectory stats)]))
                          (fun _ => ret Next)
                else ret Next)) as Hpush.
  { intros sz Hsz. destruct (sizeThreshold <=? sz); [| apply preserves_ret].
    apply preserves_bind; [| intros; apply preserves_ret].
    apply preserves_modify. intros cacheFiles Hc.
    apply Forall_app. split; [assumption |].
    constructor; [| constructor]. split.
    - exists stats. simpl. repeat split; auto.
    - exists d, file. simpl. auto. }
  destruct (st_isDirectory stats) eqn:Hdir.
  - apply preserves_bind_lift. intros sz Hsz. apply Hpush. exact Hsz.
  - unfold bind at 1, ret at 1. intros s Hs. apply (Hpush (st_size stats) eq_refl s Hs).
Qed.

Lemma scanCacheRoot_shallow (r : dirspec) :
  In r roots ->
  preserves shallow (scanCacheRoot disk home sizeThreshold budget r).
Proof.
  intros Hr. unfold scanCacheRoot. cbv zeta.
  apply preserves_catch; [| apply preserves_ret].
  destruct (includesStar (expandHome home r)) eqn:Hstar.
  - destruct (negb _); [apply preserves_ret |].
    apply preserves_bind_lift. intros items Hitems.
    apply preserves_forOf. intros item Hitem.
    destruct (existsSync _ _); [| apply preserves_ret].
    apply preserves_bind_lift. intros files Hfiles.
    apply preserves_forOf. intros file Hfile.
    apply checkCacheChild_shallow.
    + exists r. split; [assumption |]. right. split; [assumption |].
      exists item. split; [| reflexivity].
      now rewrite (readdir_listing _ _ _ Hitems).
    + now rewrite (readdir_listing _ _ _ Hfiles).
  - destruct (negb _); [apply preserves_ret |].
    apply preserves_bind_lift. intros files Hfiles.
    apply preserves_forOf. intros file Hfile.
    apply checkCacheChild_shallow.
    + exists r. split; [assumption |]. left. auto.
    + now rewrite (readdir_listing _ _ _ Hfiles).
Qed.

Lemma scanCacheFilesIn_shallow (rs : list entry) :
  scanCacheFilesIn disk home sizeThreshold budget roots = Val rs -> shallow rs.
Proof.
  unfold scanCacheFilesIn, catch, bind, gets, ret.
  pose proof (preserves_forOf shallow _ roots
                (scanCacheRoot disk home sizeThreshold budget)
                scanCacheRoot_shallow [] (Forall_nil _)) as Hp.
  destruct (forOf roots _ []) as [[c | |] s]; simpl in *.
  - now intros [= <-].
  - intros [= <-]. constructor.
  - discriminate.
Qed.
End ScanCacheEntries.

(** X3.  The cache scan is shallow and reports what the disk says: every entry
    that scanCacheFiles returns is a child, listed by [readdir], of a cache
    root (or of a root's pattern with the star replaced by a listed name);
    its directory flag is the one [stat] gives for its path, and its size
    is the size [stat] gives for a file and what getFileSizeRecursive
    returns for a directory. *)
Theorem cache_entries_are_listed_children
    (fuel : nat) (disk : node) (home : pathname) (sizeThreshold : Z)
    (roots : list dirspec) (rs : list entry) (e : entry) :
  scanCacheFilesIn disk home sizeThreshold fuel roots = Val rs ->
  In e rs ->
  faithful disk fuel e
  /\ exists d file,
       cacheDirectory disk home roots d
       /\ In file (listing disk d)
       /\ path e = join d file.
Proof.
  intros Hrun He. apply scanCacheFilesIn_shallow in Hrun.
  rewrite Forall_forall in Hrun. exact (Hrun e He).
Qed.

Lemma cache_entries_are_listed_children_witness :
  scanCacheFilesIn example_disk example_home (GB / 2) 6 cacheDirs
  = Val [ mkEntry ["Users"; "me"; "Library"; "Logs"; "old.log"] (GB / 2) false;
          mkEntry ["Library"; "Caches"; "shared"] GB false ]
  /\ faithful example_disk 6 (mkEntry ["Library"; "Caches"; "shared"] GB false)
  /\ exists d file,
       cacheDirectory example_disk example_home cacheDirs d
       /\ In file (listing example_disk d)
       /\ path (mkEntry ["Library"; "Caches"; "shared"] GB false) = join d file.
Proof.
  split; [reflexivity |].
  apply (cache_entries_are_listed_children 6 example_disk example_home (GB / 2)
           cacheDirs
           [ mkEntry ["Users"; "me"; "Library"; "Logs"; "old.log"] (GB / 2) false;
             mkEntry ["Library"; "Caches"; "shared"] GB false ]).
  - reflexivity.
  - right. left. reflexivity.
Defined.

Section LiteralCacheRoot.
Variable disk : node.
Variable home : pathname.
Variable sizeThreshold : Z.
Variable budget : nat.

Hypothesis names_ok : names_distinct disk = true.
Hypothesis enough : (height disk < budget)%nat.

Lemma checkCacheChild_candidate (dir : pathname) (file : string) (s : list entry) :
  checkCacheChild disk sizeThreshold budget dir file s =
  match stat disk (join dir file) with
  | Val _ =>
      (Val Next,
       s ++ match candidate disk sizeThreshold dir file with
            | Some e => [e]
            | None => []
            end)
  | _ => (Exn, s)
  end.
Proof.
  unfold checkCacheChild, candidate, bind, lift, ret, modify. cbv zeta.
  pose proof (stat_finishes disk (join dir file)) as Hfin.
  destruct (stat disk (join dir file)) as [stats | |]; [| reflexivity | congruence].
  destruct (st_isDirectory stats).
  - rewrite (getFileSizeRecursive_spec budget disk (join dir file) names_ok enough).
    destruct (sizeThreshold <=? _); [reflexivity | now rewrite app_nil_r].
  - destruct (sizeThreshold <=? _); [reflexivity | now rewrite app_nil_r].
Qed.

(** The loop over the children of a cache directory: it ends at the first
    child that cannot be statted. *)
Lemma forOf_children (dir : pathname) (files : list string) (s : list entry) :
  exists o,
    forOf files (checkCacheChild disk sizeThreshold budget dir) s
    = (o, s ++ candidates disk sizeThreshold dir (untilFailure disk dir files))
    /\ (o = Val Next \/ o = Exn).
Proof.
  revert s. induction files as [| file files IH]; intros s.
  - exists (Val Next). simpl. unfold ret. rewrite app_nil_r. auto.
  - rewrite forOf_cons, checkCacheChild_candidate. cbn [untilFailure].
    pose proof (stat_finishes disk (join dir file)) as Hfin.
    destruct (stat disk (join dir file)) as [stats | |]; [| | congruence].
    + destruct (IH (s ++ match candidate disk sizeThreshold dir file with
                         | Some e => [e]
                         | None => []
                         end)) as (o & -> & Ho).
      exists o. split; [| assumption].
      cbn [candidates flat_map]. now rewrite <- app_assoc.
    + exists Exn. simpl. rewrite app_nil_r. auto.
Qed.
End LiteralCacheRoot.

(** X4.  A cache root without star, on a disk whose directories hold distinct
    names, with a recursion budget above the height of the disk: the scan
    returns the children of the root that reach the threshold, in the order
    of the listing, up to the first child that cannot be statted; nothing
    when the root does not exist or cannot be listed. *)
Theorem literal_cache_root_is_scanned_until_first_failure
    (fuel : nat) (disk : node) (home : pathname) (sizeThreshold : Z)
    (root : dirspec) :
  names_distinct disk = true ->
  (height disk < fuel)%nat ->
  includesStar (expandHome home root) = false ->
  scanCacheFilesIn disk home sizeThreshold fuel [root]
  = Val (candidates disk sizeThreshold (expandHome home root)
           (untilFailure disk (expandHome home root)
              (listing disk (expandHome home root)))).
Proof.
  intros Hd Hh Hstar.
  unfold scanCacheFilesIn. cbn [forOf].
  unfold scanCacheRoot. cbv zeta. rewrite Hstar.
  unfold listing, existsSync, stat, readdir.
  destruct (lookup disk (expandHome home root)) as [[z | [|] w es |] |] eqn:Hl;
    try reflexivity.
  destruct (forOf_children disk sizeThreshold fuel Hd Hh (expandHome home root)
              (map fst es) []) as (o & Hloop & Ho).
  cbn [negb]. unfold catch, bind, lift, gets, ret. rewrite Hloop.
  destruct Ho as [-> | ->]; reflexivity.
Qed.

Lemma literal_cache_root_is_scanned_until_first_failure_witness :
  names_distinct example_disk = true
  /\ (height example_disk < 6)%nat
  /\ includesStar (expandHome example_home (HomeRel ["Library"; "Caches"])) = false
  /\ untilFailure example_disk ["Users"; "me"; "Library"; "Caches"]
       (listing example_disk ["Users"; "me"; "Library"; "Caches"]) = []
  /\ scanCacheFilesIn example_disk example_home (GB / 2) 6
       [HomeRel ["Library"; "Caches"]] = Val [].
Proof.
  split; [reflexivity |]. split; [exact example_disk_budget |].
  split; [reflexivity |]. split; [reflexivity |].
  rewrite (literal_cache_root_is_scanned_until_first_failure 6 example_disk
             example_home (GB / 2) (HomeRel ["Library"; "Caches"])
             eq_refl example_disk_budget eq_refl).
  reflexivity.
Defined.

(** ** deleteFiles: what is left of the disk *)

Lemma deleteFiles_unfold (sofar : interruption) (confirm : bool) (files : list pathname) (w : world) :
  deleteFiles sofar confirm files w =
  match files with
  | [] => print NoFilesSelected w
  | _ :: _ =>
      if confirm then
        match forOf files (deleteOne sofar) (mkWorld (fsys w) 0 0 (console w)) with
        | (Val _, w1) =>
            (Val tt,
             mkWorld (fsys w1) (deletedCount w1) (errorCount w1)
               (console w1 ++ [DeletedItems (deletedCount w1) (errorCount w1)]))
        | (Exn, w1) => (Exn, w1)
        | (OutOfFuel, w1) => (OutOfFuel, w1)
        end
      else print OperationCancelled w
  end.
Proof.
  unfold deleteFiles. destruct files as [| file files]; [reflexivity |].
  cbn [length Nat.eqb]. destruct confirm; [| reflexivity].
  cbn [negb]. unfold bind at 1, modify at 1. unfold bind at 1.
  destruct (forOf _ _ _) as [[c | |] w1]; reflexivity.
Qed.

Lemma deleteLoop_frame (sofar : interruption) (files : list pathname) (w w' : world) (o : outcome control)
    (q : pathname) :
  forOf files (deleteOne sofar) w = (o, w') ->
  (forall p, In p files -> unrelated p q) ->
  lookup (fsys w') q = lookup (fsys w) q.
Proof.
  revert w. induction files as [| file files IH]; intros w.
  - simpl. unfold ret. now intros [= _ <-].
  - rewrite forOf_deleteOne_cons. intros Hloop Hun.
    assert (forall p, In p files -> unrelated p q) as Hun' by (intros; apply Hun; now right).
    destruct (removePath (fsys w) file) as [d | |] eqn:Hr.
    + rewrite (IH _ Hloop Hun'). simpl.
      apply removePath_inv in Hr. destruct Hr as [Hr _].
      eapply detach_lookup_unrelated; eauto. apply Hun. now left.
    + rewrite (IH _ Hloop Hun'). simpl.
      apply afterFailure_unrelated; [assumption | apply Hun; now left].
    + now apply removePath_finishes in Hr.
Qed.

(** X5.  Whatever is selected and answered, deleteFiles returns; a path that is
    unrelated to every selected path (not one of them, not inside one, not
    above one) resolves afterwards to what it resolved to before; and a
    path that did not resolve before does not resolve afterwards. *)
Theorem deleteFiles_leaves_unrelated_paths_alone
    (sofar : interruption) (confirm : bool) (files : list pathname) (w : world) :
  exists w',
    deleteFiles sofar confirm files w = (Val tt, w')
    /\ (forall q, (forall p, In p files -> unrelated p q) ->
                  lookup (fsys w') q = lookup (fsys w) q)
    /\ (forall q, lookup (fsys w) q = None -> lookup (fsys w') q = None).
Proof.
  rewrite deleteFiles_unfold.
  destruct files as [| file files].
  - eexists. split; [reflexivity |]. simpl. auto.
  - destruct confirm.
    + destruct (deleteLoop_counts sofar (file :: files) (mkWorld (fsys w) 0 0 (console w)))
        as (w1 & Hloop & _).
      rewrite Hloop. eexists. split; [reflexivity |]. simpl. split.
      * intros q Hq. now rewrite (deleteLoop_frame _ _ _ _ _ q Hloop Hq).
      * intros q Hq. now apply (deleteLoop_keeps_absent _ _ _ _ _ q Hloop).
    + eexists. split; [reflexivity |]. simpl. auto.
Qed.

Lemma deleteLoop_console (sofar : interruption) (files : list pathname) (w : world) :
  exists w',
    forOf files (deleteOne sofar) w = (Val Next, w')
    /\ console w' = console w ++ map ErrorDeleting (failures sofar (fsys w) files)
    /\ errorCount w' = (errorCount w + length (failures sofar (fsys w) files))%nat
    /\ (deletedCount w' + length (failures sofar (fsys w) files)
        = deletedCount w + length files)%nat.
Proof.
  revert w. induction files as [| file files IH]; intros w.
  - exists w. simpl. rewrite app_nil_r. repeat split; lia.
  - rewrite forOf_deleteOne_cons. cbn [failures].
    destruct (removePath (fsys w) file) as [d | |] eqn:Hr.
    + destruct (IH (mkWorld d (S (deletedCount w)) (errorCount w) (console w)))
        as (w' & -> & Hc & He & Hd).
      exists w'. simpl in *. repeat split; auto; lia.
    + destruct (IH (mkWorld (afterFailure sofar (fsys w) file) (deletedCount w)
                      (S (errorCount w)) (console w ++ [ErrorDeleting file])))
        as (w' & -> & Hc & He & Hd).
      exists w'. simpl in *. repeat split; auto; try lia.
      now rewrite Hc, <- app_assoc.
    + now apply removePath_finishes in Hr.
Qed.

(** Taking an entry out does not change what can be taken out elsewhere. *)
Lemma detach_unrelated_same (n n1 : node) (p q : pathname) :
  detach n p = Some n1 -> unrelated p q ->
  (exists n2, detach n q = Some n2) <-> (exists n3, detach n1 q = Some n3).
Proof.
  revert n n1 q. induction p as [| x p IH]; intros n n1 q; simpl;
    [discriminate |].
  destruct n as [z | r w es |]; try discriminate.
  destruct (assoc x es) as [c |] eqn:Ha; [| discriminate].
  destruct q as [| y q]; [intros _ _; split; intros [? H]; discriminate |].
  intros Hp Hun.
  assert (exists es1, n1 = Dir r w es1 /\
            (x <> y -> assoc y es1 = assoc y es) /\
            (x = y -> exists x' p' c', p = x' :: p' /\ detach c p = Some c'
                                       /\ assoc y es1 = Some c')) as Hn1.
  { destruct p as [| x' p].
    - destruct w; [| discriminate]. injection Hp as <-.
      eexists. split; [reflexivity |]. split.
      + intros Hne. now apply assoc_removeEntry_other.
      + intros <-. exfalso. destruct Hun as [Hpq _]. apply Hpq.
        apply below_cons. split; [reflexivity | apply below_nil].
    - destruct (detach c (x' :: p)) as [c' |] eqn:Hc; [| discriminate].
      injection Hp as <-. eexists. split; [reflexivity |]. split.
      + intros Hne. now apply assoc_replaceEntry_other.
      + intros <-. exists x', p, c'. repeat split.
        now apply assoc_replaceEntry_same with (c := c). }
  destruct Hn1 as (es1 & -> & Hother & Hsame).
  cbn [detach].
  destruct (String.eqb_spec x y) as [<- | Hne].
  - destruct (Hsame eq_refl) as (x' & p' & c' & -> & Hc & Ha1).
    rewrite Ha, Ha1.
    destruct q as [| y' q].
    + exfalso. destruct Hun as [_ Hqp]. apply Hqp.
      apply below_cons. split; [reflexivity | apply below_nil].
    + apply unrelated_cons in Hun.
      pose proof (IH _ _ _ Hc Hun) as Hiff.
      destruct (detach c (y' :: q)) as [c2 |];
        destruct (detach c' (y' :: q)) as [c3 |].
      * split; eauto.
      * exfalso. destruct Hiff as [H _]. destruct H as [? H]; eauto. discriminate.
      * exfalso. destruct Hiff as [_ H]. destruct H as [? H]; eauto. discriminate.
      * split; intros [? H]; discriminate.
  - rewrite (Hother Hne).
    destruct (assoc y es) as [c2 |]; [| tauto].
    destruct q as [| y' q].
    + destruct w; split; eauto; intros [? H]; discriminate.
    + destruct (detach c2 (y' :: q)); split; eauto; intros [? H]; discriminate.
Qed.

(** Nor for which other paths a removal throws. *)
Lemma throws_after_detach (n n1 : node) (p q : pathname) :
  detach n p = Some n1 -> unrelated p q -> throws n1 q = throws n q.
Proof.
  intros Hp Hun. unfold throws. rewrite !removePath_unfold.
  rewrite (detach_lookup_unrelated _ _ _ _ Hp Hun).
  pose proof (detach_unrelated_same _ _ _ _ Hp Hun) as Hiff.
  assert (match detach n1 q with Some _ => true | None => false end
          = match detach n q with Some _ => true | None => false end) as Hsome.
  { destruct (detach n q) as [n2 |]; destruct (detach n1 q) as [n3 |];
      try reflexivity; exfalso.
    - destruct Hiff as [H _]. destruct H as [? H]; eauto. discriminate.
    - destruct Hiff as [_ H]. destruct H as [? H]; eauto. discriminate. }
  destruct (lookup n q) as [[z | r w es |] |]; try reflexivity.
  - destruct (detach n q); destruct (detach n1 q); try reflexivity; discriminate.
  - destruct (removable (Dir r w es)); [| reflexivity].
    destruct (detach n q); destruct (detach n1 q); try reflexivity; discriminate.
Qed.

Lemma throws_after_removal (sofar : interruption) (disk : node) (p q : pathname) :
  unrelated p q ->
  throws (match removePath disk p with
          | Val d => d
          | _ => afterFailure sofar disk p
          end) q
  = throws disk q.
Proof.
  intros Hun. destruct (removePath disk p) as [d | |] eqn:Hr.
  - apply removePath_inv in Hr. destruct Hr as [Hr _].
    now apply (throws_after_detach _ _ p).
  - destruct (afterFailure_cases sofar disk p Hr) as [-> | ->]; [reflexivity |].
    apply (prune_invariant (fun d => throws d q = throws disk q)); [| reflexivity].
    intros d p0 d' Hd Hin Hp0. rewrite <- Hd.
    apply In_within in Hin. destruct Hin as (r & _ & ->).
    apply (throws_after_detach _ _ (p ++ r)); [assumption |].
    now apply unrelated_inside.
  - now apply removePath_finishes in Hr.
Qed.

(** On a selection of unrelated paths, the removals that throw are those
    that would throw on the disk as it is at the start. *)
Lemma failures_unrelated (sofar : interruption) (disk : node) (files : list pathname) :
  ForallOrdPairs unrelated files ->
  failures sofar disk files = filter (throws disk) files.
Proof.
  intros Hun. revert disk. induction Hun as [| file files Hfile Hun IH]; intros disk;
    [reflexivity |].
  cbn [failures filter].
  rewrite Forall_forall in Hfile.
  assert (forall d', d' = match removePath disk file with
                          | Val d => d
                          | _ => afterFailure sofar disk file
                          end ->
                     failures sofar d' files = filter (throws disk) files) as Hrest.
  { intros d' ->. rewrite IH. apply filter_ext_in. intros q Hq.
    apply throws_after_removal. now apply Hfile. }
  unfold throws at 1.
  destruct (removePath disk file) as [d | |] eqn:Hr.
  - now apply Hrest.
  - f_equal. now apply Hrest.
  - f_equal. now apply Hrest.
Qed.

(** X6.  A confirmed deletion prints one error line for each selected path
    whose removal throws, in the order of the selection, and then one line
    with the two counts; the failures counted are the error lines printed,
    and the deletions counted are the other selected paths.  Each removal
    is tried on the disk that the removals in front of it have left; when
    no selected path is another or inside another, the removals that throw
    are those that would throw at the start, whatever a removal that throws
    has taken out by then. *)
Theorem deleteFiles_prints_each_failure_then_the_tally
    (sofar : interruption) (files : list pathname) (w : world) :
  files <> [] ->
  exists w',
    deleteFiles sofar true files w = (Val tt, w')
    /\ console w' =
       console w ++ map ErrorDeleting (failures sofar (fsys w) files)
       ++ [DeletedItems (length files - length (failures sofar (fsys w) files))
             (length (failures sofar (fsys w) files))]
    /\ errorCount w' = length (failures sofar (fsys w) files)
    /\ deletedCount w'
       = (length files - length (failures sofar (fsys w) files))%nat
    /\ (ForallOrdPairs unrelated files ->
        failures sofar (fsys w) files = filter (throws (fsys w)) files).
Proof.
  intros Hne.
  destruct (deleteLoop_console sofar files (mkWorld (fsys w) 0 0 (console w)))
    as (w1 & Hloop & Hc & He & Hd).
  eexists.
  split; [exact (deleteFiles_confirmed sofar files w w1 Next Hne Hloop) |].
  simpl in *.
  assert (deletedCount w1
          = (length files - length (failures sofar (fsys w) files))%nat) as Hd' by lia.
  rewrite Hc, He, Hd', <- app_assoc.
  repeat split. apply failures_unrelated.
Qed.

Lemma deleteFiles_prints_each_failure_then_the_tally_witness :
  example_selection <> []
  /\ ForallOrdPairs unrelated example_selection
  /\ filter (throws example_disk) example_selection
     = [ ["Users"; "me"; "Documents"; "vanished"] ]
  /\ exists w',
       deleteFiles atOnce true example_selection (startWorld example_disk) = (Val tt, w')
       /\ console w' = [ ErrorDeleting ["Users"; "me"; "Documents"; "vanished"];
                         DeletedItems 2 1 ].
Proof.
  split; [exact example_selection_nonempty |].
  split; [exact example_selection_unrelated |].
  split; [vm_compute; reflexivity |].
  destruct (deleteFiles_prints_each_failure_then_the_tally atOnce example_selection
              (startWorld example_disk) example_selection_nonempty)
    as (w' & Hrun & Hconsole & _ & _ & Hwhich).
  exists w'. split; [exact Hrun |].
  rewrite Hconsole, (Hwhich example_selection_unrelated).
  vm_compute. reflexivity.
Defined.

Lemma filter_all (A : Type) (f : A -> bool) (l : list A) :
  (forall x, In x l -> f x = true) -> filter f l = l.
Proof.
  induction l as [| a l IH]; intros H; simpl; [reflexivity |].
  rewrite (H a (or_introl eq_refl)). f_equal. apply IH. intros x Hx. apply H. now right.
Qed.

Lemma filter_none (A : Type) (f : A -> bool) (l : list A) :
  (forall x, In x l -> f x = false) -> filter f l = [].
Proof.
  induction l as [| a l IH]; intros H; simpl; [reflexivity |].
  rewrite (H a (or_introl eq_refl)). apply IH. intros x Hx. apply H. now right.
Qed.

(** X7.  A confirmed deletion of unrelated paths that are all there and can all
    be removed counts every one of them as deleted and reports no failure;
    afterwards nothing resolves at a selected path or anywhere inside a
    selected directory. *)
Theorem deleteFiles_removes_the_whole_selection
    (sofar : interruption) (disk : node) (files : list pathname) :
  files <> [] ->
  ForallOrdPairs unrelated files ->
  (forall p, In p files -> exists d', removePath disk p = Val d') ->
  exists w',
    deleteFiles sofar true files (startWorld disk) = (Val tt, w')
    /\ errorCount w' = 0%nat
    /\ deletedCount w' = length files
    /\ console w' = [DeletedItems (length files) 0]
    /\ forall p inside, In p files -> lookup (fsys w') (p ++ inside) = None.
Proof.
  intros Hne Hun Hall.
  destruct (deleteLoop_unrelated sofar files (mkWorld disk 0 0 []) Hun)
    as (w1 & Hloop & Hgone & He & Hd).
  { intros p Hp. right. now apply Hall. }
  assert (forall p, In p files -> absent disk p = false) as Hpresent.
  { intros p Hp. destruct (Hall p Hp) as [d' Hd'].
    apply removePath_inv in Hd'. destruct Hd' as [_ [n Hn]].
    unfold absent. now rewrite Hn. }
  simpl in He, Hd.
  rewrite (filter_none _ _ _ Hpresent) in He.
  rewrite (filter_all _ (fun p => negb (absent disk p)) files) in Hd
    by (intros p Hp; now rewrite (Hpresent p Hp)).
  destruct (deleteLoop_console sofar files (mkWorld disk 0 0 []))
    as (w2 & Hloop2 & Hc & He2 & _).
  rewrite Hloop in Hloop2. injection Hloop2 as <-.
  simpl in He, He2, Hc.
  assert (failures sofar disk files = []) as Hnone
      by (destruct (failures sofar disk files); [reflexivity | simpl in *; lia]).
  rewrite Hnone in Hc.
  eexists. split; [exact (deleteFiles_confirmed sofar files (startWorld disk) w1 Next Hne Hloop) |].
  simpl. rewrite He, Hd, Hc. repeat split.
  intros p inside Hp. rewrite lookup_app, (Hgone p Hp). reflexivity.
Qed.

Lemma deleteFiles_removes_the_whole_selection_witness :
  [ ["Users"; "me"; "Documents"; "bigfile"]; ["Users"; "me"; "Documents"; "cache"] ] <> []
  /\ exists w',
       deleteFiles atOnce true
         [ ["Users"; "me"; "Documents"; "bigfile"]; ["Users"; "me"; "Documents"; "cache"] ]
         (startWorld example_disk) = (Val tt, w')
       /\ errorCount w' = 0%nat
       /\ lookup (fsys w') (["Users"; "me"; "Documents"; "cache"] ++ ["a"]) = None.
Proof.
  split; [discriminate |].
  destruct (deleteFiles_removes_the_whole_selection atOnce example_disk
              [ ["Users"; "me"; "Documents"; "bigfile"];
                ["Users"; "me"; "Documents"; "cache"] ])
    as (w' & Hrun & He & _ & _ & Hgone).
  - discriminate.
  - repeat (constructor; [repeat (constructor; [apply unrelatedb; reflexivity |]);
                          constructor |]).
    constructor.
  - intros p [<- | [<- | []]]; eexists; vm_compute; reflexivity.
  - exists w'. split; [exact Hrun |]. split; [exact He |].
    apply Hgone. right. left. reflexivity.
Defined.

(** *** Removal keeps the disk well-formed *)

Lemma removeEntry_filter (x : string) (es : list (string * node)) :
  removeEntry x es = filter (fun yc => negb (String.eqb x (fst yc))) es.
Proof.
  induction es as [| [y c] es IH]; simpl; [reflexivity |].
  destruct (String.eqb x y); simpl; now rewrite IH.
Qed.

Lemma NoDup_distinct (xs : list string) : NoDup xs -> distinct xs = true.
Proof.
  induction 1 as [| x xs Hx _ IH]; simpl; [reflexivity |].
  rewrite IH, andb_true_r. apply negb_true_iff.
  destruct (existsb (String.eqb x) xs) eqn:E; [| reflexivity].
  apply existsb_exists in E. destruct E as (y & Hy & Heq).
  apply String.eqb_eq in Heq. subst. contradiction.
Qed.

Lemma distinct_removeEntry (x : string) (es : list (string * node)) :
  distinct (map fst es) = true -> distinct (map fst (removeEntry x es)) = true.
Proof.
  intros H. apply distinct_NoDup in H. apply NoDup_distinct.
  rewrite removeEntry_filter.
  induction es as [| [y c] es IH]; simpl; [constructor |].
  inversion H as [| ? ? Hy Hnd]; subst.
  destruct (String.eqb x y); simpl; [auto |].
  constructor; [| auto].
  intros Hin. apply Hy. apply in_map_iff in Hin.
  destruct Hin as (yc & Hfst & Hyc). apply filter_In in Hyc.
  apply in_map_iff. exists yc. tauto.
Qed.

Lemma map_fst_replaceEntry (x : string) (c' : node) (es : list (string * node)) :
  map fst (replaceEntry x c' es) = map fst es.
Proof.
  induction es as [| [y c] es IH]; simpl; [reflexivity |].
  destruct (String.eqb x y); simpl; [reflexivity | now rewrite IH].
Qed.

Lemma forallb_removeEntry (f : string * node -> bool) (x : string)
    (es : list (string * node)) :
  forallb f es = true -> forallb f (removeEntry x es) = true.
Proof.
  induction es as [| [y c] es IH]; simpl; [reflexivity |].
  rewrite andb_true_iff. intros [H1 H2].
  destruct (String.eqb x y); simpl; [auto |]. now rewrite H1, IH.
Qed.

Lemma forallb_replaceEntry (g : node -> bool) (x : string) (c' : node)
    (es : list (string * node)) :
  g c' = true ->
  forallb (fun xc => g (snd xc)) es = true ->
  forallb (fun xc => g (snd xc)) (replaceEntry x c' es) = true.
Proof.
  intros Hc. induction es as [| [y c] es IH]; simpl; [reflexivity |].
  rewrite andb_true_iff. intros [H1 H2].
  destruct (String.eqb x y); simpl; [now rewrite Hc, H2 | now rewrite H1, IH].
Qed.

Lemma detach_well_formed (n n' : node) (p : pathname) :
  well_formed n = true -> detach n p = Some n' -> well_formed n' = true.
Proof.
  revert n n'. induction p as [| x p IH]; intros n n'; simpl; [discriminate |].
  destruct n as [z | r w es |]; try discriminate.
  destruct (assoc x es) as [c |] eqn:Ha; [| discriminate].
  intros Hwf. unfold well_formed in Hwf. simpl in Hwf.
  rewrite !andb_true_iff in Hwf. destruct Hwf as [[Hd Hnames] Hsizes].
  destruct p as [| y p].
  - destruct w; [| discriminate]. intros [= <-].
    unfold well_formed. simpl. rewrite !andb_true_iff. repeat split.
    + now apply distinct_removeEntry.
    + now apply forallb_removeEntry.
    + now apply forallb_removeEntry.
  - destruct (detach c (y :: p)) as [c' |] eqn:Hc; [| discriminate].
    intros [= <-].
    assert (well_formed c = true) as Hwc.
    { apply assoc_In in Ha. rewrite forallb_forall in Hnames, Hsizes.
      pose proof (Hnames _ Ha) as H1. pose proof (Hsizes _ Ha) as H2.
      simpl in H1, H2. unfold well_formed. now rewrite H1, H2. }
    apply IH in Hc; [| assumption].
    apply well_formed_parts in Hc. destruct Hc as [Hc1 Hc2].
    unfold well_formed. simpl. rewrite !andb_true_iff. repeat split.
    + now rewrite map_fst_replaceEntry.
    + now apply forallb_replaceEntry.
    + now apply forallb_replaceEntry.
Qed.

Lemma afterFailure_well_formed (sofar : interruption) (disk : node)
    (file : pathname) :
  removePath disk file = Exn ->
  well_formed disk = true -> well_formed (afterFailure sofar disk file) = true.
Proof.
  intros Hf Hwf.
  destruct (afterFailure_cases sofar disk file Hf) as [-> | ->]; [assumption |].
  apply (prune_invariant (fun d => well_formed d = true)); [| assumption].
  intros d q d' Hd _ Hq. eapply detach_well_formed; eauto.
Qed.

(** X8.  deleteFiles keeps a well-formed disk well-formed, whatever is
    selected and answered, and whatever a removal that throws has taken
    out by then. *)
Theorem deleteFiles_keeps_the_disk_well_formed
    (sofar : interruption) (confirm : bool) (files : list pathname) (w : world) :
  well_formed (fsys w) = true ->
  well_formed (fsys (snd (deleteFiles sofar confirm files w))) = true.
Proof.
  intros Hwf. rewrite deleteFiles_unfold.
  destruct files as [| file files]; [exact Hwf |].
  destruct confirm; [| exact Hwf].
  assert (forall l w0 o w1,
             well_formed (fsys w0) = true ->
             forOf l (deleteOne sofar) w0 = (o, w1) -> well_formed (fsys w1) = true) as Hloop.
  { induction l as [| p l IH]; intros w0 o w1 Hw0.
    - simpl. unfold ret. now intros [= _ <-].
    - rewrite forOf_deleteOne_cons.
      destruct (removePath (fsys w0) p) as [d | |] eqn:Hr.
      + apply IH. simpl. apply removePath_inv in Hr. destruct Hr as [Hr _].
        eapply detach_well_formed; eauto.
      + apply IH. simpl. now apply afterFailure_well_formed.
      + now apply removePath_finishes in Hr. }
  destruct (forOf _ _ _) as [[c | |] w1] eqn:Hrun; simpl;
    apply (Hloop _ (mkWorld (fsys w) 0 0 (console w)) _ _ Hwf Hrun).
Qed.

Lemma deleteFiles_keeps_the_disk_well_formed_witness :
  well_formed (fsys (startWorld example_disk)) = true
  /\ well_formed
       (fsys (snd (deleteFiles atOnce true example_selection (startWorld example_disk))))
     = true.
Proof.
  split; [reflexivity |].
  exact (deleteFiles_keeps_the_disk_well_formed atOnce true example_selection
           (startWorld example_disk) eq_refl).
Defined.

(** *** What a removal frees *)

Lemma sum_removeEntry (x : string) (c : node) (es : list (string * node)) :
  NoDup (map fst es) ->
  assoc x es = Some c ->
  sumZ (map (fun xc => treeSize (snd xc)) es)
  = treeSize c + sumZ (map (fun xc => treeSize (snd xc)) (removeEntry x es)).
Proof.
  induction es as [| [y d] es IH]; simpl; [discriminate |].
  intros Hnd. inversion Hnd as [| ? ? Hy Hnd']; subst.
  destruct (String.eqb_spec x y) as [<- | Hne].
  - intros [= ->]. f_equal.
    rewrite removeEntry_filter, filter_all; [reflexivity |].
    intros [z e] Hin. simpl. apply negb_true_iff.
    destruct (String.eqb_spec x z) as [<- | _]; [| reflexivity].
    exfalso. apply Hy. change x with (fst (x, e)). now apply in_map.
  - intros Ha. unfold sumZ in *. simpl. rewrite (IH Hnd' Ha). lia.
Qed.

Lemma sum_replaceEntry (x : string) (c c' : node) (es : list (string * node)) :
  assoc x es = Some c ->
  sumZ (map (fun xc => treeSize (snd xc)) (replaceEntry x c' es))
  = sumZ (map (fun xc => treeSize (snd xc)) es) - treeSize c + treeSize c'.
Proof.
  induction es as [| [y d] es IH]; simpl; [discriminate |].
  destruct (String.eqb x y).
  - intros [= ->]. unfold sumZ. simpl. lia.
  - intros Ha. unfold sumZ in *. simpl. rewrite (IH Ha). lia.
Qed.

(** Below directories that can be enumerated, taking a node out lowers the
    size by the size of that node. *)
Lemma treeSize_detach (n n' : node) (q : pathname) :
  names_distinct n = true ->
  detach n q = Some n' ->
  (forall a b, q = a ++ b -> b <> [] ->
     exists w es, lookup n a = Some (Dir true w es)) ->
  exists m, lookup n q = Some m /\ treeSize n' = treeSize n - treeSize m.
Proof.
  revert n n'. induction q as [| x q IH]; intros n n' Hd; simpl; [discriminate |].
  destruct n as [z | r w es |]; try discriminate.
  destruct (assoc x es) as [c |] eqn:Ha; [| discriminate].
  intros Hdet Hdirs.
  destruct (Hdirs [] (x :: q) eq_refl) as (w0 & es0 & H0); [discriminate |].
  injection H0 as -> -> ->.
  pose proof Hd as Hd'. simpl in Hd'. apply andb_true_iff in Hd'.
  destruct Hd' as [Hnames Hsub]. apply distinct_NoDup in Hnames.
  destruct q as [| y q].
  - destruct w0; [| discriminate]. injection Hdet as <-.
    exists c. split; [reflexivity |].
    rewrite !treeSize_Dir, (sum_removeEntry x c es0 Hnames Ha). lia.
  - destruct (detach c (y :: q)) as [c' |] eqn:Hc; [| discriminate].
    injection Hdet as <-.
    destruct (IH c c') as (m & Hm & Hsize); [| assumption | |].
    + eapply names_distinct_entry; eauto using assoc_In.
    + intros a b Hq Hb.
      destruct (Hdirs (x :: a) b) as (w1 & es1 & H1);
        [simpl; now rewrite Hq | assumption |].
      simpl in H1. rewrite Ha in H1. eauto.
    + exists m. split; [exact Hm |].
      rewrite !treeSize_Dir, (sum_replaceEntry x c c' es0 Ha). lia.
Qed.

Lemma detach_below (n n' : node) (a q : pathname) :
  q <> [] ->
  detach n (a ++ q) = Some n' ->
  exists m m', lookup n a = Some m /\ detach m q = Some m' /\ lookup n' a = Some m'.
Proof.
  intros Hq. revert n n'. induction a as [| x a IH]; intros n n'.
  - simpl. intros H. exists n, n'. auto.
  - cbn [app detach lookup].
    destruct n as [z | r w es |]; try discriminate.
    destruct (assoc x es) as [c |] eqn:Ha; [| discriminate].
    destruct (a ++ q) as [| y rest] eqn:Haq.
    { apply app_eq_nil in Haq. tauto. }
    destruct (detach c (y :: rest)) as [c' |] eqn:Hc; [| discriminate].
    intros [= <-].
    destruct (IH _ _ Hc) as (m & m' & H1 & H2 & H3).
    exists m, m'. repeat split; auto.
    cbn [lookup]. now rewrite (assoc_replaceEntry_same _ _ _ _ Ha).
Qed.

Lemma list_max_map_le (A : Type) (f : A -> nat) (l l' : list A) (bound : nat) :
  (forall x, In x l' -> (f x <= bound)%nat) ->
  (list_max (map f l') <= bound)%nat.
Proof.
  intros H. apply list_max_le, Forall_forall. intros k Hk.
  apply in_map_iff in Hk. destruct Hk as (x & <- & Hx). auto.
Qed.

Lemma height_detach (n n' : node) (p : pathname) :
  detach n p = Some n' -> (height n' <= height n)%nat.
Proof.
  revert n n'. induction p as [| x p IH]; intros n n'; simpl; [discriminate |].
  destruct n as [z | r w es |]; try discriminate.
  destruct (assoc x es) as [c |] eqn:Ha; [| discriminate].
  destruct p as [| y p].
  - destruct w; [| discriminate]. intros [= <-]. simpl.
    apply (list_max_map_le _ _ es). intros [z d] Hin. simpl.
    rewrite removeEntry_filter in Hin. apply filter_In in Hin. destruct Hin as [Hin _].
    apply (height_entry r true) in Hin. simpl in Hin. lia.
  - destruct (detach c (y :: p)) as [c' |] eqn:Hc; [| discriminate].
    intros [= <-]. apply IH in Hc.
    change (height (Dir r w es)) with (list_max (map (fun xc => S (height (snd xc))) es)).
    simpl. apply (list_max_map_le _ _ es). intros [z d] Hin. simpl.
    assert (forall es1, (forall e, In e es1 -> In e es) ->
                        In (z, d) (replaceEntry x c' es1) ->
                        d = c' \/ In (z, d) es1) as Hrep.
    { induction es1 as [| [y1 d1] es1 IH1]; simpl; intros Hsub Hin1; [tauto |].
      destruct (String.eqb x y1).
      - destruct Hin1 as [[= <- <-] | Hin1]; auto.
      - destruct Hin1 as [Heq | Hin1]; [auto |].
        destruct IH1 as [-> | H]; auto. }
    destruct (Hrep es (fun e H => H) Hin) as [-> | Hin'].
    + apply assoc_In, (height_entry r w) in Ha. simpl in Ha. lia.
    + apply (height_entry r w) in Hin'. simpl in Hin'. lia.
Qed.

(** X9.  Removing one path that lies below [above], through directories that
    can all be enumerated, lowers what getFileSizeRecursive returns for
    [above] by what it returned for the removed path, as long as [above]
    holds 2^53 bytes at most (beyond, the sizes are rounded and the
    difference need not show). *)
Theorem deleting_frees_the_size_of_what_is_deleted
    (sofar : interruption) (fuel : nat) (disk : node) (above inside : pathname) (w' : world) :
  well_formed disk = true ->
  (height disk < fuel)%nat ->
  computeSize_spec disk above <= exactUpTo ->
  inside <> [] ->
  (forall a b, inside = a ++ b -> b <> [] ->
     exists w es, lookup disk (above ++ a) = Some (Dir true w es)) ->
  deleteFiles sofar true [above ++ inside] (startWorld disk) = (Val tt, w') ->
  deletedCount w' = 1%nat ->
  exists before freed,
    getFileSizeRecursive fuel disk above = Val before
    /\ getFileSizeRecursive fuel disk (above ++ inside) = Val freed
    /\ getFileSizeRecursive fuel (fsys w') above = Val (before - freed).
Proof.
  intros Hwf Hh Hbound Hinside Hdirs Hrun Hcount.
  pose proof Hwf as Hparts. apply well_formed_parts in Hparts.
  destruct Hparts as [Hd Hn].
  unfold startWorld in Hrun.
  rewrite deleteFiles_unfold, forOf_deleteOne_cons in Hrun.
  cbn [fsys deletedCount errorCount console] in Hrun.
  destruct (removePath disk (above ++ inside)) as [d | |] eqn:Hr;
    simpl in Hrun; try discriminate;
    injection Hrun as <-; simpl in Hcount; try discriminate.
  cbn [fsys].
  apply removePath_inv in Hr. destruct Hr as [Hdet _].
  pose proof (detach_well_formed _ _ _ Hwf Hdet) as Hwf'.
  apply well_formed_parts in Hwf'. destruct Hwf' as [Hd' Hn'].
  destruct (detach_below _ _ _ _ Hinside Hdet) as (m & m' & Hm & Hdm & Hm').
  destruct (treeSize_detach m m' inside) as (gone & Hgone & Hsize);
    [exact (names_distinct_lookup _ _ _ Hd Hm) | assumption | |].
  { intros a b Hq Hb. destruct (Hdirs a b Hq Hb) as (w0 & es0 & H0).
    rewrite lookup_app, Hm in H0. eauto. }
  assert (lookup disk (above ++ inside) = Some gone) as Hlg
      by now rewrite lookup_app, Hm.
  unfold computeSize_spec in Hbound. rewrite Hm in Hbound.
  pose proof (treeSize_nonneg _ (sizes_nonneg_lookup _ _ _ Hn Hlg)) as Hg0.
  pose proof (treeSize_nonneg _ (sizes_nonneg_lookup _ _ _ Hn' Hm')) as Hm0.
  exists (treeSize m), (treeSize gone).
  rewrite !getFileSizeRecursive_spec; try assumption;
    [| apply height_detach in Hdet; lia].
  unfold measuredAt. rewrite Hm, Hm', Hlg.
  rewrite (measured_exact m (sizes_nonneg_lookup _ _ _ Hn Hm)) by lia.
  rewrite (measured_exact gone (sizes_nonneg_lookup _ _ _ Hn Hlg)) by lia.
  rewrite (measured_exact m' (sizes_nonneg_lookup _ _ _ Hn' Hm')) by lia.
  rewrite Hsize. auto.
Qed.

Lemma deleting_frees_the_size_of_what_is_deleted_witness :
  well_formed example_disk = true
  /\ (height example_disk < 6)%nat
  /\ computeSize_spec example_disk ["Users"; "me"] <= exactUpTo
  /\ exists w',
       deleteFiles atOnce true [["Users"; "me"] ++ ["Documents"; "cache"]]
         (startWorld example_disk) = (Val tt, w')
       /\ exists before freed,
            getFileSizeRecursive 6 example_disk ["Users"; "me"] = Val before
            /\ getFileSizeRecursive 6 example_disk (["Users"; "me"] ++ ["Documents"; "cache"])
               = Val freed
            /\ freed = GB / 2 + GB
            /\ getFileSizeRecursive 6 (fsys w') ["Users"; "me"] = Val (before - freed).
Proof.
  assert (computeSize_spec example_disk ["Users"; "me"] <= exactUpTo) as Hbound
      by (vm_compute; discriminate).
  split; [reflexivity |]. split; [exact example_disk_budget |].
  split; [exact Hbound |].
  eexists. split; [vm_compute; reflexivity |].
  destruct (deleting_frees_the_size_of_what_is_deleted atOnce 6 example_disk
              ["Users"; "me"] ["Documents"; "cache"]
              (snd (deleteFiles atOnce true [["Users"; "me"] ++ ["Documents"; "cache"]]
                      (startWorld example_disk))))
    as (before & freed & H1 & H2 & H3).
  - reflexivity.
  - exact example_disk_budget.
  - exact Hbound.
  - discriminate.
  - intros a b Hq Hb.
    destruct a as [| x [| y [| z a]]]; simpl in Hq.
    + eexists. eexists. reflexivity.
    + injection Hq as <- _. eexists. eexists. reflexivity.
    + injection Hq as <- <- <-. exfalso. now apply Hb.
    + destruct a; discriminate.
  - vm_compute. reflexivity.
  - reflexivity.
  - exists before, freed. repeat split; try assumption.
    vm_compute in H2. injection H2 as <-. reflexivity.
Defined.

(** ** main: what a session does to the disk *)

Lemma deleteFiles_disk_cases (sofar : interruption) (confirm : bool) (files : list pathname) (w : world) :
  fsys (snd (deleteFiles sofar confirm files w)) = fsys w
  \/ (confirm = true /\ files <> [] /\
      exists o w1,
        forOf files (deleteOne sofar) (mkWorld (fsys w) 0 0 (console w)) = (o, w1)
        /\ fsys (snd (deleteFiles sofar confirm files w)) = fsys w1).
Proof.
  rewrite deleteFiles_unfold.
  destruct files as [| file files]; [now left |].
  destruct confirm; [| now left]. right.
  split; [reflexivity |]. split; [discriminate |].
  destruct (forOf _ _ _) as [[c | |] w1] eqn:Hloop; eauto.
Qed.

Section Session.
Variable sofar : interruption.
Variable fuel : nat.
Variable home : pathname.

Lemma scanNow_then (scan : node -> outcome (list entry))
    (k : list entry -> M session control) (s : session) :
  snd (bind (scanNow scan) k s)
  = match scan (onDiskNow s) with
    | Val found => snd (k found s)
    | _ => s
    end.
Proof.
  unfold bind, scanNow. destruct (scan (onDiskNow s)); reflexivity.
Qed.

(** What is left of a turn once the scan has returned: at most one
    ticking, and the disk that the deletion of what was ticked leaves. *)
Lemma after_scan_replay (a : answers) (found : list entry) (s : session) :
  exists turns,
    tickings
      (snd ((if (length found =? 0)%nat
             then bind (say NoFilesFound) (fun _ => ret Next)
             else
               bind (note (mkTicking (present found)
                             (selectFilesToDelete (ticked a) found) (confirmed a)))
                 (fun _ =>
                    bind (deleteNow sofar (confirmed a)
                            (selectFilesToDelete (ticked a) found))
                      (fun _ => ret Next))) s))
    = tickings s ++ turns
    /\ onDiskNow
         (snd ((if (length found =? 0)%nat
                then bind (say NoFilesFound) (fun _ => ret Next)
                else
                  bind (note (mkTicking (present found)
                                (selectFilesToDelete (ticked a) found) (confirmed a)))
                    (fun _ =>
                       bind (deleteNow sofar (confirmed a)
                               (selectFilesToDelete (ticked a) found))
                         (fun _ => ret Next))) s))
       = afterTickings sofar (onDiskNow s) turns
    /\ Forall (fun t => (exists listed, listed <> [] /\ shown t = present listed)
                         /\ picked t = ticked a (shown t)
                         /\ agreed t = confirmed a) turns.
Proof.
  destruct (length found =? 0)%nat eqn:Hlen.
  - exists []. simpl. rewrite app_nil_r. auto.
  - assert (found <> []) as Hne by (intros ->; discriminate).
    exists [mkTicking (present found) (selectFilesToDelete (ticked a) found)
              (confirmed a)].
    unfold bind, note, modify, deleteNow, ret. cbn [onDiskNow tickings output].
    destruct (deleteFiles sofar (confirmed a)
                (selectFilesToDelete (ticked a) found)
                (startWorld (onDiskNow s))) as [[[] | |] w] eqn:Hdel;
      cbn [snd onDiskNow tickings afterTickings fold_left picked agreed];
      rewrite Hdel;
      (split; [reflexivity |]; split; [reflexivity |];
       constructor; [| constructor]; cbn [shown picked agreed];
       split; [exists found; split; [assumption | reflexivity] |];
       split; reflexivity).
Qed.

(** A turn adds at most one ticking, and leaves the disk that the deletion
    of what was ticked leaves. *)
Lemma turn_replay (a : answers) (s : session) :
  exists turns,
    tickings (snd (turn sofar fuel home a s)) = tickings s ++ turns
    /\ onDiskNow (snd (turn sofar fuel home a s))
       = afterTickings sofar (onDiskNow s) turns
    /\ Forall (fun t => (exists listed, listed <> [] /\ shown t = present listed)
                         /\ picked t = ticked a (shown t)
                         /\ agreed t = confirmed a) turns.
Proof.
  unfold turn.
  destruct (chosen a).
  - rewrite !scanNow_then.
    destruct (scanCacheFiles fuel (onDiskNow s) home (GB / 2)) as [found | |];
      try solve [exists []; simpl; rewrite app_nil_r; auto].
    apply after_scan_replay.
  - rewrite !scanNow_then.
    destruct (findLargeFiles fuel (onDiskNow s) home (directory a) 1000 GB)
      as [found | |];
      try solve [exists []; simpl; rewrite app_nil_r; auto].
    apply after_scan_replay.
  - exists []. simpl. rewrite app_nil_r. auto.
Qed.

Lemma afterTickings_app (disk : node) (t1 t2 : list ticking) :
  afterTickings sofar disk (t1 ++ t2)
  = afterTickings sofar (afterTickings sofar disk t1) t2.
Proof. unfold afterTickings. apply fold_left_app. Qed.

Lemma turns_replay (script : list answers) (s : session) :
  exists turns,
    tickings (snd (forOf script (turn sofar fuel home) s)) = tickings s ++ turns
    /\ onDiskNow (snd (forOf script (turn sofar fuel home) s))
       = afterTickings sofar (onDiskNow s) turns
    /\ Forall (fun t => (exists listed, listed <> [] /\ shown t = present listed)
                         /\ exists a, In a script /\ picked t = ticked a (shown t)
                                       /\ agreed t = confirmed a) turns.
Proof.
  revert s. induction script as [| a script IH]; intros s.
  - exists []. simpl. rewrite app_nil_r. auto.
  - rewrite forOf_cons.
    destruct (turn_replay a s) as (t1 & H1 & H2 & H3).
    assert (Forall (fun t => (exists listed, listed <> [] /\ shown t = present listed)
                             /\ exists a0, In a0 (a :: script)
                                           /\ picked t = ticked a0 (shown t)
                                           /\ agreed t = confirmed a0) t1) as H3'.
    { eapply Forall_impl; [| exact H3]. intros t (Hs & Hp & Ha).
      split; [assumption |]. exists a. split; [now left | auto]. }
    destruct (turn sofar fuel home a s) as [[[|] | |] s1]; simpl in H1, H2;
      try solve [exists t1; simpl; auto].
    destruct (IH s1) as (t2 & I1 & I2 & I3).
    exists (t1 ++ t2). rewrite I1, I2, H1, H2, afterTickings_app, app_assoc.
    split; [reflexivity |]. split; [reflexivity |].
    apply Forall_app. split; [assumption |].
    eapply Forall_impl; [| exact I3]. intros t (Hs & a0 & Hin & Hp).
    split; [assumption |]. exists a0. split; [now right | assumption].
Qed.

Lemma main_state (script : list answers) (s : session) :
  snd (main sofar fuel home script s)
  = snd (forOf script (turn sofar fuel home)
           (mkSession (onDiskNow s) (output s ++ [Banner]) (tickings s))).
Proof.
  unfold main, bind, say, modify.
  destruct (forOf script (turn sofar fuel home) _) as [[[|] | |] s1]; reflexivity.
Qed.

(** A session leaves the disk that the deletions of its tickings leave. *)
Lemma main_replay (script : list answers) (s : session) :
  exists turns,
    tickings (snd (main sofar fuel home script s)) = tickings s ++ turns
    /\ onDiskNow (snd (main sofar fuel home script s))
       = afterTickings sofar (onDiskNow s) turns
    /\ Forall (fun t => (exists listed, listed <> [] /\ shown t = present listed)
                         /\ exists a, In a script /\ picked t = ticked a (shown t)
                                       /\ agreed t = confirmed a) turns.
Proof.
  rewrite main_state.
  exact (turns_replay script
           (mkSession (onDiskNow s) (output s ++ [Banner]) (tickings s))).
Qed.

(** What every deletion keeps true of the disk is true after a session. *)
Lemma afterTickings_invariant (I : node -> Prop) (turns : list ticking) (disk : node) :
  (forall t d, In t turns -> I d ->
     I (fsys (snd (deleteFiles sofar (agreed t) (picked t) (startWorld d))))) ->
  I disk -> I (afterTickings sofar disk turns).
Proof.
  unfold afterTickings. revert disk.
  induction turns as [| t turns IH]; intros disk Hstep Hd; simpl; [assumption |].
  apply IH.
  - intros t0 d Hin. apply Hstep. now right.
  - apply Hstep; [now left | assumption].
Qed.
End Session.


(** X11.  A session never touches what was not ticked: a path that is
    unrelated to every path that the operator ticks, in any turn, of what
    is shown in that turn resolves at the end to what it resolved to at the
    start. *)
Theorem main_leaves_unticked_paths_alone
    (sofar : interruption) (fuel : nat) (home : pathname) (script : list answers)
    (s : session) (q : pathname) :
  exists turns,
    tickings (snd (main sofar fuel home script s)) = tickings s ++ turns
    /\ Forall (fun t => (exists listed, listed <> [] /\ shown t = present listed)
                         /\ exists a, In a script /\ picked t = ticked a (shown t)
                                       /\ agreed t = confirmed a) turns
    /\ ((forall t p, In t turns -> In p (picked t) -> unrelated p q) ->
        lookup (onDiskNow (snd (main sofar fuel home script s))) q
        = lookup (onDiskNow s) q).
Proof.
  destruct (main_replay sofar fuel home script s) as (turns & H1 & H2 & H3).
  exists turns. split; [assumption |]. split; [assumption |].
  intros Hun. rewrite H2.
  apply (afterTickings_invariant sofar (fun d => lookup d q = lookup (onDiskNow s) q));
    [| reflexivity].
  intros t d Hin Hd.
  destruct (deleteFiles_disk_cases sofar (agreed t) (picked t) (startWorld d))
    as [-> | (_ & _ & o & w1 & Hloop & ->)]; [assumption |].
  rewrite (deleteLoop_frame _ _ _ _ _ q Hloop); [assumption |].
  intros p Hp. eapply Hun; eauto.
Qed.

(** X12.  A session keeps a well-formed disk well-formed and creates nothing: a
    path that does not resolve at the start does not resolve at the end. *)
Theorem main_keeps_the_disk_well_formed_and_creates_nothing
    (sofar : interruption) (fuel : nat) (home : pathname) (script : list answers) (s : session) :
  well_formed (onDiskNow s) = true ->
  well_formed (onDiskNow (snd (main sofar fuel home script s))) = true
  /\ forall q, lookup (onDiskNow s) q = None ->
               lookup (onDiskNow (snd (main sofar fuel home script s))) q = None.
Proof.
  intros Hwf.
  destruct (main_replay sofar fuel home script s) as (turns & _ & H2 & _).
  rewrite H2. split.
  - apply (afterTickings_invariant sofar (fun d => well_formed d = true));
      [| assumption].
    intros t d _ Hd.
    destruct (deleteFiles_disk_cases sofar (agreed t) (picked t) (startWorld d))
      as [-> | (_ & _ & o & w1 & Hloop & ->)]; [assumption |].
    simpl in Hloop.
    change d with (fsys (mkWorld d 0 0 [])) in Hd.
    revert Hd Hloop. generalize (mkWorld d 0 0 []) as w0.
    induction (picked t) as [| p l IH]; intros w0 Hw0.
    + simpl. unfold ret. now intros [= _ <-].
    + rewrite forOf_deleteOne_cons.
      destruct (removePath (fsys w0) p) as [d' | |] eqn:Hr.
      * apply IH. simpl. apply removePath_inv in Hr. destruct Hr as [Hr _].
        eapply detach_well_formed; eauto.
      * apply IH. simpl. now apply afterFailure_well_formed.
      * now apply removePath_finishes in Hr.
  - intros q Hq.
    apply (afterTickings_invariant sofar (fun d => lookup d q = None));
      [| assumption].
    intros t d _ Hd.
    destruct (deleteFiles_disk_cases sofar (agreed t) (picked t) (startWorld d))
      as [-> | (_ & _ & o & w1 & Hloop & ->)]; [assumption |].
    now apply (deleteLoop_keeps_absent _ _ _ _ _ q Hloop).
Qed.


Lemma main_leaves_unticked_paths_alone_witness :
  (forall t p,
      In t (tickings (snd (main atOnce 6 example_home (example_script true)
                             (mkSession example_disk [] [])))) ->
      In p (picked t) ->
      unrelated p ["Users"; "me"; "Documents"; "sub"; "small1"])
  /\ lookup (onDiskNow (snd (main atOnce 6 example_home (example_script true)
                               (mkSession example_disk [] []))))
       ["Users"; "me"; "Documents"; "sub"; "small1"]
     = Some (File (10 * MiB))
  /\ lookup (onDiskNow (snd (main atOnce 6 example_home (example_script true)
                               (mkSession example_disk [] []))))
       ["Users"; "me"; "Documents"; "cache"]
     = None.
Proof.
  assert (forall t p,
             In t (tickings (snd (main atOnce 6 example_home (example_script true)
                                    (mkSession example_disk [] [])))) ->
             In p (picked t) ->
             unrelated p ["Users"; "me"; "Documents"; "sub"; "small1"]) as Hun.
  { intros t p Ht Hp.
    assert (In p (concat (map picked
                            (tickings (snd (main atOnce 6 example_home
                                              (example_script true)
                                              (mkSession example_disk [] []))))))) as Hin.
    { apply in_concat. exists (picked t). split; [now apply in_map | assumption]. }
    vm_compute in Hin.
    destruct Hin as [<- | [<- | []]]; apply unrelatedb; reflexivity. }
  split; [exact Hun |].
  destruct (main_leaves_unticked_paths_alone atOnce 6 example_home
              (example_script true) (mkSession example_disk [] [])
              ["Users"; "me"; "Documents"; "sub"; "small1"])
    as (turns & Hlog & _ & Hsame).
  split; [| vm_compute; reflexivity].
  rewrite Hsame; [reflexivity |].
  replace turns
    with (tickings (snd (main atOnce 6 example_home (example_script true)
                           (mkSession example_disk [] []))))
    by exact Hlog.
  exact Hun.
Defined.

Lemma main_keeps_the_disk_well_formed_and_creates_nothing_witness :
  well_formed (onDiskNow (mkSession example_disk [] [])) = true
  /\ well_formed (onDiskNow (snd (main atOnce 6 example_home (example_script true)
                                    (mkSession example_disk [] [])))) = true
  /\ lookup (onDiskNow (snd (main atOnce 6 example_home (example_script true)
                               (mkSession example_disk [] []))))
       ["Users"; "me"; "Documents"; "bigfile"] = None.
Proof.
  split; [reflexivity |].
  destruct (main_keeps_the_disk_well_formed_and_creates_nothing atOnce 6 example_home
              (example_script true) (mkSession example_disk [] []) eq_refl) as [H _].
  split; [exact H |]. vm_compute. reflexivity.
Defined.

(** ** More on selectFilesToDelete *)

Lemma reduce_sizes (l : list entry) (acc : Z) :
  fold_left (fun acc file => jsAdd acc (size file)) l acc
  = fold_left (fun acc size => jsAdd acc size) (map size l) acc.
Proof.
  revert acc. induction l as [| e l IH]; intros acc; simpl; [reflexivity | apply IH].
Qed.

Lemma sum_sizes_perm (l l' : list entry) :
  Permutation l l' -> sumZ (map size l) = sumZ (map size l').
Proof. unfold sumZ. induction 1; simpl; lia. Qed.

Lemma StronglySorted_split (A : Type) (R : A -> A -> Prop) (n : nat) (l : list A)
    (a b : A) :
  StronglySorted R l -> In a (firstn n l) -> In b (skipn n l) -> R a b.
Proof.
  intros Hs. revert n. induction Hs as [| x l Hs IH Hall]; intros n.
  - rewrite firstn_nil. intros [].
  - destruct n as [| n]; simpl; [intros [] |].
    intros [<- | Ha] Hb.
    + rewrite Forall_forall in Hall. apply Hall.
      rewrite <- (firstn_skipn n l). apply in_or_app. now right.
    + now apply (IH n).
Qed.

Lemma arraySort_strongly_descending (l : list entry) :
  StronglySorted larger_first (arraySort (fun a b => jsSub (size b) (size a)) l).
Proof.
  apply Sorted_StronglySorted; [| apply arraySort_descending].
  intros a b c Hab Hbc. unfold larger_first in *. lia.
Qed.

(** X13.  What selectFilesToDelete prints besides the choices.  The total
    is formed over all the entries it was given, not over the five in the
    table; it is the sum of their sizes as long as that sum is 2^53 at most
    and no size is negative.  The table has five rows, or as many as there
    are entries when these are fewer; no entry left out of the table is
    larger than one in it; and every entry is offered as a choice that is
    not ticked beforehand. *)
Theorem table_holds_the_largest_and_total_counts_all (files : list entry) :
  (Forall (fun file => 0 <= size file) files ->
   sumZ (map size files) <= exactUpTo ->
   total (present files) = sumZ (map size files))
  /\ length (table (present files)) = Nat.min 5 (length files)
  /\ (forall row hidden,
        In row (table (present files)) ->
        In hidden (skipn 5 (choices (present files))) ->
        size (name hidden) <= size row)
  /\ length (choices (present files)) = length files
  /\ Forall (fun c => checked c = false) (choices (present files)).
Proof.
  unfold present. cbn [total table choices].
  pose proof (arraySort_perm _ (fun a b : entry => jsSub (size b) (size a)) files)
    as Hperm.
  split; [| split; [| split; [| split]]].
  - intros Hpos Hsum. rewrite reduce_sizes.
    rewrite reduce_exact.
    + rewrite <- (sum_sizes_perm _ _ Hperm). lia.
    + lia.
    + apply Forall_map. exact (Permutation_Forall Hperm Hpos).
    + rewrite <- (sum_sizes_perm _ _ Hperm). lia.
  - rewrite length_firstn. now rewrite <- (Permutation_length Hperm).
  - intros row hidden Hrow Hhidden.
    rewrite skipn_map in Hhidden. apply in_map_iff in Hhidden.
    destruct Hhidden as (e & <- & He). simpl.
    exact (StronglySorted_split _ _ _ _ _ _ (arraySort_strongly_descending files)
             Hrow He).
  - rewrite length_map. symmetry. now apply Permutation_length.
  - apply Forall_forall. intros c Hc. apply in_map_iff in Hc.
    now destruct Hc as (e & <- & _).
Qed.

Lemma table_holds_the_largest_and_total_counts_all_witness :
  Forall (fun file => 0 <= size file) example_entries
  /\ sumZ (map size example_entries) <= exactUpTo
  /\ total (present example_entries) = GB / 2 + 2 * GB + GB.
Proof.
  assert (Forall (fun file => 0 <= size file) example_entries) as Hpos
      by (repeat constructor; discriminate).
  assert (sumZ (map size example_entries) <= exactUpTo) as Hsum
      by (vm_compute; discriminate).
  split; [exact Hpos |]. split; [exact Hsum |].
  destruct (table_holds_the_largest_and_total_counts_all example_entries) as [H _].
  rewrite (H Hpos Hsum). reflexivity.
Defined.

(** ** How a session ends *)

(** A removal that throws leaves a disk that is no higher. *)
Lemma afterFailure_height (sofar : interruption) (disk : node) (file : pathname) :
  removePath disk file = Exn ->
  (height (afterFailure sofar disk file) <= height disk)%nat.
Proof.
  intros Hf.
  destruct (afterFailure_cases sofar disk file Hf) as [-> | ->]; [lia |].
  apply (prune_invariant (fun d => (height d <= height disk)%nat)); [| lia].
  intros d q d' Hd _ Hq. apply height_detach in Hq. lia.
Qed.

Lemma deleteLoop_height (sofar : interruption) (files : list pathname) (w w' : world) (o : outcome control) :
  forOf files (deleteOne sofar) w = (o, w') ->
  (height (fsys w') <= height (fsys w))%nat.
Proof.
  revert w. induction files as [| file files IH]; intros w.
  - simpl. unfold ret. intros [= _ <-]. lia.
  - rewrite forOf_deleteOne_cons.
    destruct (removePath (fsys w) file) as [d | |] eqn:Hr.
    + intros H. apply IH in H. simpl in H.
      apply removePath_inv in Hr. destruct Hr as [Hr _].
      apply height_detach in Hr. lia.
    + intros H. apply IH in H. simpl in H.
      pose proof (afterFailure_height sofar (fsys w) file Hr). lia.
    + now apply removePath_finishes in Hr.
Qed.

(** deleteFiles catches every failure of a deletion itself. *)
Lemma deleteFiles_returns (sofar : interruption) (confirm : bool) (files : list pathname) (w : world) :
  exists w',
    deleteFiles sofar confirm files w = (Val tt, w')
    /\ (height (fsys w') <= height (fsys w))%nat.
Proof.
  rewrite deleteFiles_unfold.
  destruct files as [| file files].
  - eexists. split; [reflexivity | simpl; lia].
  - destruct confirm.
    + destruct (deleteLoop_counts sofar (file :: files) (mkWorld (fsys w) 0 0 (console w)))
        as (w1 & Hloop & _).
      rewrite Hloop. eexists. split; [reflexivity |].
      apply deleteLoop_height in Hloop. simpl in *. lia.
    + eexists. split; [reflexivity | simpl; lia].
Qed.

Section SessionEnd.
Variable sofar : interruption.
Variable fuel : nat.
Variable home : pathname.

(** What is left of a turn once the scan has returned. *)
Lemma after_scan_continues (a : answers) (filesToChooseFrom : list entry) (s : session) :
  exists s',
    (if (length filesToChooseFrom =? 0)%nat
     then bind (say NoFilesFound) (fun _ => ret Next)
     else
       bind (note (mkTicking (present filesToChooseFrom)
                     (selectFilesToDelete (ticked a) filesToChooseFrom) (confirmed a)))
         (fun _ =>
            bind (deleteNow sofar (confirmed a)
                    (selectFilesToDelete (ticked a) filesToChooseFrom))
              (fun _ => ret Next))) s
    = (Val Next, s')
    /\ (height (onDiskNow s') <= height (onDiskNow s))%nat
    /\ exists printed, output s' = output s ++ printed.
Proof.
  destruct (length filesToChooseFrom =? 0)%nat.
  - eexists. split; [reflexivity |]. split; [simpl; lia |].
    simpl. eauto.
  - unfold bind, note, modify, deleteNow. cbn [onDiskNow output tickings].
    destruct (deleteFiles_returns sofar (confirmed a)
                (selectFilesToDelete (ticked a) filesToChooseFrom)
                (startWorld (onDiskNow s))) as (w' & -> & Hh).
    eexists. split; [reflexivity |]. split; [exact Hh |].
    simpl. eauto.
Qed.

Lemma turn_continues (a : answers) (s : session) :
  chosen a <> EXIT ->
  (height (onDiskNow s) < fuel)%nat ->
  exists s',
    turn sofar fuel home a s = (Val Next, s')
    /\ (height (onDiskNow s') <= height (onDiskNow s))%nat
    /\ exists printed, output s' = output s ++ printed.
Proof.
  intros Hstay Hh. unfold turn.
  destruct (chosen a); [| | contradiction].
  - unfold bind at 1, scanNow, scanCacheFiles.
    destruct (scanCacheFilesIn_reaches (onDiskNow s) home (GB / 2) fuel Hh cacheDirs)
      as (found & -> & _).
    apply after_scan_continues.
  - unfold bind at 1, scanNow.
    destruct (findLargeFiles_returns fuel (onDiskNow s) home (directory a) 1000 GB Hh)
      as (st & _ & _ & ->).
    apply after_scan_continues.
Qed.

Lemma turns_continue (before : list answers) (s : session) :
  Forall (fun a => chosen a <> EXIT) before ->
  (height (onDiskNow s) < fuel)%nat ->
  exists s',
    (forall rest,
        forOf (before ++ rest) (turn sofar fuel home) s = forOf rest (turn sofar fuel home) s')
    /\ (height (onDiskNow s') <= height (onDiskNow s))%nat
    /\ exists printed, output s' = output s ++ printed.
Proof.
  intros Hstay. revert s. induction Hstay as [| a before Ha Hstay IH]; intros s Hh.
  - exists s. split; [reflexivity |]. split; [lia |].
    exists []. now rewrite app_nil_r.
  - destruct (turn_continues a s Ha Hh) as (s1 & Hturn & Hh1 & printed1 & Hout1).
    destruct (IH s1) as (s' & Hrest & Hh' & printed & Hout); [lia |].
    exists s'. split; [| split; [lia |]].
    + intros rest. change ((a :: before) ++ rest) with (a :: (before ++ rest)).
      rewrite forOf_cons, Hturn. apply Hrest.
    + exists (printed1 ++ printed). now rewrite Hout, Hout1, app_assoc.
Qed.

End SessionEnd.

(** X14.  With a recursion budget above the height of the disk, a session ends
    normally at the first EXIT: no failure of a scan or of a deletion
    ends it earlier, the answers that follow the EXIT are never asked for,
    the console shows the banner first and the farewell last, and the disk
    has not grown higher. *)
Theorem main_ends_at_the_first_exit
    (sofar : interruption) (fuel : nat) (home : pathname) (before after : list answers)
    (leave : answers) (s : session) :
  (height (onDiskNow s) < fuel)%nat ->
  Forall (fun a => chosen a <> EXIT) before ->
  chosen leave = EXIT ->
  exists s',
    main sofar fuel home (before ++ leave :: after) s = (Val tt, s')
    /\ main sofar fuel home (before ++ [leave]) s = (Val tt, s')
    /\ (exists printed, output s' = output s ++ Banner :: printed ++ [ThankYou])
    /\ (height (onDiskNow s') <= height (onDiskNow s))%nat.
Proof.
  intros Hh Hstay Hleave.
  assert (forall rest s1,
             forOf (leave :: rest) (turn sofar fuel home) s1
             = (Val Return,
                mkSession (onDiskNow s1) (output s1 ++ [ThankYou]) (tickings s1))) as Hexit.
  { intros rest s1. rewrite forOf_cons. unfold turn. rewrite Hleave. reflexivity. }
  destruct (turns_continue sofar fuel home before
              (mkSession (onDiskNow s) (output s ++ [Banner]) (tickings s)) Hstay Hh)
    as (s1 & Hrun & Hh1 & printed & Hout).
  exists (mkSession (onDiskNow s1) (output s1 ++ [ThankYou]) (tickings s1)).
  assert (forall rest,
             main sofar fuel home (before ++ leave :: rest) s
             = (Val tt,
                mkSession (onDiskNow s1) (output s1 ++ [ThankYou]) (tickings s1))) as Hmain.
  { intros rest. unfold main, bind at 1, say at 1, modify. unfold bind at 1.
    rewrite Hrun, Hexit. reflexivity. }
  split; [apply Hmain |]. split; [apply Hmain |]. split.
  - exists printed. simpl. rewrite Hout. simpl. now rewrite <- !app_assoc.
  - exact Hh1.
Qed.

(** ** scanCacheFiles: what a root misses *)

Lemma existsSync_false_listing (disk : node) (d : pathname) :
  existsSync disk d = false -> listing disk d = [].
Proof.
  unfold existsSync, listing, stat, readdir.
  destruct (lookup disk d) as [[z | [|] w es |] |]; try discriminate; reflexivity.
Qed.

Lemma existsSyncSlash_false_listing (disk : node) (d : pathname) :
  existsSyncSlash disk d = false -> listing disk d = [].
Proof.
  unfold existsSyncSlash, listing, stat, readdir.
  destruct (lookup disk d) as [[z | [|] w es |] |]; try discriminate; reflexivity.
Qed.

Lemma readdir_fails_listing (disk : node) (d : pathname) :
  readdir disk d = Exn -> listing disk d = [].
Proof. unfold listing. now intros ->. Qed.

Lemma flat_map_map (A B C : Type) (g : A -> B) (f : B -> list C) (l : list A) :
  flat_map f (map g l) = flat_map (fun a => f (g a)) l.
Proof. induction l as [| a l IH]; simpl; [reflexivity | now rewrite IH]. Qed.

Section WholeCacheRoot.
Variable disk : node.
Variable home : pathname.
Variable sizeThreshold : Z.
Variable budget : nat.

Hypothesis names_ok : names_distinct disk = true.
Hypothesis enough : (height disk < budget)%nat.

(** The children of one cache directory: the loop either goes through all
    of them, or throws at one that cannot be statted and misses the
    candidates from there on. *)
Lemma children_prefix (dir : pathname) (files : list string) (s : list entry) :
  exists o found missed,
    forOf files (checkCacheChild disk sizeThreshold budget dir) s = (o, s ++ found)
    /\ candidates disk sizeThreshold dir files = found ++ missed
    /\ ((o = Val Next /\ missed = [])
        \/ (o = Exn
            /\ ~ Forall (fun file => stat disk (join dir file) <> Exn) files)).
Proof.
  revert s. induction files as [| file files IH]; intros s.
  - exists (Val Next), [], []. simpl. unfold ret. rewrite app_nil_r. auto.
  - rewrite forOf_cons, (checkCacheChild_candidate disk sizeThreshold budget names_ok enough).
    pose proof (stat_finishes disk (join dir file)) as Hfin.
    destruct (stat disk (join dir file)) as [stats | |] eqn:Hs; [| | congruence].
    + destruct (IH (s ++ match candidate disk sizeThreshold dir file with
                         | Some e => [e]
                         | None => []
                         end)) as (o & found & missed & Hrun & Hc & Ho).
      rewrite Hrun.
      exists o, (match candidate disk sizeThreshold dir file with
                 | Some e => [e]
                 | None => []
                 end ++ found), missed.
      split; [now rewrite app_assoc |]. split.
      * cbn [candidates flat_map]. fold (candidates disk sizeThreshold dir files).
        now rewrite Hc, app_assoc.
      * destruct Ho as [Ho | [Ho Hn]]; [now left | right].
        split; [assumption |]. intros HF. inversion HF; subst. tauto.
    + exists Exn, [], (candidates disk sizeThreshold dir (file :: files)).
      split; [now rewrite app_nil_r |]. split; [reflexivity |].
      right. split; [reflexivity |]. intros HF. inversion HF; subst. congruence.
Qed.

(** The items of a root with a star. *)
Lemma items_prefix (baseDir pattern : pathname) (items : list string) (s : list entry) :
  exists o found missed,
    forOf items
      (fun item =>
         if existsSync disk (baseDir ++ [item] ++ pattern) then
           bind (lift (readdir disk (baseDir ++ [item] ++ pattern)))
             (fun files =>
                forOf files
                  (checkCacheChild disk sizeThreshold budget
                     (baseDir ++ [item] ++ pattern)))
         else ret Next) s
    = (o, s ++ found)
    /\ flat_map (fun item =>
                   candidates disk sizeThreshold (baseDir ++ [item] ++ pattern)
                     (listing disk (baseDir ++ [item] ++ pattern))) items
       = found ++ missed
    /\ ((o = Val Next /\ missed = [])
        \/ (o = Exn
            /\ ~ Forall (fun item => scans_cleanly disk (baseDir ++ [item] ++ pattern))
                   items)).
Proof.
  revert s. induction items as [| item items IH]; intros s.
  - exists (Val Next), [], []. simpl. unfold ret. rewrite app_nil_r. auto.
  - rewrite forOf_cons. cbn [flat_map].
    destruct (existsSync disk (baseDir ++ [item] ++ pattern)) eqn:He.
    + unfold bind at 1, lift at 1.
      pose proof (readdir_finishes disk (baseDir ++ [item] ++ pattern)) as Hfin.
      destruct (readdir disk (baseDir ++ [item] ++ pattern)) as [files | |] eqn:Hr;
        [| | congruence].
      * assert (listing disk (baseDir ++ [item] ++ pattern) = files) as Hl
            by (unfold listing; now rewrite Hr).
        rewrite Hl.
        destruct (children_prefix (baseDir ++ [item] ++ pattern) files s)
          as (o1 & found1 & missed1 & Hrun1 & Hc1 & [[-> ->] | [-> Hn1]]).
        -- rewrite Hrun1. rewrite app_nil_r in Hc1.
           destruct (IH (s ++ found1)) as (o & found & missed & Hrun & Hc & Ho).
           rewrite Hrun. exists o, (found1 ++ found), missed.
           split; [now rewrite app_assoc |]. split.
           ++ now rewrite Hc1, Hc, app_assoc.
           ++ destruct Ho as [Ho | [Ho Hn]]; [now left | right].
              split; [assumption |]. intros HF. inversion HF; subst. tauto.
        -- rewrite Hrun1. eexists Exn, found1, (missed1 ++ _).
           split; [reflexivity |]. split.
           ++ rewrite Hc1, <- app_assoc. reflexivity.
           ++ right. split; [reflexivity |]. intros HF. inversion HF as [| ? ? Hd _].
              destruct Hd as [_ Hd]. rewrite Hl in Hd. tauto.
      * eexists Exn, [], _. split; [now rewrite app_nil_r |].
        split; [reflexivity |].
        right. split; [reflexivity |]. intros HF. inversion HF as [| ? ? Hd _].
        destruct Hd as [Hd _]. now apply Hd.
    + rewrite (existsSync_false_listing _ _ He). cbn [candidates flat_map].
      change (ret (S := list entry) Next s) with (Val Next, s).
      destruct (IH s) as (o & found & missed & Hrun & Hc & Ho).
      rewrite Hrun. exists o, found, missed.
      split; [reflexivity |]. split; [exact Hc |].
      destruct Ho as [Ho | [Ho Hn]]; [now left | right].
      split; [assumption |]. intros HF. inversion HF; subst. tauto.
Qed.

Lemma scanCacheRoot_prefix (root : dirspec) :
  exists missed,
    allCandidates disk home sizeThreshold root
    = snd (scanCacheRoot disk home sizeThreshold budget root []) ++ missed
    /\ (trouble_free disk home root -> missed = []).
Proof.
  unfold allCandidates, trouble_free, cacheDirectoriesOf, scanCacheRoot. cbv zeta.
  destruct (includesStar (expandHome home root)).
  - rewrite flat_map_map.
    assert ((if slashBeforeStar (expandHome home root)
             then existsSyncSlash disk (beforeStar (expandHome home root))
             else existsSync disk (beforeStar (expandHome home root))) = false ->
            listing disk (beforeStar (expandHome home root)) = []) as Hnone.
    { destruct (slashBeforeStar _);
        [apply existsSyncSlash_false_listing | apply existsSync_false_listing]. }
    destruct (if slashBeforeStar (expandHome home root)
              then existsSyncSlash disk (beforeStar (expandHome home root))
              else existsSync disk (beforeStar (expandHome home root)));
      cbn [negb].
    + unfold catch, bind at 1, lift at 1.
      pose proof (readdir_finishes disk (beforeStar (expandHome home root))) as Hfin.
      destruct (readdir disk (beforeStar (expandHome home root))) as [items | |] eqn:Hr;
        [| | congruence].
      * assert (listing disk (beforeStar (expandHome home root)) = items) as Hl
            by (unfold listing; now rewrite Hr).
        rewrite Hl.
        destruct (items_prefix (beforeStar (expandHome home root))
                    (afterStar (expandHome home root)) items [])
          as (o & found & missed & Hrun & Hc & Ho).
        rewrite Hrun. exists missed. split.
        -- rewrite Hc. destruct Ho as [[-> _] | [-> _]]; reflexivity.
        -- intros HF. rewrite Forall_map in HF.
           destruct Ho as [[_ Ho] | [_ Hn]]; [assumption | tauto].
      * rewrite (readdir_fails_listing _ _ Hr). exists []. split; [reflexivity | auto].
    + rewrite (Hnone eq_refl). exists []. split; [reflexivity | auto].
  - cbn [flat_map]. rewrite app_nil_r.
    destruct (existsSync disk (expandHome home root)) eqn:He; cbn [negb].
    + unfold catch, bind at 1, lift at 1.
      pose proof (readdir_finishes disk (expandHome home root)) as Hfin.
      destruct (readdir disk (expandHome home root)) as [files | |] eqn:Hr;
        [| | congruence].
      * assert (listing disk (expandHome home root) = files) as Hl
            by (unfold listing; now rewrite Hr).
        rewrite Hl.
        destruct (children_prefix (expandHome home root) files [])
          as (o & found & missed & Hrun & Hc & Ho).
        rewrite Hrun. exists missed. split.
        -- rewrite Hc. destruct Ho as [[-> _] | [-> _]]; reflexivity.
        -- intros HF. inversion HF as [| ? ? Hd _].
           destruct Hd as [_ Hd]. rewrite Hl in Hd.
           destruct Ho as [[_ Ho] | [_ Hn]]; [assumption | tauto].
      * rewrite (readdir_fails_listing _ _ Hr). exists []. split; [reflexivity | auto].
    + rewrite (existsSync_false_listing _ _ He). exists []. split; [reflexivity | auto].
Qed.

End WholeCacheRoot.

(** X15.  On a disk whose directories hold distinct names, with a recursion
    budget above the height of the disk, what the scan of a cache root
    returns is a front part of the list of all the children of its cache
    directories that reach the threshold: entries are missed only behind a
    failure.  When every cache directory that exists can be listed and all
    that is listed can be statted, nothing is missed.  This holds for roots
    with a star too, where a failure under one item hides all later
    items. *)
Theorem cache_root_misses_only_what_follows_a_failure
    (fuel : nat) (disk : node) (home : pathname) (sizeThreshold : Z)
    (root : dirspec) :
  names_distinct disk = true ->
  (height disk < fuel)%nat ->
  exists found missed,
    scanCacheFilesIn disk home sizeThreshold fuel [root] = Val found
    /\ allCandidates disk home sizeThreshold root = found ++ missed
    /\ (trouble_free disk home root -> missed = []).
Proof.
  intros Hd Hh.
  destruct (scanCacheRoot_prefix disk home sizeThreshold fuel Hd Hh root)
    as (missed & Hall & Hfree).
  exists (snd (scanCacheRoot disk home sizeThreshold fuel root [])), missed.
  split; [| split; assumption].
  rewrite scanCacheFilesIn_flat by assumption. simpl. now rewrite app_nil_r.
Qed.

Lemma cache_root_misses_only_what_follows_a_failure_witness :
  names_distinct example_apps_disk = true
  /\ (height example_apps_disk < 8)%nat
  /\ scanCacheFilesIn example_apps_disk example_home (GB / 2) 8
       [HomeRel ["Library"; "Application Support"; "*"; "Caches"]]
     = Val [ mkEntry ["Users"; "me"; "Library"; "Application Support"; "Alpha";
                      "Caches"; "big"] GB false;
             mkEntry ["Users"; "me"; "Library"; "Application Support"; "Delta";
                      "Caches"; "early"] (2 * GB) false ]
  /\ exists found missed,
       scanCacheFilesIn example_apps_disk example_home (GB / 2) 8
         [HomeRel ["Library"; "Application Support"; "*"; "Caches"]] = Val found
       /\ allCandidates example_apps_disk example_home (GB / 2)
            (HomeRel ["Library"; "Application Support"; "*"; "Caches"])
          = found ++ missed
       /\ (trouble_free example_apps_disk example_home
             (HomeRel ["Library"; "Application Support"; "*"; "Caches"]) ->
           missed = []).
Proof.
  assert (height example_apps_disk < 8)%nat as Hh by (apply Nat.ltb_lt; reflexivity).
  split; [reflexivity |]. split; [exact Hh |]. split; [vm_compute; reflexivity |].
  exact (cache_root_misses_only_what_follows_a_failure 8 example_apps_disk example_home
           (GB / 2) (HomeRel ["Library"; "Application Support"; "*"; "Caches"])
           eq_refl Hh).
Defined.

Lemma main_ends_at_the_first_exit_witness :
  (height (onDiskNow (mkSession example_disk [] [])) < 6)%nat
  /\ exists s',
       main atOnce 6 example_home
         ([mkAnswers SCAN_LARGE_FILES (HomeRel ["Documents"]) tick_all true;
           mkAnswers SCAN_CACHE (HomeRel []) tick_all false]
            ++ mkAnswers EXIT (HomeRel []) tick_all true
            :: [mkAnswers SCAN_CACHE (HomeRel []) tick_all true])
         (mkSession example_disk [] []) = (Val tt, s')
       /\ main atOnce 6 example_home
            ([mkAnswers SCAN_LARGE_FILES (HomeRel ["Documents"]) tick_all true;
              mkAnswers SCAN_CACHE (HomeRel []) tick_all false]
               ++ [mkAnswers EXIT (HomeRel []) tick_all true])
            (mkSession example_disk [] []) = (Val tt, s')
       /\ (exists printed,
              output s' = output (mkSession example_disk [] [])
                            ++ Banner :: printed ++ [ThankYou])
       /\ (height (onDiskNow s') <= height (onDiskNow (mkSession example_disk [] [])))%nat.
Proof.
  split; [exact example_disk_budget |].
  apply (main_ends_at_the_first_exit atOnce 6 example_home
           [mkAnswers SCAN_LARGE_FILES (HomeRel ["Documents"]) tick_all true;
            mkAnswers SCAN_CACHE (HomeRel []) tick_all false]
           [mkAnswers SCAN_CACHE (HomeRel []) tick_all true]
           (mkAnswers EXIT (HomeRel []) tick_all true)
           (mkSession example_disk [] [])).
  - exact example_disk_budget.
  - repeat constructor; discriminate.
  - reflexivity.
Defined.

(** ** getFileSizeRecursive: a directory and what it lists *)

(** X16.  On a well-formed disk, with a recursion budget above its height, the
    size measured for a directory that can be listed is at least the size
    measured for each name it lists, and no measured size is negative.
    This is why a directory below the threshold holds nothing that reaches
    it. *)
Theorem directory_measures_at_least_each_listed_child
    (fuel : nat) (disk : node) (dir : pathname) (files : list string)
    (file : string) :
  well_formed disk = true ->
  (height disk < fuel)%nat ->
  readdir disk dir = Val files ->
  In file files ->
  exists child whole,
    getFileSizeRecursive fuel disk (join dir file) = Val child
    /\ getFileSizeRecursive fuel disk dir = Val whole
    /\ 0 <= child <= whole.
Proof.
  intros Hwf Hh Hr Hin. apply well_formed_parts in Hwf. destruct Hwf as [Hd Hn].
  exists (measuredAt disk (join dir file)), (measuredAt disk dir).
  split; [now apply getFileSizeRecursive_spec |].
  split; [now apply getFileSizeRecursive_spec |].
  split; [now apply measuredAt_nonneg |].
  unfold readdir in Hr.
  destruct (lookup disk dir) as [[z | [|] w es |] |] eqn:Hl; try discriminate.
  injection Hr as <-.
  destruct (assoc_listed _ _ _ Hin) as [ch Hch].
  unfold measuredAt at 1. rewrite lookup_join, Hl, Hch.
  eapply child_size_le; eauto.
Qed.

Lemma directory_measures_at_least_each_listed_child_witness :
  well_formed example_disk = true
  /\ (height example_disk < 6)%nat
  /\ readdir example_disk ["Users"; "me"; "Documents"]
     = Val (listing example_disk ["Users"; "me"; "Documents"])
  /\ In "cache" (listing example_disk ["Users"; "me"; "Documents"])
  /\ exists child whole,
       getFileSizeRecursive 6 example_disk (join ["Users"; "me"; "Documents"] "cache")
       = Val child
       /\ getFileSizeRecursive 6 example_disk ["Users"; "me"; "Documents"] = Val whole
       /\ 0 <= child <= whole.
Proof.
  assert (In "cache" (listing example_disk ["Users"; "me"; "Documents"])) as Hin
      by (vm_compute; tauto).
  split; [reflexivity |]. split; [exact example_disk_budget |].
  split; [reflexivity |]. split; [exact Hin |].
  exact (directory_measures_at_least_each_listed_child 6 example_disk
           ["Users"; "me"; "Documents"] _ "cache"
           eq_refl example_disk_budget eq_refl Hin).
Defined.
